(** * plane_sim: UV-sphere mesh generation and the orbit camera

    A shallow embedding of [generateSphere] (main.cpp, sphere.h) and of the
    camera code ([Camera] in camera.h, and the same statements on globals in
    main.cpp: [processInput], [mouse_callback], [scroll_callback] and the
    body of the render loop).

    Modelling conventions.
    - C++ [float]/[double] values are real numbers ([R]); [sinf], [cosf],
      [sin], [cos] are the real functions and [M_PI] is [PI].  Rounding is
      not modelled, so properties stated "within tolerance" are proved as
      exact equalities over [R].
    - A C++ [int] is an integer ([Z]) between [INT_MIN] and [INT_MAX].
      Signed overflow is undefined behaviour: every [int] operation of
      [generateSphere] is checked, and the function returns [None] as soon
      as one result leaves that range.  The conversion of an [int] to
      [unsigned int] is reduction modulo 2^32.
    - [std::vector] is [list]; [push_back] appends at the end and its
      allocation is taken to succeed.
    - Globals (main.cpp) and the fields of [Camera] (camera.h) are one
      record threaded through every operation. *)

From Stdlib Require Import Reals ZArith List Lia Lra Psatz Bool.
Import ListNotations.

Local Open Scope Z_scope.
Local Open Scope R_scope.

(** ** 32-bit [int] *)

Definition INT_MIN : Z := -2147483648.
Definition INT_MAX : Z := 2147483647.

Definition in_int (z : Z) : bool := ((INT_MIN <=? z) && (z <=? INT_MAX))%Z.

(** The result of a signed operation whose mathematical value is [z];
    [None] is signed overflow. *)
Definition int_result (z : Z) : option Z :=
  if in_int z then Some z else None.

Definition int_add (a b : Z) : option Z := int_result (a + b).
Definition int_sub (a b : Z) : option Z := int_result (a - b).
Definition int_mul (a b : Z) : option Z := int_result (a * b).

(** [(unsigned int) z] *)
Definition to_unsigned (z : Z) : Z := (z mod 4294967296)%Z.

(** Sequencing of computations that may be undefined. *)
Definition bind {A B : Type} (m : option A) (f : A -> option B) : option B :=
  match m with
  | Some a => f a
  | None => None
  end.

Notation "x <- m ;; k" := (bind m (fun x => k))
  (at level 61, m at next level, right associativity).

(** ** Counted loops *)

Module Loop.

(** [iter n i body s]: [n] successive iterations on the counter values
    [i], [i+1], ...; each iteration runs [body] and then [++i]. *)
Fixpoint iter {State : Type} (n : nat) (i : Z)
    (body : Z -> State -> option State) (s : State) : option State :=
  match n with
  | O => Some s
  | S n' =>
      s' <- body i s ;;
      i' <- int_add i 1 ;;
      iter n' i' body s'
  end.

(** [for (int i = lo; i < hi; ++i) body]: the condition holds for the
    [hi - lo] counter values from [lo] on. *)
Definition for_lt {State : Type} (lo hi : Z)
    (body : Z -> State -> option State) (s : State) : option State :=
  iter (Z.to_nat (hi - lo)) lo body s.

(** [for (int i = lo; i <= hi; ++i) body]: the condition holds for the
    [hi - lo + 1] counter values from [lo] on; the [++i] that follows the
    iteration at [hi] is executed too. *)
Definition for_le {State : Type} (lo hi : Z)
    (body : Z -> State -> option State) (s : State) : option State :=
  iter (Z.to_nat (hi - lo + 1)) lo body s.

(** The counter values visited by [iter n i]. *)
Fixpoint range (i : Z) (n : nat) : list Z :=
  match n with
  | O => []
  | S n' => i :: range (i + 1)%Z n'
  end.

End Loop.

(** ** glm::vec3 *)

Record vec3 : Type := mkvec3 { vx : R; vy : R; vz : R }.

Definition vadd (a b : vec3) : vec3 :=
  mkvec3 (vx a + vx b) (vy a + vy b) (vz a + vz b).

Definition vsub (a b : vec3) : vec3 :=
  mkvec3 (vx a - vx b) (vy a - vy b) (vz a - vz b).

Definition vscale (a : vec3) (k : R) : vec3 :=
  mkvec3 (vx a * k) (vy a * k) (vz a * k).

Definition dot (a b : vec3) : R :=
  vx a * vx b + vy a * vy b + vz a * vz b.

Definition cross (a b : vec3) : vec3 :=
  mkvec3 (vy a * vz b - vy b * vz a)
         (vz a * vx b - vz b * vx a)
         (vx a * vy b - vx b * vy a).

(** [glm::length] *)
Definition vlength (a : vec3) : R := sqrt (dot a a).

(** [glm::normalize(v)] is [v * inversesqrt(dot(v, v))]. *)
Definition normalize (a : vec3) : vec3 := vscale a (1 / sqrt (dot a a)).

(** ** generateSphere (main.cpp:172-226, sphere.h:8-62) *)

Definition push_back {A : Type} (v : list A) (x : A) : list A := v ++ [x].

(** Body of the inner vertex loop (main.cpp:189-202). *)
Definition vertex_body (lengthInv sectorStep xy z : R)
    (j : Z) (vertices : list R) : list R :=
  let sectorAngle := IZR j * sectorStep in
  let x := xy * cos sectorAngle in
  let y := xy * sin sectorAngle in
  let vertices := push_back vertices x in
  let vertices := push_back vertices y in
  let vertices := push_back vertices z in
  let nx := x * lengthInv in
  let ny := y * lengthInv in
  let nz := z * lengthInv in
  let vertices := push_back vertices nx in
  let vertices := push_back vertices ny in
  let vertices := push_back vertices nz in
  vertices.

(** Body of the outer vertex loop (main.cpp:184-203). *)
Definition stack_body (radius lengthInv sectorStep stackStep : R)
    (sectors : Z) (i : Z) (vertices : list R) : option (list R) :=
  let stackAngle := PI / 2 - IZR i * stackStep in
  let xy := radius * cos stackAngle in
  let z := radius * sin stackAngle in
  Loop.for_le 0 sectors
    (fun j vertices => Some (vertex_body lengthInv sectorStep xy z j vertices))
    vertices.

(** Body of the inner index loop (main.cpp:213-223) followed by the
    [++k1, ++k2] of its increment [++j, ++k1, ++k2] (the [++j] is the
    counter step of [Loop.iter]); the loop state is [(k1, k2, indices)].
    The indices are stored in a vector of [unsigned int]. *)
Definition index_body (stacks i : Z) (j : Z)
    (st : Z * Z * list Z) : option (Z * Z * list Z) :=
  let '(k1, k2, indices) := st in
  indices <-
    (if negb (i =? 0)%Z then
       k1' <- int_add k1 1 ;;
       Some (push_back (push_back (push_back indices (to_unsigned k1))
                          (to_unsigned k2)) (to_unsigned k1'))
     else Some indices) ;;
  last <- int_sub stacks 1 ;;
  indices <-
    (if negb (i =? last)%Z then
       k1' <- int_add k1 1 ;;
       k2' <- int_add k2 1 ;;
       Some (push_back (push_back (push_back indices (to_unsigned k1'))
                          (to_unsigned k2)) (to_unsigned k2'))
     else Some indices) ;;
  k1 <- int_add k1 1 ;;
  k2 <- int_add k2 1 ;;
  Some (k1, k2, indices).

(** Body of the outer index loop (main.cpp:209-224). *)
Definition index_row_body (sectors stacks : Z) (i : Z)
    (indices : list Z) : option (list Z) :=
  s1 <- int_add sectors 1 ;;
  k1 <- int_mul i s1 ;;
  t <- int_add k1 sectors ;;
  k2 <- int_add t 1 ;;
  st <- Loop.for_lt 0 sectors (index_body stacks i) (k1, k2, indices) ;;
  Some (snd st).

(** The two vectors are passed by reference and appended to; the model
    takes their initial contents and returns their final contents, or
    [None] when an [int] operation overflows. *)
Definition generateSphere (radius : R) (sectors stacks : Z)
    (vertices : list R) (indices : list Z) : option (list R * list Z) :=
  let lengthInv := 1 / radius in
  let sectorStep := 2 * PI / IZR sectors in
  let stackStep := PI / IZR stacks in
  vertices <-
    Loop.for_le 0 stacks
      (stack_body radius lengthInv sectorStep stackStep sectors) vertices ;;
  indices <-
    Loop.for_lt 0 stacks (index_row_body sectors stacks) indices ;;
  Some (vertices, indices).

(** *** Reading the buffers back

    The vertex buffer is uploaded with a stride of 6 floats: position at
    offset 0, normal at offset 3 (main.cpp:422-427); the index buffer is
    drawn as [GL_TRIANGLES], three consecutive indices per triangle
    (main.cpp:569). *)

Definition vertex_count (vertices : list R) : nat := (length vertices / 6)%nat.

Definition vertex_pos (vertices : list R) (k : nat) : vec3 :=
  mkvec3 (nth (6 * k) vertices 0)
         (nth (6 * k + 1) vertices 0)
         (nth (6 * k + 2) vertices 0).

Definition vertex_normal (vertices : list R) (k : nat) : vec3 :=
  mkvec3 (nth (6 * k + 3) vertices 0)
         (nth (6 * k + 4) vertices 0)
         (nth (6 * k + 5) vertices 0).

Fixpoint triangles (indices : list Z) : list (Z * Z * Z) :=
  match indices with
  | a :: b :: c :: rest => (a, b, c) :: triangles rest
  | _ => []
  end.

(** The sphere built in [main]: both vectors start empty. *)
Definition sphere (radius : R) (sectors stacks : Z)
    : option (list R * list Z) :=
  generateSphere radius sectors stacks [] [].

(** ** Camera state

    The globals of main.cpp (lines 15-32), which camera.h groups as the
    fields of [class Camera]; [spacePressed] is the function-local static
    of [processInput]/[processKeyboard], [windowShouldClose] the flag set by
    [glfwSetWindowShouldClose]. *)

Record Camera : Type := mkCamera {
  planeAltitude : R;
  planeSpeed : R;
  planeAngle : R;
  planeTilt : R;
  manualControl : bool;
  cameraDistance : R;
  cameraAngleX : R;
  cameraAngleY : R;
  lastX : R;
  lastY : R;
  firstMouse : bool;
  mousePressed : bool;
  globeRotationX : R;
  globeRotationY : R;
  spacePressed : bool;
  windowShouldClose : bool
}.

Definition set_planeAltitude (v : R) (c : Camera) : Camera :=
  mkCamera v (planeSpeed c) (planeAngle c) (planeTilt c) (manualControl c)
    (cameraDistance c) (cameraAngleX c) (cameraAngleY c) (lastX c) (lastY c)
    (firstMouse c) (mousePressed c) (globeRotationX c) (globeRotationY c)
    (spacePressed c) (windowShouldClose c).

Definition set_planeSpeed (v : R) (c : Camera) : Camera :=
  mkCamera (planeAltitude c) v (planeAngle c) (planeTilt c) (manualControl c)
    (cameraDistance c) (cameraAngleX c) (cameraAngleY c) (lastX c) (lastY c)
    (firstMouse c) (mousePressed c) (globeRotationX c) (globeRotationY c)
    (spacePressed c) (windowShouldClose c).

Definition set_planeAngle (v : R) (c : Camera) : Camera :=
  mkCamera (planeAltitude c) (planeSpeed c) v (planeTilt c) (manualControl c)
    (cameraDistance c) (cameraAngleX c) (cameraAngleY c) (lastX c) (lastY c)
    (firstMouse c) (mousePressed c) (globeRotationX c) (globeRotationY c)
    (spacePressed c) (windowShouldClose c).

Definition set_manualControl (v : bool) (c : Camera) : Camera :=
  mkCamera (planeAltitude c) (planeSpeed c) (planeAngle c) (planeTilt c) v
    (cameraDistance c) (cameraAngleX c) (cameraAngleY c) (lastX c) (lastY c)
    (firstMouse c) (mousePressed c) (globeRotationX c) (globeRotationY c)
    (spacePressed c) (windowShouldClose c).

Definition set_cameraDistance (v : R) (c : Camera) : Camera :=
  mkCamera (planeAltitude c) (planeSpeed c) (planeAngle c) (planeTilt c)
    (manualControl c) v (cameraAngleX c) (cameraAngleY c) (lastX c) (lastY c)
    (firstMouse c) (mousePressed c) (globeRotationX c) (globeRotationY c)
    (spacePressed c) (windowShouldClose c).

Definition set_cameraAngleX (v : R) (c : Camera) : Camera :=
  mkCamera (planeAltitude c) (planeSpeed c) (planeAngle c) (planeTilt c)
    (manualControl c) (cameraDistance c) v (cameraAngleY c) (lastX c) (lastY c)
    (firstMouse c) (mousePressed c) (globeRotationX c) (globeRotationY c)
    (spacePressed c) (windowShouldClose c).

Definition set_cameraAngleY (v : R) (c : Camera) : Camera :=
  mkCamera (planeAltitude c) (planeSpeed c) (planeAngle c) (planeTilt c)
    (manualControl c) (cameraDistance c) (cameraAngleX c) v (lastX c) (lastY c)
    (firstMouse c) (mousePressed c) (globeRotationX c) (globeRotationY c)
    (spacePressed c) (windowShouldClose c).

Definition set_lastX (v : R) (c : Camera) : Camera :=
  mkCamera (planeAltitude c) (planeSpeed c) (planeAngle c) (planeTilt c)
    (manualControl c) (cameraDistance c) (cameraAngleX c) (cameraAngleY c)
    v (lastY c)
    (firstMouse c) (mousePressed c) (globeRotationX c) (globeRotationY c)
    (spacePressed c) (windowShouldClose c).

Definition set_lastY (v : R) (c : Camera) : Camera :=
  mkCamera (planeAltitude c) (planeSpeed c) (planeAngle c) (planeTilt c)
    (manualControl c) (cameraDistance c) (cameraAngleX c) (cameraAngleY c)
    (lastX c) v
    (firstMouse c) (mousePressed c) (globeRotationX c) (globeRotationY c)
    (spacePressed c) (windowShouldClose c).

Definition set_firstMouse (v : bool) (c : Camera) : Camera :=
  mkCamera (planeAltitude c) (planeSpeed c) (planeAngle c) (planeTilt c)
    (manualControl c) (cameraDistance c) (cameraAngleX c) (cameraAngleY c)
    (lastX c) (lastY c)
    v (mousePressed c) (globeRotationX c) (globeRotationY c)
    (spacePressed c) (windowShouldClose c).

Definition set_mousePressed (v : bool) (c : Camera) : Camera :=
  mkCamera (planeAltitude c) (planeSpeed c) (planeAngle c) (planeTilt c)
    (manualControl c) (cameraDistance c) (cameraAngleX c) (cameraAngleY c)
    (lastX c) (lastY c)
    (firstMouse c) v (globeRotationX c) (globeRotationY c)
    (spacePressed c) (windowShouldClose c).

Definition set_globeRotationX (v : R) (c : Camera) : Camera :=
  mkCamera (planeAltitude c) (planeSpeed c) (planeAngle c) (planeTilt c)
    (manualControl c) (cameraDistance c) (cameraAngleX c) (cameraAngleY c)
    (lastX c) (lastY c)
    (firstMouse c) (mousePressed c) v (globeRotationY c)
    (spacePressed c) (windowShouldClose c).

Definition set_globeRotationY (v : R) (c : Camera) : Camera :=
  mkCamera (planeAltitude c) (planeSpeed c) (planeAngle c) (planeTilt c)
    (manualControl c) (cameraDistance c) (cameraAngleX c) (cameraAngleY c)
    (lastX c) (lastY c)
    (firstMouse c) (mousePressed c) (globeRotationX c) v
    (spacePressed c) (windowShouldClose c).

Definition set_spacePressed (v : bool) (c : Camera) : Camera :=
  mkCamera (planeAltitude c) (planeSpeed c) (planeAngle c) (planeTilt c)
    (manualControl c) (cameraDistance c) (cameraAngleX c) (cameraAngleY c)
    (lastX c) (lastY c)
    (firstMouse c) (mousePressed c) (globeRotationX c) (globeRotationY c)
    v (windowShouldClose c).

Definition set_windowShouldClose (v : bool) (c : Camera) : Camera :=
  mkCamera (planeAltitude c) (planeSpeed c) (planeAngle c) (planeTilt c)
    (manualControl c) (cameraDistance c) (cameraAngleX c) (cameraAngleY c)
    (lastX c) (lastY c)
    (firstMouse c) (mousePressed c) (globeRotationX c) (globeRotationY c)
    (spacePressed c) v.

(** Initial values: main.cpp:15-32 with the 800x600 window. *)
Definition main_init : Camera :=
  mkCamera 1.05 0.3 0 0.15 false 3 0 0 (800 / 2) (600 / 2) true false 0 0
    false false.

(** Initial values: the member initialisers and constructor of camera.h. *)
Definition Camera_new (windowWidth windowHeight : R) : Camera :=
  mkCamera 1.08 0.3 0 0.15 false 3 0 0 (windowWidth / 2) (windowHeight / 2)
    true false 0 0 false false.

(** The keys polled with [glfwGetKey] in one call of [processInput]:
    [true] stands for [GLFW_PRESS]. *)
Record Keys : Type := mkKeys {
  key_escape : bool;
  key_space : bool;
  key_up : bool;
  key_down : bool;
  key_left : bool;
  key_right : bool
}.

(** [if (x < lo) x = lo;] and [if (x > hi) x = hi;] *)
Definition clamp_below (lo x : R) : R := if Rlt_dec x lo then lo else x.
Definition clamp_above (hi x : R) : R := if Rgt_dec x hi then hi else x.

(** The SPACE toggle (main.cpp:295-308, camera.h:110-123). *)
Definition toggle_manual (k : Keys) (c : Camera) : Camera :=
  if key_space k then
    let c := if negb (spacePressed c)
             then set_manualControl (negb (manualControl c)) c
             else c in
    set_spacePressed true c
  else set_spacePressed false c.

(** "Controls based on mode" (main.cpp:311-338, camera.h:126-153);
    [minAltitude] is the literal [1.05f] of main.cpp and [1.08f] of
    camera.h. *)
Definition mode_controls (minAltitude : R) (k : Keys) (c : Camera) : Camera :=
  if negb (manualControl c) then
    let c := if key_up k then set_planeSpeed (planeSpeed c + 0.01) c else c in
    let c := if key_down k then set_planeSpeed (planeSpeed c - 0.01) c else c in
    let c := if key_left k
             then set_planeAltitude (planeAltitude c - 0.01) c else c in
    let c := if key_right k
             then set_planeAltitude (planeAltitude c + 0.01) c else c in
    let c := set_planeSpeed (clamp_below 0 (planeSpeed c)) c in
    let c := set_planeSpeed (clamp_above 2 (planeSpeed c)) c in
    let c := set_planeAltitude (clamp_below minAltitude (planeAltitude c)) c in
    let c := set_planeAltitude (clamp_above 2 (planeAltitude c)) c in
    c
  else
    let rotSpeed := 0.02 in
    let c := if key_left k
             then set_globeRotationY (globeRotationY c - rotSpeed) c else c in
    let c := if key_right k
             then set_globeRotationY (globeRotationY c + rotSpeed) c else c in
    let c := if key_up k
             then set_globeRotationX (globeRotationX c - rotSpeed) c else c in
    let c := if key_down k
             then set_globeRotationX (globeRotationX c + rotSpeed) c else c in
    c.

(** [Camera::processKeyboard] (camera.h:108-154). *)
Definition processKeyboard (k : Keys) (c : Camera) : Camera :=
  mode_controls 1.08 k (toggle_manual k c).

(** [processInput] of main.cpp (lines 290-339). *)
Definition processInput (k : Keys) (c : Camera) : Camera :=
  let c := if key_escape k then set_windowShouldClose true c else c in
  mode_controls 1.05 k (toggle_manual k c).

(** [mouse_callback] (main.cpp:250-271), [Camera::processMouseMovement]
    (camera.h:156-176). *)
Definition mouse_callback (xpos ypos : R) (c : Camera) : Camera :=
  if negb (mousePressed c) || negb (manualControl c) then c else
  let c := if firstMouse c
           then set_firstMouse false (set_lastY ypos (set_lastX xpos c))
           else c in
  let xoffset := xpos - lastX c in
  let yoffset := lastY c - ypos in
  let c := set_lastX xpos c in
  let c := set_lastY ypos c in
  let sensitivity := 0.01 in
  let c := set_cameraAngleX (cameraAngleX c + xoffset * sensitivity) c in
  let c := set_cameraAngleY (cameraAngleY c + yoffset * sensitivity) c in
  let c := set_cameraAngleY (clamp_above 1.5 (cameraAngleY c)) c in
  let c := set_cameraAngleY (clamp_below (-1.5) (cameraAngleY c)) c in
  c.

Definition GLFW_MOUSE_BUTTON_LEFT : Z := 0.
Definition GLFW_PRESS : Z := 1.
Definition GLFW_RELEASE : Z := 0.

(** [mouse_button_callback] (main.cpp:273-282), [Camera::processMouseButton]
    (camera.h:178-187). *)
Definition mouse_button_callback (button action : Z) (c : Camera) : Camera :=
  if (button =? GLFW_MOUSE_BUTTON_LEFT)%Z then
    if (action =? GLFW_PRESS)%Z
    then set_firstMouse true (set_mousePressed true c)
    else if (action =? GLFW_RELEASE)%Z
    then set_mousePressed false c
    else c
  else c.

(** [scroll_callback] (main.cpp:284-288), [Camera::processScroll]
    (camera.h:189-193). *)
Definition scroll_callback (yoffset : R) (c : Camera) : Camera :=
  let c := set_cameraDistance (cameraDistance c - yoffset * 0.1) c in
  let c := set_cameraDistance (clamp_below 1.5 (cameraDistance c)) c in
  let c := set_cameraDistance (clamp_above 10 (cameraDistance c)) c in
  c.

(** ** The view computation *)

(** A view matrix is represented by the arguments of the [glm::lookAt]
    call that builds it. *)
Inductive mat4 : Type :=
| lookAt (eye center up : vec3).

Definition view_eye (m : mat4) : vec3 :=
  match m with lookAt eye _ _ => eye end.

(** The local variables of the plane-view branch (main.cpp:486-512,
    camera.h:40-65), computed from the state whose angle has already been
    advanced. *)
Record PlaneView : Type := mkPlaneView {
  pv_planePos : vec3;
  pv_nextPos : vec3;
  pv_forward : vec3;
  pv_up : vec3;
  pv_right : vec3;
  pv_lookTarget : vec3
}.

Definition plane_view (c : Camera) : PlaneView :=
  let pathVariation := sin (planeAngle c * 2) * 0.4 in
  let planeX := planeAltitude c * cos (planeAngle c) in
  let planeY := pathVariation in
  let planeZ := planeAltitude c * sin (planeAngle c) in
  let planePos := mkvec3 planeX planeY planeZ in
  let planePos := vscale (normalize planePos) (planeAltitude c) in
  let nextAngle := planeAngle c + 0.01 in
  let nextPathVariation := sin (nextAngle * 2) * 0.4 in
  let nextPos :=
    vscale (normalize (mkvec3 (planeAltitude c * cos nextAngle)
                              nextPathVariation
                              (planeAltitude c * sin nextAngle)))
           (planeAltitude c) in
  let forward := normalize (vsub nextPos planePos) in
  let up := normalize planePos in
  let right := cross forward up in
  let up := cross right forward in
  let lookTarget := vadd (vadd planePos forward) (vscale up (- planeTilt c)) in
  mkPlaneView planePos nextPos forward up right lookTarget.

(** [Camera::getViewMatrix] (camera.h:34-80); the render loop of main.cpp
    has the same statements inline (lines 480-526).  Returns the updated
    state and the matrix. *)
Definition getViewMatrix (deltaTime : R) (c : Camera) : Camera * mat4 :=
  if negb (manualControl c) then
    let c := set_planeAngle (planeAngle c + planeSpeed c * deltaTime) c in
    let pv := plane_view c in
    (c, lookAt (pv_planePos pv) (pv_lookTarget pv) (pv_up pv))
  else
    let camX := sin (cameraAngleX c) * cos (cameraAngleY c) * cameraDistance c in
    let camY := sin (cameraAngleY c) * cameraDistance c in
    let camZ := cos (cameraAngleX c) * cos (cameraAngleY c) * cameraDistance c in
    (c, lookAt (mkvec3 camX camY camZ) (mkvec3 0 0 0) (mkvec3 0 1 0)).

(** [Camera::getViewPosition] (camera.h:91-106); inline in main.cpp
    (lines 550-564). *)
Definition getViewPosition (c : Camera) : vec3 :=
  if negb (manualControl c) then
    let pathVariation := sin (planeAngle c * 2) * 0.4 in
    vscale (normalize (mkvec3 (planeAltitude c * cos (planeAngle c))
                              pathVariation
                              (planeAltitude c * sin (planeAngle c))))
           (planeAltitude c)
  else
    mkvec3 (sin (cameraAngleX c) * cos (cameraAngleY c) * cameraDistance c)
           (sin (cameraAngleY c) * cameraDistance c)
           (cos (cameraAngleX c) * cos (cameraAngleY c) * cameraDistance c).

(** What one iteration of the render loop hands to the shaders. *)
Record FrameOutput : Type := mkFrameOutput {
  fo_view : mat4;
  fo_viewPosition : vec3
}.

(** [processInput] of the variant built on camera.h, which handles ESC
    and calls [Camera::processKeyboard]. *)
Definition camera_processInput (k : Keys) (c : Camera) : Camera :=
  let c := if key_escape k then set_windowShouldClose true c else c in
  processKeyboard k c.

(** One iteration of the render loop (main.cpp:456-573), up to the draw
    call: input, view matrix, view position.  [input] is [processInput]. *)
Definition render_frame (input : Keys -> Camera -> Camera)
    (k : Keys) (deltaTime : R) (c : Camera) : Camera * FrameOutput :=
  let c := input k c in
  let '(c, view) := getViewMatrix deltaTime c in
  let viewPosition := getViewPosition c in
  (c, mkFrameOutput view viewPosition).

Definition main_frame : Keys -> R -> Camera -> Camera * FrameOutput :=
  render_frame processInput.

Definition camera_frame : Keys -> R -> Camera -> Camera * FrameOutput :=
  render_frame camera_processInput.

(** ** Events

    Everything that can change the camera state: a frame of the render
    loop, and the three callbacks run by [glfwPollEvents]. *)
Inductive event : Type :=
| Frame (k : Keys) (deltaTime : R)
| MouseMove (xpos ypos : R)
| MouseButton (button action : Z)
| Scroll (xoffset yoffset : R).

Definition step (input : Keys -> Camera -> Camera)
    (e : event) (c : Camera) : Camera :=
  match e with
  | Frame k deltaTime => fst (render_frame input k deltaTime c)
  | MouseMove xpos ypos => mouse_callback xpos ypos c
  | MouseButton button action => mouse_button_callback button action c
  | Scroll _ yoffset => scroll_callback yoffset c
  end.

Definition run (input : Keys -> Camera -> Camera)
    (evs : list event) (c : Camera) : Camera :=
  fold_left (fun c e => step input e c) evs c.

Definition main_run : list event -> Camera -> Camera := run processInput.
Definition camera_run : list event -> Camera -> Camera :=
  run camera_processInput.

(** Every frame of the run is spent in manual mode: the mode tested by the
    view computation, after that frame's input, is manual. *)
Fixpoint frames_manual (input : Keys -> Camera -> Camera)
    (evs : list event) (c : Camera) : Prop :=
  match evs with
  | [] => True
  | e :: rest =>
      match e with
      | Frame k _ => manualControl (input k c) = true
      | _ => True
      end /\ frames_manual input rest (step input e c)
  end.

(** The eye positions of successive view queries with elapsed times
    [dts]. *)
Fixpoint eyes (dts : list R) (c : Camera) : list vec3 :=
  match dts with
  | [] => []
  | deltaTime :: rest =>
      view_eye (snd (getViewMatrix deltaTime c))
        :: eyes rest (fst (getViewMatrix deltaTime c))
  end.

(** The states after successive view queries with elapsed times [dts]. *)
Fixpoint queries (dts : list R) (c : Camera) : Camera :=
  match dts with
  | [] => c
  | deltaTime :: rest => queries rest (fst (getViewMatrix deltaTime c))
  end.

(** The two input functions of the repository. *)
Definition is_input (input : Keys -> Camera -> Camera) : Prop :=
  input = processInput \/ input = camera_processInput.

Definition orthogonal (a b : vec3) : Prop := dot a b = 0.

Definition orthonormal (f u r : vec3) : Prop :=
  orthogonal f u /\ orthogonal f r /\ orthogonal u r /\
  vlength f = 1 /\ vlength u = 1 /\ vlength r = 1.

(** The configured ranges (main.cpp:323-326, 269-270, 286-287). *)
Definition in_range (minAltitude : R) (c : Camera) : Prop :=
  0 <= planeSpeed c <= 2 /\
  minAltitude <= planeAltitude c <= 2 /\
  -1.5 <= cameraAngleY c <= 1.5 /\
  1.5 <= cameraDistance c <= 10.

Definition no_keys : Keys := mkKeys false false false false false false.

(** Only the RIGHT arrow held: "increase altitude". *)
Definition right_key : Keys := mkKeys false false false false false true.

(** Only SPACE held. *)
Definition space_key : Keys := mkKeys false true false false false false.

(** ** Closed forms used in the statements *)

(** The six floats pushed for stack [i], sector [j]. *)
Definition vertex_floats (radius : R) (sectors stacks : Z) (i j : Z) : list R :=
  vertex_body (1 / radius) (2 * PI / IZR sectors)
    (radius * cos (PI / 2 - IZR i * (PI / IZR stacks)))
    (radius * sin (PI / 2 - IZR i * (PI / IZR stacks))) j [].

(** The triangles of the cell at stack [i], sector [j]. *)
Definition cell_triangles (sectors stacks : Z) (i j : Z) : list (Z * Z * Z) :=
  let k1 := (i * (sectors + 1) + j)%Z in
  let k2 := (k1 + sectors + 1)%Z in
  (if (i =? 0)%Z then [] else [(k1, k2, (k1 + 1)%Z)]) ++
  (if (i =? stacks - 1)%Z then [] else [((k1 + 1)%Z, k2, (k2 + 1)%Z)]).

Definition flatten_triangle (t : Z * Z * Z) : list Z :=
  let '(a, b, c) := t in [a; b; c].

Definition cell_indices (sectors stacks : Z) (i j : Z) : list Z :=
  flat_map flatten_triangle (cell_triangles sectors stacks i j).

(** Row-major enumeration of a [ni] x [nj] grid of cells. *)
Definition grid {A : Type} (ni nj : nat) (f : Z -> Z -> list A) : list A :=
  flat_map (fun i => flat_map (f i) (Loop.range 0 nj)) (Loop.range 0 ni).

(** The buffers of the mesh in closed form. *)
Definition mesh_vertices (radius : R) (sectors stacks : Z) : list R :=
  grid (Z.to_nat (stacks + 1)) (Z.to_nat (sectors + 1))
    (vertex_floats radius sectors stacks).

Definition mesh_indices (sectors stacks : Z) : list Z :=
  grid (Z.to_nat stacks) (Z.to_nat sectors) (cell_indices sectors stacks).

(** The inputs on which no [int] operation of [generateSphere] overflows:
    the index of the last vertex fits an [int]. *)
Definition fits_int (sectors stacks : Z) : Prop :=
  ((stacks + 1) * (sectors + 1) - 1 <= INT_MAX)%Z.

(** The outward normal of a triangle given by three vertex indices: the
    cross product of its two edges from the first corner. *)
Definition face_normal (vertices : list R) (t : Z * Z * Z) : vec3 :=
  let '(a, b, c) := t in
  let pa := vertex_pos vertices (Z.to_nat a) in
  let pb := vertex_pos vertices (Z.to_nat b) in
  let pc := vertex_pos vertices (Z.to_nat c) in
  cross (vsub pb pa) (vsub pc pa).

(** A triangle winds counter-clockwise seen from outside when its face
    normal has a positive dot product with the vertex normal at each of its
    three corners. *)
Definition outward (vertices : list R) (t : Z * Z * Z) : Prop :=
  let '(a, b, c) := t in
  0 < dot (face_normal vertices t) (vertex_normal vertices (Z.to_nat a)) /\
  0 < dot (face_normal vertices t) (vertex_normal vertices (Z.to_nat b)) /\
  0 < dot (face_normal vertices t) (vertex_normal vertices (Z.to_nat c)).

(** Indicator of [a <= x < a + n]: whether a loop of [n] iterations
    starting at [a] visits [x]. *)
Definition visits (a : Z) (n : nat) (x : Z) : Z :=
  if (a <=? x)%Z then if (x <? a + Z.of_nat n)%Z then 1%Z else 0%Z else 0%Z.

(** ** The render loop clock and the callbacks (main.cpp:455-462, 572) *)

(** The callbacks that [glfwPollEvents] runs at the end of an iteration. *)
Inductive callback : Type :=
| OnMouseMove (xpos ypos : R)
| OnMouseButton (button action : Z)
| OnScroll (xoffset yoffset : R).

Definition deliver (c : Camera) (cb : callback) : Camera :=
  match cb with
  | OnMouseMove xpos ypos => mouse_callback xpos ypos c
  | OnMouseButton button action => mouse_button_callback button action c
  | OnScroll _ yoffset => scroll_callback yoffset c
  end.

(** One iteration of [while (!glfwWindowShouldClose(window))]: the state is
    [lastFrame] and the camera; [currentFrame] is the value returned by
    [glfwGetTime], [k] the keys held, [polled] the callbacks delivered by
    [glfwPollEvents]. *)
Definition loop_iteration (input : Keys -> Camera -> Camera)
    (currentFrame : R) (k : Keys) (polled : list callback)
    (st : R * Camera) : R * Camera :=
  let '(lastFrame, c) := st in
  let deltaTime := currentFrame - lastFrame in
  let lastFrame := currentFrame in
  let c := fst (render_frame input k deltaTime c) in
  (lastFrame, fold_left deliver polled c).

Definition loop_run (input : Keys -> Camera -> Camera)
    (iterations : list (R * Keys * list callback))
    (st : R * Camera) : R * Camera :=
  fold_left
    (fun st it => loop_iteration input (fst (fst it)) (snd (fst it)) (snd it) st)
    iterations st.

(** A drag: successive cursor positions delivered to [mouse_callback]. *)
Definition drag (moves : list (R * R)) (c : Camera) : Camera :=
  fold_left (fun c m => mouse_callback (fst m) (snd m) c) moves c.

Definition view_center (m : mat4) : vec3 :=
  match m with lookAt _ center _ => center end.

Definition view_up (m : mat4) : vec3 :=
  match m with lookAt _ _ up => up end.

(** ** The fragment shader (main.cpp:55-169, shaders.h:24-138)

    GLSL [float] is [R]; the built-ins are the functions of the GLSL
    specification. *)

Record vec2 : Type := mkvec2 { v2x : R; v2y : R }.

Record vec4 : Type := mkvec4 { v4x : R; v4y : R; v4z : R; v4w : R }.

(** [floor(x)] *)
Definition glsl_floor (x : R) : R := IZR (Int_part x).

(** [fract(x)] is [x - floor(x)]. *)
Definition fract (x : R) : R := x - glsl_floor x.

(** [mix(x, y, a)] is [x * (1 - a) + y * a]. *)
Definition mix (x y a : R) : R := x * (1 - a) + y * a.

(** [clamp(x, lo, hi)] is [min(max(x, lo), hi)]. *)
Definition glsl_clamp (x lo hi : R) : R := Rmin (Rmax x lo) hi.

(** [smoothstep(edge0, edge1, x)] *)
Definition smoothstep (edge0 edge1 x : R) : R :=
  let t := glsl_clamp ((x - edge0) / (edge1 - edge0)) 0 1 in
  t * t * (3 - 2 * t).

(** [pow(x, y)]: undefined for [x < 0], and 0 at [x = 0] for [y > 0]. *)
Definition glsl_pow (x y : R) : R :=
  if Rle_dec x 0 then 0 else Rpower x y.

(** [atan(y, x)]: the angle of the point (x, y), in [-PI, PI]; undefined at
    the origin. *)
Definition glsl_atan (y x : R) : R :=
  if Rlt_dec 0 x then atan (y / x)
  else if Rlt_dec x 0 then
    if Rle_dec 0 y then atan (y / x) + PI else atan (y / x) - PI
  else if Rlt_dec 0 y then PI / 2
  else if Rlt_dec y 0 then - (PI / 2)
  else 0.

Definition dot2 (a b : vec2) : R := v2x a * v2x b + v2y a * v2y b.

Definition v2add (a b : vec2) : vec2 := mkvec2 (v2x a + v2x b) (v2y a + v2y b).

Definition v2scale (a : vec2) (k : R) : vec2 := mkvec2 (v2x a * k) (v2y a * k).

(** Component-wise [vec3 * vec3]. *)
Definition vmul (a b : vec3) : vec3 :=
  mkvec3 (vx a * vx b) (vy a * vy b) (vz a * vz b).

(** [mix] on [vec3] with a scalar weight. *)
Definition vmix (a b : vec3) (t : R) : vec3 :=
  mkvec3 (mix (vx a) (vx b) t) (mix (vy a) (vy b) t) (mix (vz a) (vz b) t).

(** [float hash(vec2 p)] *)
Definition hash (p : vec2) : R :=
  fract (sin (dot2 p (mkvec2 127.1 311.7)) * 43758.5453).

(** [float noise(vec2 p)] *)
Definition noise (p : vec2) : R :=
  let i := mkvec2 (glsl_floor (v2x p)) (glsl_floor (v2y p)) in
  let f := mkvec2 (fract (v2x p)) (fract (v2y p)) in
  let f := mkvec2 (v2x f * v2x f * (3 - 2 * v2x f))
                  (v2y f * v2y f * (3 - 2 * v2y f)) in
  let a := hash i in
  let b := hash (v2add i (mkvec2 1 0)) in
  let c := hash (v2add i (mkvec2 0 1)) in
  let d := hash (v2add i (mkvec2 1 1)) in
  mix a b (v2x f) + (c - a) * v2y f * (1 - v2x f) + (d - b) * v2x f * v2y f.

(** The sum of the three octaves in [continentNoise], before the
    [smoothstep]. *)
Definition continentOctaves (pos : vec3) : R :=
  let theta := glsl_atan (vz pos) (vx pos) in
  let phi := asin (vy pos) in
  let uv := mkvec2 (theta * 2) (phi * 3) in
  let n := 0 in
  let n := n + noise (v2scale uv 3) * 0.5 in
  let n := n + noise (v2scale uv 6) * 0.25 in
  let n := n + noise (v2scale uv 12) * 0.125 in
  n.

(** [float continentNoise(vec3 pos)] *)
Definition continentNoise (pos : vec3) : R :=
  let n := continentOctaves pos in
  let n := smoothstep 0.35 0.45 n in
  n.

(** The uniforms read by the fragment shader ([objectColor] is declared
    but never read). *)
Record Uniforms : Type := mkUniforms {
  sunPos : vec3;
  moonPos : vec3;
  sunColor : vec3;
  moonColor : vec3;
  viewPos : vec3
}.

(** The local variables of [main] that the statements below speak of,
    and the value written to [FragColor]. *)
Record Fragment : Type := mkFragment {
  fr_landMask : R;
  fr_baseColor : vec3;
  fr_FragColor : vec4
}.

(** [void main()] of the fragment shader (main.cpp:107-168). *)
Definition fragment_main (u : Uniforms) (FragPos Normal : vec3) : Fragment :=
  let norm := normalize Normal in
  let landMask := continentNoise (normalize FragPos) in
  let oceanColor := mkvec3 0.05 0.2 0.5 in
  let landColor := mkvec3 0.15 0.4 0.15 in
  let baseColor := vmix oceanColor landColor landMask in
  let baseColor :=
    if Rgt_dec landMask 0.5 then
      let latitude := Rabs (vy (normalize FragPos)) in
      let desertBelt :=
        smoothstep 0.15 0.25 latitude * (1 - smoothstep 0.35 0.45 latitude) in
      let variation :=
        noise (v2scale (mkvec2 (vx (normalize FragPos))
                               (vz (normalize FragPos))) 10) in
      let desertAmount := desertBelt * 0.7 + variation * 0.3 in
      let desertColor := mkvec3 0.8 0.6 0.3 in
      let savannaColor := mkvec3 0.5 0.5 0.2 in
      let baseColor :=
        if Rgt_dec desertAmount 0.3
        then vmix baseColor savannaColor (smoothstep 0.3 0.5 desertAmount)
        else baseColor in
      let baseColor :=
        if Rgt_dec desertAmount 0.5
        then vmix baseColor desertColor (smoothstep 0.5 0.8 desertAmount)
        else baseColor in
      baseColor
    else baseColor in
  let sunDir := normalize (vsub (sunPos u) FragPos) in
  let sunDiff := Rmax (dot norm sunDir) 0 in
  let sunLight := vscale (vscale (sunColor u) sunDiff) 0.8 in
  let moonDir := normalize (vsub (moonPos u) FragPos) in
  let moonDiff := Rmax (dot norm moonDir) 0 in
  let moonLight := vscale (vscale (moonColor u) moonDiff) 0.3 in
  let ambient := mkvec3 0.05 0.05 0.1 in
  let result := vmul (vadd (vadd ambient sunLight) moonLight) baseColor in
  let viewDir := normalize (vsub (viewPos u) FragPos) in
  let rim := 1 - Rmax (dot norm viewDir) 0 in
  let rim := glsl_pow rim 2 in
  let result := vadd result (vscale (vscale (mkvec3 0.1 0.2 0.4) rim) 0.5) in
  let result :=
    if Rlt_dec landMask 0.5 then
      let halfwayDir := normalize (vadd sunDir viewDir) in
      let spec := glsl_pow (Rmax (dot norm halfwayDir) 0) 32 in
      vadd result (vscale (vscale (sunColor u) spec) 0.5)
    else result in
  mkFragment landMask baseColor
    (mkvec4 (vx result) (vy result) (vz result) 1).

(** ** The first sphere generator and the orbit it was drawn with
    (src/unnamed/part_000, second program) *)

Module Grok.

(** Body of the inner loop (part_000:82-87). *)
Definition vertex_body (sectorStep xy z : R) (j : Z) (vertices : list R)
    : list R :=
  let sectorAngle := IZR j * sectorStep in
  let x := xy * cos sectorAngle in
  let y := xy * sin sectorAngle in
  push_back (push_back (push_back vertices x) y) z.

(** [std::vector<float> generateSphere(float radius, int sectors)]
    (part_000:74-92): stacks and sectors share the one count. *)
Definition generateSphere (radius : R) (sectors : Z) : option (list R) :=
  let vertices := [] in
  let sectorStep := 2 * PI / IZR sectors in
  let stackStep := PI / IZR sectors in
  Loop.for_le 0 sectors
    (fun i vertices =>
       let stackAngle := PI / 2 - IZR i * stackStep in
       let xy := radius * cos stackAngle in
       let z := radius * sin stackAngle in
       Loop.for_le 0 sectors
         (fun j vertices => Some (vertex_body sectorStep xy z j vertices))
         vertices)
    vertices.


(** The plane position and the view of one frame at [glfwGetTime() = time]
    (part_000:165-174). *)
Definition planePos (time : R) : vec3 :=
  mkvec3 (sin time * 1.5) 0.2 (cos time * 1.5).

Definition view (time : R) : mat4 :=
  let cameraPos := vadd (planePos time) (mkvec3 0 0.2 0.5) in
  let targetPos := mkvec3 0 0 0 in
  let up := mkvec3 0 1 0 in
  lookAt cameraPos targetPos up.

End Grok.

(** * Properties *)

(** ** Loops and lists *)

(** Linear arithmetic with the bounds of [int] unfolded. *)
Ltac ilia := unfold fits_int, INT_MIN, INT_MAX in *; lia.
Ltac inia := unfold fits_int, INT_MIN, INT_MAX in *; nia.

Lemma int_result_in z :
  (INT_MIN <= z <= INT_MAX)%Z -> int_result z = Some z.
Proof.
  intros H. unfold int_result, in_int.
  destruct (Z.leb_spec INT_MIN z), (Z.leb_spec z INT_MAX); try ilia.
  reflexivity.
Qed.

Lemma int_result_out z :
  (z < INT_MIN \/ INT_MAX < z)%Z -> int_result z = None.
Proof.
  intros H. unfold int_result, in_int.
  destruct (Z.leb_spec INT_MIN z), (Z.leb_spec z INT_MAX); try ilia;
    reflexivity.
Qed.

Lemma int_result_some z r :
  int_result z = Some r -> r = z /\ (INT_MIN <= z <= INT_MAX)%Z.
Proof.
  unfold int_result, in_int.
  destruct (Z.leb_spec INT_MIN z), (Z.leb_spec z INT_MAX); cbn;
    intros E; inversion E; lia.
Qed.

Lemma to_unsigned_id z : (0 <= z <= INT_MAX)%Z -> to_unsigned z = z.
Proof.
  intros H. unfold to_unsigned. apply Z.mod_small.
  unfold INT_MAX in H. lia.
Qed.

(** A loop whose iterations each append to a list. *)
Lemma iter_app {A : Type} (body : Z -> list A -> option (list A))
    (g : Z -> list A) n :
  forall i s,
    (INT_MIN <= i)%Z -> (i + Z.of_nat n <= INT_MAX)%Z ->
    (forall k s, (i <= k < i + Z.of_nat n)%Z -> body k s = Some (s ++ g k)) ->
    Loop.iter n i body s = Some (s ++ flat_map g (Loop.range i n)).
Proof.
  induction n as [|n IH]; intros i s Hlo Hhi Hb.
  - cbn. now rewrite app_nil_r.
  - cbn [Loop.iter Loop.range flat_map].
    rewrite Hb by ilia. cbn [bind]. unfold int_add.
    rewrite int_result_in by ilia. cbn [bind].
    rewrite IH; [now rewrite <- app_assoc | ilia | ilia |].
    intros k s' Hk. apply Hb. ilia.
Qed.

(** A loop whose counter would pass [INT_MAX] is undefined, whatever its
    body does. *)
Lemma iter_overflow {State : Type} (body : Z -> State -> option State) n :
  forall i s,
    (i <= INT_MAX)%Z -> (INT_MAX < i + Z.of_nat n)%Z ->
    Loop.iter n i body s = None.
Proof.
  induction n as [|n IH]; intros i s Hi Hn; [ilia|].
  cbn [Loop.iter]. destruct (body i s) as [s'|]; [|reflexivity].
  cbn [bind]. unfold int_add.
  destruct (int_result (i + 1)) as [i'|] eqn:E; [|reflexivity].
  apply int_result_some in E. destruct E as [-> E].
  cbn [bind]. apply IH; ilia.
Qed.

(** A loop one of whose iterations is undefined is undefined. *)
Lemma iter_fail_at {State : Type} (body : Z -> State -> option State) n :
  forall i s t,
    (0 <= t < Z.of_nat n)%Z ->
    (forall s, body (i + t)%Z s = None) ->
    Loop.iter n i body s = None.
Proof.
  induction n as [|n IH]; intros i s t Ht Hb; [ilia|].
  cbn [Loop.iter].
  destruct (Z.eq_dec t 0) as [-> | Hne].
  - rewrite Z.add_0_r in Hb. now rewrite Hb.
  - destruct (body i s) as [s'|]; [|reflexivity].
    cbn [bind]. unfold int_add.
    destruct (int_result (i + 1)) as [i'|] eqn:E; [|reflexivity].
    apply int_result_some in E. destruct E as [-> E].
    cbn [bind]. apply (IH _ _ (t - 1)%Z); [ilia|].
    intros s0. replace (i + 1 + (t - 1))%Z with (i + t)%Z by ring.
    apply Hb.
Qed.

Lemma range_length i n : length (Loop.range i n) = n.
Proof. revert i; induction n; simpl; intros; auto. Qed.

Lemma range_nth n :
  forall i p d, (p < n)%nat -> nth p (Loop.range i n) d = (i + Z.of_nat p)%Z.
Proof.
  induction n as [|n IH]; intros i p d Hp; [ilia|].
  destruct p as [|p]; simpl.
  - ilia.
  - rewrite IH by ilia. lia.
Qed.

Lemma range_In n :
  forall i x, In x (Loop.range i n) <-> (i <= x < i + Z.of_nat n)%Z.
Proof.
  induction n as [|n IH]; intros i x; simpl.
  - ilia.
  - rewrite IH. lia.
Qed.

Lemma flat_map_range_shift {A} (f : Z -> list A) n :
  forall a, flat_map f (Loop.range (a + 1) n)
            = flat_map (fun t => f (t + 1)%Z) (Loop.range a n).
Proof.
  induction n as [|n IH]; intros a; simpl; [reflexivity|].
  now rewrite IH.
Qed.

Lemma nth_flat_map_uniform {A B} (g : A -> list B) (m : nat) (d : B) (da : A) :
  (forall x, length (g x) = m) ->
  forall l p q, (p < length l)%nat -> (q < m)%nat ->
  nth (m * p + q) (flat_map g l) d = nth q (g (nth p l da)) d.
Proof.
  intros Hg l; induction l as [|x l IH]; intros p q Hp Hq; simpl in *; [ilia|].
  destruct p as [|p].
  - rewrite Nat.mul_0_r, Nat.add_0_l, app_nth1 by (rewrite Hg; lia).
    reflexivity.
  - rewrite app_nth2 by (rewrite Hg; nia).
    rewrite Hg. replace (m * S p + q - m)%nat with (m * p + q)%nat by inia.
    apply IH; ilia.
Qed.

Lemma length_flat_map_uniform {A B} (g : A -> list B) (m : nat) :
  (forall x, length (g x) = m) ->
  forall l, length (flat_map g l) = (m * length l)%nat.
Proof.
  intros Hg l; induction l as [|x l IH]; simpl; [ilia|].
  rewrite length_app, Hg, IH. lia.
Qed.

Lemma triangles_app_flatten (ts : list (Z * Z * Z)) :
  triangles (flat_map flatten_triangle ts) = ts.
Proof.
  induction ts as [|[[a b] c] ts IH]; simpl; [reflexivity|].
  now rewrite IH.
Qed.

Lemma flat_map_flat_map {A B C} (f : A -> list B) (g : B -> list C) l :
  flat_map g (flat_map f l) = flat_map (fun x => flat_map g (f x)) l.
Proof.
  induction l as [|x l IH]; simpl; [reflexivity|].
  now rewrite flat_map_app, IH.
Qed.

(** ** generateSphere: the buffers in closed form *)

Lemma vertex_body_app lengthInv sectorStep xy z j vertices :
  vertex_body lengthInv sectorStep xy z j vertices
  = vertices ++ vertex_body lengthInv sectorStep xy z j [].
Proof.
  unfold vertex_body, push_back. simpl.
  repeat rewrite <- app_assoc. reflexivity.
Qed.

Lemma stack_body_app radius sectors stacks i vertices :
  (0 <= sectors < INT_MAX)%Z ->
  stack_body radius (1 / radius) (2 * PI / IZR sectors) (PI / IZR stacks)
    sectors i vertices
  = Some (vertices ++ flat_map (vertex_floats radius sectors stacks i)
                        (Loop.range 0 (Z.to_nat (sectors + 1)))).
Proof.
  intros Hs. unfold stack_body, Loop.for_le.
  rewrite (iter_app _ (vertex_floats radius sectors stacks i)).
  - rewrite Z.sub_0_r. reflexivity.
  - ilia.
  - ilia.
  - intros k s _. f_equal. apply vertex_body_app.
Qed.

Lemma vertex_loop_defined radius sectors stacks vertices :
  (0 <= sectors < INT_MAX)%Z -> (0 <= stacks < INT_MAX)%Z ->
  Loop.for_le 0 stacks
    (stack_body radius (1 / radius) (2 * PI / IZR sectors) (PI / IZR stacks)
       sectors) vertices
  = Some (vertices ++ mesh_vertices radius sectors stacks).
Proof.
  intros Hs Ht. unfold Loop.for_le, mesh_vertices, grid.
  rewrite (iter_app _
             (fun i => flat_map (vertex_floats radius sectors stacks i)
                         (Loop.range 0 (Z.to_nat (sectors + 1))))).
  - rewrite Z.sub_0_r. reflexivity.
  - ilia.
  - ilia.
  - intros k s _. now apply stack_body_app.
Qed.

Lemma index_body_spec stacks i j k1 k2 indices :
  (0 <= k1)%Z -> (0 <= k2)%Z -> (k1 < INT_MAX)%Z -> (k2 < INT_MAX)%Z ->
  (INT_MIN < stacks)%Z -> (stacks <= INT_MAX)%Z ->
  index_body stacks i j (k1, k2, indices)
  = Some ((k1 + 1)%Z, (k2 + 1)%Z,
          indices ++
          flat_map flatten_triangle
            ((if (i =? 0)%Z then [] else [(k1, k2, (k1 + 1)%Z)]) ++
             (if (i =? stacks - 1)%Z then []
              else [((k1 + 1)%Z, k2, (k2 + 1)%Z)]))).
Proof.
  intros H1 H2 H3 H4 H5 H6. unfold index_body, push_back, int_add, int_sub.
  rewrite !int_result_in by ilia.
  destruct (i =? 0)%Z; cbn [negb bind];
    destruct (i =? stacks - 1)%Z; cbn [negb bind]; cbn [flat_map app];
    rewrite ?to_unsigned_id by ilia;
    repeat rewrite <- app_assoc; cbn [app flatten_triangle];
    rewrite ?app_nil_r; reflexivity.
Qed.

Lemma index_inner_loop sectors stacks i n :
  forall j indices,
    (0 <= j)%Z -> (0 <= i * (sectors + 1))%Z -> (0 <= sectors)%Z ->
    (INT_MIN < stacks)%Z -> (stacks <= INT_MAX)%Z ->
    (i * (sectors + 1) + j + sectors + 1 + Z.of_nat n <= INT_MAX)%Z ->
    Loop.iter n j (index_body stacks i)
      ((i * (sectors + 1) + j)%Z, (i * (sectors + 1) + j + sectors + 1)%Z,
       indices)
    = Some ((i * (sectors + 1) + j + Z.of_nat n)%Z,
            (i * (sectors + 1) + j + sectors + 1 + Z.of_nat n)%Z,
            indices ++ flat_map (cell_indices sectors stacks i)
                         (Loop.range j n)).
Proof.
  induction n as [|n IH]; intros j indices Hj Hi Hs Ht1 Ht2 Hmax.
  - cbn. rewrite app_nil_r, !Z.add_0_r. reflexivity.
  - cbn [Loop.iter Loop.range flat_map].
    rewrite index_body_spec by ilia. cbn [bind]. unfold int_add.
    rewrite int_result_in by ilia. cbn [bind].
    replace (i * (sectors + 1) + j + 1)%Z
      with (i * (sectors + 1) + (j + 1))%Z by ring.
    replace (i * (sectors + 1) + j + sectors + 1 + 1)%Z
      with (i * (sectors + 1) + (j + 1) + sectors + 1)%Z by ring.
    rewrite IH by ilia. rewrite <- app_assoc.
    f_equal. f_equal; [f_equal; lia|].
    do 2 f_equal. unfold cell_indices, cell_triangles. cbv zeta.
    destruct (i =? 0)%Z, (i =? stacks - 1)%Z; simpl;
      repeat (f_equal; try lia).
Qed.

Lemma index_row_body_app sectors stacks i indices :
  (0 <= i)%Z -> (0 <= sectors)%Z ->
  (INT_MIN < stacks)%Z -> (stacks <= INT_MAX)%Z ->
  (i * (sectors + 1) + sectors + 1 + sectors <= INT_MAX)%Z ->
  index_row_body sectors stacks i indices
  = Some (indices ++ flat_map (cell_indices sectors stacks i)
                       (Loop.range 0 (Z.to_nat sectors))).
Proof.
  intros Hi Hs Ht1 Ht2 Hmax. unfold index_row_body, int_add, int_mul.
  assert (0 <= i * (sectors + 1))%Z by inia.
  rewrite (int_result_in (sectors + 1)) by ilia.
  cbn [bind].
  rewrite (int_result_in (i * (sectors + 1))) by ilia.
  cbn [bind].
  rewrite (int_result_in (i * (sectors + 1) + sectors))
    by ilia.
  cbn [bind].
  rewrite (int_result_in (i * (sectors + 1) + sectors + 1))
    by ilia.
  cbn [bind]. unfold Loop.for_lt.
  replace (i * (sectors + 1))%Z with (i * (sectors + 1) + 0)%Z at 1 by ring.
  replace (i * (sectors + 1) + sectors + 1)%Z
    with (i * (sectors + 1) + 0 + sectors + 1)%Z by ring.
  rewrite index_inner_loop by ilia.
  cbn [bind snd]. rewrite Z.sub_0_r. reflexivity.
Qed.

Lemma index_loop_defined sectors stacks indices :
  (0 <= sectors)%Z -> (0 <= stacks)%Z -> fits_int sectors stacks ->
  Loop.for_lt 0 stacks (index_row_body sectors stacks) indices
  = Some (indices ++ mesh_indices sectors stacks).
Proof.
  intros Hs Ht Hfit. unfold fits_int in Hfit.
  unfold Loop.for_lt, mesh_indices, grid.
  assert (stacks <= INT_MAX)%Z by inia.
  rewrite (iter_app _
             (fun i => flat_map (cell_indices sectors stacks i)
                         (Loop.range 0 (Z.to_nat sectors)))).
  - rewrite Z.sub_0_r. reflexivity.
  - ilia.
  - ilia.
  - intros k s Hk. apply index_row_body_app; try ilia. inia.
Qed.

(** On positive counts that fit, [generateSphere] is defined and appends
    the closed-form buffers. *)
Lemma generateSphere_defined radius sectors stacks vertices indices :
  (1 <= sectors)%Z -> (1 <= stacks)%Z -> fits_int sectors stacks ->
  generateSphere radius sectors stacks vertices indices
  = Some (vertices ++ mesh_vertices radius sectors stacks,
          indices ++ mesh_indices sectors stacks).
Proof.
  intros Hs Ht Hfit. unfold generateSphere.
  assert (sectors < INT_MAX /\ stacks < INT_MAX)%Z
    by inia.
  rewrite vertex_loop_defined by ilia. cbn [bind].
  rewrite index_loop_defined by (auto; ilia). reflexivity.
Qed.

(** *** Where it is undefined *)

Lemma bind_some {A B : Type} (m : option A) (f : A -> option B) r :
  bind m f = Some r -> exists a, m = Some a /\ f a = Some r.
Proof. destruct m as [a|]; cbn; [eauto | discriminate]. Qed.

(** An iteration of the inner index loop that is defined increments
    [k2]. *)
Lemma index_body_some stacks i j k1 k2 indices k1' k2' indices' :
  index_body stacks i j (k1, k2, indices) = Some (k1', k2', indices') ->
  k2' = (k2 + 1)%Z /\ (k2' <= INT_MAX)%Z.
Proof.
  unfold index_body. intros H.
  apply bind_some in H. destruct H as (x1 & _ & H).
  apply bind_some in H. destruct H as (x2 & _ & H).
  apply bind_some in H. destruct H as (x3 & _ & H).
  apply bind_some in H. destruct H as (x4 & _ & H).
  apply bind_some in H. destruct H as (x5 & E & H).
  inversion H; subst. unfold int_add in E.
  apply int_result_some in E. ilia.
Qed.

Lemma index_inner_overflow stacks i n :
  forall j k1 k2 indices,
    (k2 <= INT_MAX)%Z -> (INT_MAX < k2 + Z.of_nat n)%Z ->
    Loop.iter n j (index_body stacks i) (k1, k2, indices) = None.
Proof.
  induction n as [|n IH]; intros j k1 k2 indices Hk Hn; [lia|].
  cbn [Loop.iter].
  destruct (index_body stacks i j (k1, k2, indices))
    as [[[k1' k2'] indices']|] eqn:E; [|reflexivity].
  apply index_body_some in E. destruct E as [-> E].
  cbn [bind]. destruct (int_add j 1) as [j'|]; [|reflexivity].
  cbn [bind]. apply IH; lia.
Qed.

(** A row whose last value of [k2] does not fit is undefined. *)
Lemma index_row_overflow sectors stacks i indices :
  (0 <= sectors)%Z ->
  (INT_MAX < i * (sectors + 1) + sectors + 1 + sectors)%Z ->
  index_row_body sectors stacks i indices = None.
Proof.
  intros Hs Hmax. unfold index_row_body, int_add, int_mul.
  destruct (int_result (sectors + 1)) as [s1|] eqn:E1; [|reflexivity].
  apply int_result_some in E1. destruct E1 as [-> E1]. cbn [bind].
  destruct (int_result (i * (sectors + 1))) as [k1|] eqn:E2; [|reflexivity].
  apply int_result_some in E2. destruct E2 as [-> E2]. cbn [bind].
  destruct (int_result (i * (sectors + 1) + sectors)) as [t|] eqn:E3;
    [|reflexivity].
  apply int_result_some in E3. destruct E3 as [-> E3]. cbn [bind].
  destruct (int_result (i * (sectors + 1) + sectors + 1)) as [k2|] eqn:E4;
    [|reflexivity].
  apply int_result_some in E4. destruct E4 as [-> E4]. cbn [bind].
  unfold Loop.for_lt. rewrite index_inner_overflow; [reflexivity | lia | lia].
Qed.

(** On positive counts that do not fit, some [int] operation overflows. *)
Lemma generateSphere_undefined radius sectors stacks vertices indices :
  (1 <= sectors)%Z -> (1 <= stacks)%Z -> ~ fits_int sectors stacks ->
  generateSphere radius sectors stacks vertices indices = None.
Proof.
  intros Hs Ht Hfit. unfold generateSphere.
  assert (H0 : (0 < INT_MAX)%Z) by reflexivity.
  destruct (Z_lt_le_dec sectors INT_MAX) as [Hs' | Hs'];
    [destruct (Z_lt_le_dec stacks INT_MAX) as [Ht' | Ht']|].
  - rewrite vertex_loop_defined by lia. cbn [bind].
    unfold Loop.for_lt.
    rewrite (iter_fail_at _ _ _ _ (stacks - 1)%Z); [reflexivity | lia |].
    intros s. apply index_row_overflow; [lia|].
    unfold fits_int in Hfit. nia.
  - unfold Loop.for_le. rewrite iter_overflow; [reflexivity | lia | lia].
  - unfold Loop.for_le.
    rewrite (iter_fail_at _ _ _ _ 0%Z); [reflexivity | lia |].
    intros s. unfold stack_body, Loop.for_le.
    apply iter_overflow; lia.
Qed.

Lemma fits_int_dec sectors stacks :
  {fits_int sectors stacks} + {~ fits_int sectors stacks}.
Proof. unfold fits_int. apply Z_le_dec. Qed.

(** Whenever [generateSphere] is defined on positive counts, its result
    is the closed form and the counts fit. *)
Lemma generateSphere_some radius sectors stacks vertices indices vs ids :
  (1 <= sectors)%Z -> (1 <= stacks)%Z ->
  generateSphere radius sectors stacks vertices indices = Some (vs, ids) ->
  fits_int sectors stacks /\
  vs = vertices ++ mesh_vertices radius sectors stacks /\
  ids = indices ++ mesh_indices sectors stacks.
Proof.
  intros Hs Ht H. destruct (fits_int_dec sectors stacks) as [Hfit | Hfit].
  - rewrite generateSphere_defined in H by assumption.
    inversion H. auto.
  - rewrite generateSphere_undefined in H by assumption. discriminate.
Qed.

(** The index loop run on sectors = 4, stacks = 2. *)
Example index_loop_4_2 :
  Loop.for_lt 0 2 (index_row_body 4 2) []
  = Some [1; 5; 6; 2; 6; 7; 3; 7; 8; 4; 8; 9;
          5; 10; 6; 6; 11; 7; 7; 12; 8; 8; 13; 9]%Z.
Proof. reflexivity. Qed.

Lemma grid_length {A} (f : Z -> Z -> list A) (m ni nj : nat) :
  (forall i j, length (f i j) = m) ->
  length (grid ni nj f) = (m * (nj * ni))%nat.
Proof.
  intros Hf. unfold grid.
  rewrite (length_flat_map_uniform _ (m * nj)), range_length; [lia|].
  intros i. now rewrite (length_flat_map_uniform _ m), range_length.
Qed.

Lemma grid_nth {A} (f : Z -> Z -> list A) (m ni nj : nat) (d : A) :
  (forall i j, length (f i j) = m) ->
  forall i j q, (i < ni)%nat -> (j < nj)%nat -> (q < m)%nat ->
  nth (m * (nj * i + j) + q) (grid ni nj f) d
  = nth q (f (Z.of_nat i) (Z.of_nat j)) d.
Proof.
  intros Hf i j q Hi Hj Hq. unfold grid.
  replace (m * (nj * i + j) + q)%nat with ((m * nj) * i + (m * j + q))%nat
    by nia.
  rewrite (nth_flat_map_uniform _ (m * nj) d 0%Z).
  - rewrite range_nth by lia.
    rewrite (nth_flat_map_uniform _ m d 0%Z); auto.
    + rewrite range_nth by lia. reflexivity.
    + now rewrite range_length.
  - intros x. now rewrite (length_flat_map_uniform _ m), range_length.
  - now rewrite range_length.
  - nia.
Qed.

Lemma vertex_floats_length radius sectors stacks i j :
  length (vertex_floats radius sectors stacks i j) = 6%nat.
Proof. reflexivity. Qed.

Lemma sphere_vertex_count radius sectors stacks :
  (0 <= sectors)%Z -> (0 <= stacks)%Z ->
  length (mesh_vertices radius sectors stacks)
    = (6 * Z.to_nat ((stacks + 1) * (sectors + 1)))%nat /\
  vertex_count (mesh_vertices radius sectors stacks)
    = Z.to_nat ((stacks + 1) * (sectors + 1)).
Proof.
  intros Hs Ht. unfold mesh_vertices. unfold vertex_count.
  rewrite (grid_length _ 6) by apply vertex_floats_length.
  replace (Z.to_nat (sectors + 1) * Z.to_nat (stacks + 1))%nat
    with (Z.to_nat ((stacks + 1) * (sectors + 1))) by nia.
  split; [reflexivity|].
  rewrite Nat.mul_comm. now apply Nat.div_mul.
Qed.

(** Offset [q] of the vertex at stack [i], sector [j]. *)
Lemma sphere_vertex_nth radius sectors stacks i j q :
  (0 <= i <= stacks)%Z -> (0 <= j <= sectors)%Z -> (q < 6)%nat ->
  nth (6 * Z.to_nat (i * (sectors + 1) + j) + q)
      (mesh_vertices radius sectors stacks) 0
  = nth q (vertex_floats radius sectors stacks i j) 0.
Proof.
  intros Hi Hj Hq. unfold mesh_vertices.
  replace (Z.to_nat (i * (sectors + 1) + j))
    with (Z.to_nat (sectors + 1) * Z.to_nat i + Z.to_nat j)%nat by nia.
  rewrite (grid_nth _ 6) by (try apply vertex_floats_length; lia).
  rewrite !Z2Nat.id by lia. reflexivity.
Qed.

(** ** Trigonometry and vectors *)

Lemma sin2_cos2' x : sin x * sin x + cos x * cos x = 1.
Proof. generalize (sin2_cos2 x). unfold Rsqr. auto. Qed.

Lemma sqrt_sqr_pos r : 0 <= r -> sqrt (r * r) = r.
Proof. intros. now apply sqrt_square. Qed.

Lemma sphere_point_length r phi theta :
  0 <= r ->
  vlength (mkvec3 (r * cos phi * cos theta) (r * cos phi * sin theta)
                  (r * sin phi)) = r.
Proof.
  intros Hr. unfold vlength, dot. cbn [vx vy vz].
  replace (_ + _) with (r * r); [now apply sqrt_sqr_pos|].
  generalize (sin2_cos2' phi) (sin2_cos2' theta). intros Hp Ht.
  transitivity
    (r * r * (cos phi * cos phi * (sin theta * sin theta + cos theta * cos theta)
              + sin phi * sin phi)); [|ring].
  rewrite Ht, Rmult_1_r, Rplus_comm, Hp. ring.
Qed.

Lemma sphere_vertex_pos r sectors stacks i j :
  (0 <= i <= stacks)%Z -> (0 <= j <= sectors)%Z ->
  vertex_pos (mesh_vertices r sectors stacks) (Z.to_nat (i * (sectors + 1) + j))
  = mkvec3
      (r * cos (PI / 2 - IZR i * (PI / IZR stacks))
         * cos (IZR j * (2 * PI / IZR sectors)))
      (r * cos (PI / 2 - IZR i * (PI / IZR stacks))
         * sin (IZR j * (2 * PI / IZR sectors)))
      (r * sin (PI / 2 - IZR i * (PI / IZR stacks))).
Proof.
  intros Hi Hj. unfold vertex_pos.
  rewrite <- (Nat.add_0_r (6 * _)) at 1.
  rewrite !sphere_vertex_nth by (auto; lia). reflexivity.
Qed.

Lemma sphere_vertex_normal r sectors stacks i j :
  (0 <= i <= stacks)%Z -> (0 <= j <= sectors)%Z ->
  vertex_normal (mesh_vertices r sectors stacks)
    (Z.to_nat (i * (sectors + 1) + j))
  = vscale (vertex_pos (mesh_vertices r sectors stacks)
              (Z.to_nat (i * (sectors + 1) + j))) (1 / r).
Proof.
  intros Hi Hj. rewrite sphere_vertex_pos by auto. unfold vertex_normal.
  rewrite !sphere_vertex_nth by (auto; lia). reflexivity.
Qed.

(** Every vertex index below the count is the index of some (stack,
    sector) pair. *)
Lemma vertex_index_decompose sectors stacks k :
  (0 <= sectors)%Z -> (0 <= stacks)%Z ->
  (k < Z.to_nat ((stacks + 1) * (sectors + 1)))%nat ->
  exists i j, (0 <= i <= stacks)%Z /\ (0 <= j <= sectors)%Z /\
              k = Z.to_nat (i * (sectors + 1) + j).
Proof.
  intros Hs Ht Hk.
  exists (Z.of_nat k / (sectors + 1))%Z, (Z.of_nat k mod (sectors + 1))%Z.
  assert (Hm := Z.mod_pos_bound (Z.of_nat k) (sectors + 1) ltac:(lia)).
  assert (Hd := Z.div_mod (Z.of_nat k) (sectors + 1) ltac:(lia)).
  assert (0 <= Z.of_nat k / (sectors + 1))%Z by (apply Z.div_pos; lia).
  assert (Z.of_nat k / (sectors + 1) < stacks + 1)%Z
    by (apply Z.div_lt_upper_bound; lia).
  repeat split; try lia.
Qed.

(** C1, as the code has it.  For r > 0, sectors >= 3, stacks >= 3 such
    that the index of the last vertex, (stacks+1)*(sectors+1) - 1, fits a
    32-bit [int], [generateSphere] called on empty vectors is defined and
    produces exactly (stacks+1)*(sectors+1) vertices (six floats each);
    the vertex of stack [i] and sector [j], stored at index
    i*(sectors+1)+j, has position (r cos phi cos theta, r cos phi sin theta,
    r sin phi) with phi = pi/2 - i*(pi/stacks), theta = j*(2 pi/sectors);
    its normal is its position divided by r; every position has length r
    and every normal has length 1. *)
Theorem generateSphere_vertex_spec (r : R) (sectors stacks : Z) :
  0 < r -> (3 <= sectors)%Z -> (3 <= stacks)%Z -> fits_int sectors stacks ->
  exists vertices indices,
  sphere r sectors stacks = Some (vertices, indices) /\
  Z.of_nat (vertex_count vertices) = ((stacks + 1) * (sectors + 1))%Z /\
  Z.of_nat (length vertices) = (6 * ((stacks + 1) * (sectors + 1)))%Z /\
  (forall i j, (0 <= i <= stacks)%Z -> (0 <= j <= sectors)%Z ->
     let k := Z.to_nat (i * (sectors + 1) + j) in
     let phi := PI / 2 - IZR i * (PI / IZR stacks) in
     let theta := IZR j * (2 * PI / IZR sectors) in
     vertex_pos vertices k
       = mkvec3 (r * cos phi * cos theta) (r * cos phi * sin theta)
                (r * sin phi) /\
     vertex_normal vertices k
       = mkvec3 (vx (vertex_pos vertices k) / r)
                (vy (vertex_pos vertices k) / r)
                (vz (vertex_pos vertices k) / r)) /\
  (forall k, (k < vertex_count vertices)%nat ->
     vlength (vertex_pos vertices k) = r /\
     vlength (vertex_normal vertices k) = 1).
Proof.
  intros Hr Hs Ht Hfit.
  exists (mesh_vertices r sectors stacks), (mesh_indices sectors stacks).
  split.
  { unfold sphere. rewrite generateSphere_defined by (auto; lia).
    reflexivity. }
  destruct (sphere_vertex_count r sectors stacks) as [Hlen Hcnt]; try lia.
  split; [rewrite Hcnt; lia|].
  split; [rewrite Hlen; lia|].
  split.
  - intros i j Hi Hj k phi theta. subst k.
    rewrite sphere_vertex_normal, sphere_vertex_pos by auto.
    split; [reflexivity|].
    unfold vscale. cbn [vx vy vz]. f_equal; unfold Rdiv; ring.
  - intros k Hk. rewrite Hcnt in Hk.
    destruct (vertex_index_decompose sectors stacks k) as (i & j & Hi & Hj & ->);
      try lia.
    rewrite sphere_vertex_normal, sphere_vertex_pos by auto.
    split; [apply sphere_point_length; lra|].
    unfold vscale. cbn [vx vy vz].
    replace (mkvec3 _ _ _)
      with (mkvec3
              (1 * cos (PI / 2 - IZR i * (PI / IZR stacks))
                 * cos (IZR j * (2 * PI / IZR sectors)))
              (1 * cos (PI / 2 - IZR i * (PI / IZR stacks))
                 * sin (IZR j * (2 * PI / IZR sectors)))
              (1 * sin (PI / 2 - IZR i * (PI / IZR stacks)))).
    + apply sphere_point_length; lra.
    + f_equal; field; lra.
Qed.

Lemma generateSphere_vertex_spec_witness :
  exists vertices indices,
    sphere 1 72 36 = Some (vertices, indices) /\
    Z.of_nat (vertex_count vertices) = 2701%Z /\
    vlength (vertex_pos vertices 7) = 1.
Proof.
  destruct (generateSphere_vertex_spec 1 72 36)
    as (vertices & indices & Hrun & Hc & _ & _ & Hk);
    [lra | lia | lia | unfold fits_int, INT_MAX; lia |].
  exists vertices, indices. split; [exact Hrun|]. split; [exact Hc|].
  apply Hk. apply Nat2Z.inj_lt. rewrite Hc. reflexivity.
Defined.

(** C1 as stated fails at sectors = [INT_MAX], stacks = 3: the loop
    [for (int j = 0; j <= sectors; ++j)] of the first row cannot leave
    without overflowing [j], so the first row is undefined and no vertex
    buffer is produced. *)
Lemma generateSphere_vertices_int_max :
  (3 <= INT_MAX)%Z /\
  (forall radius lengthInv sectorStep stackStep vertices,
     stack_body radius lengthInv sectorStep stackStep INT_MAX 0 vertices
     = None) /\
  sphere 1 INT_MAX 3 = None.
Proof.
  assert (H0 : (0 < INT_MAX)%Z) by reflexivity.
  split; [unfold INT_MAX; lia|]. split.
  - intros. unfold stack_body, Loop.for_le. apply iter_overflow; lia.
  - unfold sphere. apply generateSphere_undefined.
    + unfold INT_MAX. lia.
    + lia.
    + unfold fits_int, INT_MAX. lia.
Qed.

(** ** generateSphere: the index buffer *)

Lemma grid_indices_triangles sectors stacks ni nj :
  grid ni nj (cell_indices sectors stacks)
  = flat_map flatten_triangle (grid ni nj (cell_triangles sectors stacks)).
Proof.
  unfold grid. rewrite flat_map_flat_map. apply flat_map_ext. intros i.
  rewrite flat_map_flat_map. reflexivity.
Qed.

Lemma flatten_length ts :
  length (flat_map flatten_triangle ts) = (3 * length ts)%nat.
Proof.
  apply (length_flat_map_uniform flatten_triangle 3). now intros [[a b] c].
Qed.

Lemma cell_triangles_length sectors stacks i j :
  Z.of_nat (length (cell_triangles sectors stacks i j))
  = ((if (i =? 0)%Z then 0 else 1) + (if (i =? stacks - 1)%Z then 0 else 1))%Z.
Proof.
  unfold cell_triangles. cbv zeta.
  destruct (i =? 0)%Z, (i =? stacks - 1)%Z; reflexivity.
Qed.

Lemma row_triangles_length sectors stacks i n :
  forall j,
  Z.of_nat (length (flat_map (cell_triangles sectors stacks i) (Loop.range j n)))
  = (Z.of_nat n * ((if (i =? 0)%Z then 0 else 1)
                   + (if (i =? stacks - 1)%Z then 0 else 1)))%Z.
Proof.
  induction n as [|n IH]; intros j; [reflexivity|].
  cbn [Loop.range flat_map]. rewrite length_app, Nat2Z.inj_add, IH.
  rewrite cell_triangles_length. lia.
Qed.

Lemma rows_triangles_length sectors stacks nj n :
  forall a,
  Z.of_nat (length (flat_map
                      (fun i => flat_map (cell_triangles sectors stacks i)
                                  (Loop.range 0 nj))
                      (Loop.range a n)))
  = (Z.of_nat nj * ((Z.of_nat n - visits a n 0%Z)
                    + (Z.of_nat n - visits a n (stacks - 1)%Z)))%Z.
Proof.
  induction n as [|n IH]; intros a.
  - cbn [Loop.range flat_map length]. unfold visits.
    repeat match goal with
           | |- context [(?x <=? ?y)%Z] => destruct (Z.leb_spec x y)
           | |- context [(?x <? ?y)%Z] => destruct (Z.ltb_spec x y)
           end; lia.
  - cbn [Loop.range flat_map]. rewrite length_app, Nat2Z.inj_add, IH.
    rewrite row_triangles_length. unfold visits.
    repeat match goal with
           | |- context [(?x =? ?y)%Z] => destruct (Z.eqb_spec x y)
           | |- context [(?x <=? ?y)%Z] => destruct (Z.leb_spec x y)
           | |- context [(?x <? ?y)%Z] => destruct (Z.ltb_spec x y)
           end; try lia.
Qed.

Lemma sphere_triangle_count sectors stacks :
  (0 <= sectors)%Z -> (1 <= stacks)%Z ->
  Z.of_nat (length (grid (Z.to_nat stacks) (Z.to_nat sectors)
                      (cell_triangles sectors stacks)))
  = (2 * sectors * (stacks - 1))%Z.
Proof.
  intros Hs Ht. unfold grid. rewrite rows_triangles_length. unfold visits.
  rewrite !Z2Nat.id by lia.
  repeat match goal with
         | |- context [(?x <=? ?y)%Z] => destruct (Z.leb_spec x y)
         | |- context [(?x <? ?y)%Z] => destruct (Z.ltb_spec x y)
         end; lia.
Qed.

Lemma cell_indices_bound sectors stacks i j x :
  (0 <= sectors)%Z ->
  (0 <= i < stacks)%Z -> (0 <= j < sectors)%Z ->
  In x (cell_indices sectors stacks i j) ->
  (0 <= x < (stacks + 1) * (sectors + 1))%Z.
Proof.
  intros Hs Hi Hj. unfold cell_indices, cell_triangles. cbv zeta.
  assert (i * (sectors + 1) + j + sectors + 1 + 1
          <= stacks * (sectors + 1) + sectors)%Z by nia.
  assert (0 <= i * (sectors + 1))%Z by nia.
  destruct (i =? 0)%Z, (i =? stacks - 1)%Z; simpl; intuition (subst; nia).
Qed.

Lemma grid_In {A} (f : Z -> Z -> list A) ni nj x :
  In x (grid ni nj f) <->
  exists i j, (0 <= i < Z.of_nat ni)%Z /\ (0 <= j < Z.of_nat nj)%Z /\
              In x (f i j).
Proof.
  unfold grid. rewrite in_flat_map. split.
  - intros (i & Hi & Hx). apply in_flat_map in Hx. destruct Hx as (j & Hj & Hx).
    apply range_In in Hi, Hj. exists i, j. repeat split; auto; lia.
  - intros (i & j & Hi & Hj & Hx). exists i. split; [apply range_In; lia|].
    apply in_flat_map. exists j. split; [apply range_In; lia|auto].
Qed.

Lemma sphere_indices_bound sectors stacks x :
  (0 <= sectors)%Z -> (0 <= stacks)%Z ->
  In x (mesh_indices sectors stacks) ->
  (0 <= x < (stacks + 1) * (sectors + 1))%Z.
Proof.
  intros Hs Ht. unfold mesh_indices. rewrite grid_In.
  intros (i & j & Hi & Hj & Hx).
  apply (cell_indices_bound sectors stacks i j); auto; lia.
Qed.

(** C2, as the code has it.  For r > 0, sectors >= 3, stacks >= 3 such
    that the index of the last vertex fits a 32-bit [int], the index buffer
    built on empty vectors has length 2*sectors*(stacks-1)*3; read three at
    a time it is, cell by cell in row-major order, the triangle
    (k1, k2, k1+1) unless i = 0 and the triangle (k1+1, k2, k2+1) unless
    i = stacks-1, with k1 = i*(sectors+1)+j and k2 = k1+sectors+1; and
    every index is below the vertex count (stacks+1)*(sectors+1). *)
Theorem generateSphere_index_spec (r : R) (sectors stacks : Z) :
  0 < r -> (3 <= sectors)%Z -> (3 <= stacks)%Z -> fits_int sectors stacks ->
  exists vertices indices,
  sphere r sectors stacks = Some (vertices, indices) /\
  Z.of_nat (length indices) = (2 * sectors * (stacks - 1) * 3)%Z /\
  triangles indices
    = grid (Z.to_nat stacks) (Z.to_nat sectors) (cell_triangles sectors stacks) /\
  Z.of_nat (vertex_count vertices) = ((stacks + 1) * (sectors + 1))%Z /\
  Forall (fun k => (0 <= k < Z.of_nat (vertex_count vertices))%Z) indices.
Proof.
  intros Hr Hs Ht Hfit.
  exists (mesh_vertices r sectors stacks), (mesh_indices sectors stacks).
  split.
  { unfold sphere. rewrite generateSphere_defined by (auto; lia).
    reflexivity. }
  destruct (sphere_vertex_count r sectors stacks) as [_ Hcnt]; try lia.
  rewrite Hcnt, Z2Nat.id by nia.
  split; [|split; [|split]].
  - unfold mesh_indices; rewrite grid_indices_triangles, flatten_length.
    rewrite Nat2Z.inj_mul, sphere_triangle_count by lia. simpl Z.of_nat. lia.
  - unfold mesh_indices; rewrite grid_indices_triangles.
    apply triangles_app_flatten.
  - reflexivity.
  - apply Forall_forall. intros x Hx.
    apply sphere_indices_bound; auto; lia.
Qed.

Lemma generateSphere_index_spec_witness :
  exists vertices indices,
    sphere 1 72 36 = Some (vertices, indices) /\
    Z.of_nat (length indices) = 15120%Z.
Proof.
  destruct (generateSphere_index_spec 1 72 36)
    as (vertices & indices & Hrun & Hl & _);
    [lra | lia | lia | unfold fits_int, INT_MAX; lia |].
  exists vertices, indices. split; [exact Hrun | exact Hl].
Defined.

(** C2 as stated fails at sectors = stacks = 65535, where the vertex
    count is 2^32: in row i = 32767 of the index loop k1 = 32767 * 65536 and
    [k2 = k1 + sectors + 1] is 2^31, which overflows [int]; no index buffer
    is produced. *)
Lemma generateSphere_indices_overflow :
  (forall indices, index_row_body 65535 65535 32767 indices = None) /\
  sphere 1 65535 65535 = None.
Proof.
  split; [reflexivity|].
  unfold sphere. apply generateSphere_undefined; try lia.
  unfold fits_int, INT_MAX. lia.
Qed.




(** ** Winding *)

Lemma face_normal_corner_b a b c :
  dot (cross (vsub b a) (vsub c a)) b = dot (cross (vsub b a) (vsub c a)) a.
Proof. unfold dot, cross, vsub. cbn [vx vy vz]. ring. Qed.

Lemma face_normal_corner_c a b c :
  dot (cross (vsub b a) (vsub c a)) c = dot (cross (vsub b a) (vsub c a)) a.
Proof. unfold dot, cross, vsub. cbn [vx vy vz]. ring. Qed.

Lemma dot_vscale_r a b k : dot a (vscale b k) = dot a b * k.
Proof. unfold dot, vscale. cbn [vx vy vz]. ring. Qed.

(** The triple product of the upper triangle (k1, k2, k1+1) of a cell. *)
Lemma upper_triangle_det r c1 s1 c2 s2 ct st ct' st' :
  dot (cross (vsub (mkvec3 (r * c2 * ct) (r * c2 * st) (r * s2))
                   (mkvec3 (r * c1 * ct) (r * c1 * st) (r * s1)))
             (vsub (mkvec3 (r * c1 * ct') (r * c1 * st') (r * s1))
                   (mkvec3 (r * c1 * ct) (r * c1 * st) (r * s1))))
      (mkvec3 (r * c1 * ct) (r * c1 * st) (r * s1))
  = r * r * r * (c1 * ((st' * ct - ct' * st) * (s1 * c2 - c1 * s2))).
Proof. unfold dot, cross, vsub. cbn [vx vy vz]. ring. Qed.

(** The triple product of the lower triangle (k1+1, k2, k2+1) of a cell. *)
Lemma lower_triangle_det r c1 s1 c2 s2 ct st ct' st' :
  dot (cross (vsub (mkvec3 (r * c2 * ct) (r * c2 * st) (r * s2))
                   (mkvec3 (r * c1 * ct') (r * c1 * st') (r * s1)))
             (vsub (mkvec3 (r * c2 * ct') (r * c2 * st') (r * s2))
                   (mkvec3 (r * c1 * ct') (r * c1 * st') (r * s1))))
      (mkvec3 (r * c1 * ct') (r * c1 * st') (r * s1))
  = r * r * r * (c2 * ((st' * ct - ct' * st) * (s1 * c2 - c1 * s2))).
Proof. unfold dot, cross, vsub. cbn [vx vy vz]. ring. Qed.

Lemma div_pos_lt a b : 0 < a -> 0 < b -> 0 < a / b.
Proof. intros. apply Rdiv_lt_0_compat; assumption. Qed.

Lemma div_lt_bound a b c : 0 < b -> a < c * b -> a / b < c.
Proof.
  intros Hb H. apply (Rmult_lt_reg_r b); [assumption|].
  unfold Rdiv. rewrite Rmult_assoc, Rinv_l, Rmult_1_r by lra. assumption.
Qed.

(** Consecutive sectors are less than half a turn apart. *)
Lemma sector_step_sin sectors j :
  (3 <= sectors)%Z ->
  0 < sin (IZR (j + 1) * (2 * PI / IZR sectors))
      * cos (IZR j * (2 * PI / IZR sectors))
      - cos (IZR (j + 1) * (2 * PI / IZR sectors))
        * sin (IZR j * (2 * PI / IZR sectors)).
Proof.
  intros Hs. rewrite <- sin_minus.
  replace (_ - _) with (2 * PI / IZR sectors)
    by (rewrite plus_IZR; ring).
  assert (3 <= IZR sectors) by (apply IZR_le; assumption).
  pose proof PI_RGT_0.
  apply sin_gt_0.
  - apply div_pos_lt; lra.
  - apply div_lt_bound; nra.
Qed.

(** Consecutive stacks are [PI / stacks] apart. *)
Lemma stack_step_sin stacks i :
  (2 <= stacks)%Z ->
  0 < sin (PI / 2 - IZR i * (PI / IZR stacks))
      * cos (PI / 2 - IZR (i + 1) * (PI / IZR stacks))
      - cos (PI / 2 - IZR i * (PI / IZR stacks))
        * sin (PI / 2 - IZR (i + 1) * (PI / IZR stacks)).
Proof.
  intros Ht. rewrite <- sin_minus.
  replace (_ - _) with (PI / IZR stacks)
    by (rewrite plus_IZR; ring).
  assert (2 <= IZR stacks) by (apply IZR_le; assumption).
  pose proof PI_RGT_0.
  apply sin_gt_0.
  - apply div_pos_lt; lra.
  - apply div_lt_bound; nra.
Qed.

(** Strictly between the poles the ring radius is positive. *)
Lemma stack_cos_pos stacks i :
  (0 < i < stacks)%Z -> 0 < cos (PI / 2 - IZR i * (PI / IZR stacks)).
Proof.
  intros Hi.
  assert (1 <= IZR i) by (apply IZR_le; lia).
  assert (IZR i + 1 <= IZR stacks)
    by (rewrite <- plus_IZR; apply IZR_le; lia).
  pose proof PI_RGT_0.
  assert (Hq : 0 < IZR i * (PI / IZR stacks) < PI).
  { replace (IZR i * (PI / IZR stacks)) with (IZR i * PI / IZR stacks)
      by (unfold Rdiv; ring).
    split; [apply div_pos_lt; nra | apply div_lt_bound; nra]. }
  apply cos_gt_0; lra.
Qed.

Lemma sphere_triangles sectors stacks :
  triangles (mesh_indices sectors stacks)
  = grid (Z.to_nat stacks) (Z.to_nat sectors) (cell_triangles sectors stacks).
Proof.
  unfold mesh_indices; rewrite grid_indices_triangles.
  apply triangles_app_flatten.
Qed.

(** The three dot products of a face normal with the corner normals are
    one and the same triple product, scaled by 1/r. *)
Lemma winding_upper r sectors stacks i j :
  0 < r -> (3 <= sectors)%Z -> (3 <= stacks)%Z ->
  (0 < i < stacks)%Z -> (0 <= j < sectors)%Z ->
  let vertices := mesh_vertices r sectors stacks in
  let pa := vertex_pos vertices (Z.to_nat (i * (sectors + 1) + j)) in
  let pb := vertex_pos vertices (Z.to_nat ((i + 1) * (sectors + 1) + j)) in
  let pc := vertex_pos vertices (Z.to_nat (i * (sectors + 1) + (j + 1))) in
  0 < dot (cross (vsub pb pa) (vsub pc pa)) pa.
Proof.
  intros Hr Hs Ht Hi Hj vertices pa pb pc. subst pa pb pc vertices.
  rewrite !sphere_vertex_pos by lia.
  rewrite upper_triangle_det.
  pose proof (sector_step_sin sectors j Hs).
  pose proof (stack_step_sin stacks i ltac:(lia)).
  pose proof (stack_cos_pos stacks i Hi).
  repeat apply Rmult_lt_0_compat; lra.
Qed.

Lemma winding_lower r sectors stacks i j :
  0 < r -> (3 <= sectors)%Z -> (3 <= stacks)%Z ->
  (0 <= i < stacks - 1)%Z -> (0 <= j < sectors)%Z ->
  let vertices := mesh_vertices r sectors stacks in
  let pa := vertex_pos vertices (Z.to_nat (i * (sectors + 1) + (j + 1))) in
  let pb := vertex_pos vertices (Z.to_nat ((i + 1) * (sectors + 1) + j)) in
  let pc := vertex_pos vertices
              (Z.to_nat ((i + 1) * (sectors + 1) + (j + 1))) in
  0 < dot (cross (vsub pb pa) (vsub pc pa)) pa.
Proof.
  intros Hr Hs Ht Hi Hj vertices pa pb pc. subst pa pb pc vertices.
  rewrite !sphere_vertex_pos by lia.
  rewrite lower_triangle_det.
  pose proof (sector_step_sin sectors j Hs).
  pose proof (stack_step_sin stacks i ltac:(lia)).
  pose proof (stack_cos_pos stacks (i + 1) ltac:(lia)).
  repeat apply Rmult_lt_0_compat; lra.
Qed.

Lemma outward_of_det r pa pb pc na nb nc :
  0 < r ->
  na = vscale pa (1 / r) -> nb = vscale pb (1 / r) -> nc = vscale pc (1 / r) ->
  0 < dot (cross (vsub pb pa) (vsub pc pa)) pa ->
  0 < dot (cross (vsub pb pa) (vsub pc pa)) na /\
  0 < dot (cross (vsub pb pa) (vsub pc pa)) nb /\
  0 < dot (cross (vsub pb pa) (vsub pc pa)) nc.
Proof.
  intros Hr -> -> -> Hdet.
  rewrite !dot_vscale_r, face_normal_corner_b, face_normal_corner_c.
  assert (0 < 1 / r) by (apply div_pos_lt; lra).
  repeat split; apply Rmult_lt_0_compat; assumption.
Qed.

(** Every triangle of the closed-form mesh is outward. *)
Lemma mesh_winding (r : R) (sectors stacks : Z) :
  0 < r -> (3 <= sectors)%Z -> (3 <= stacks)%Z ->
  let vertices := mesh_vertices r sectors stacks in
  let indices := mesh_indices sectors stacks in
  Forall (outward vertices) (triangles indices).
Proof.
  intros Hr Hs Ht vertices indices. subst vertices indices.
  rewrite sphere_triangles. apply Forall_forall. intros t Hin.
  apply grid_In in Hin. destruct Hin as (i & j & Hi & Hj & Hin).
  rewrite Z2Nat.id in Hi, Hj by lia.
  unfold cell_triangles in Hin. cbv zeta in Hin.
  apply in_app_or in Hin.
  destruct Hin as [Hin | Hin].
  - destruct (Z.eqb_spec i 0) as [|Hi0]; [destruct Hin|].
    destruct Hin as [<- | []].
    unfold outward, face_normal.
    replace (i * (sectors + 1) + j + sectors + 1)%Z
      with ((i + 1) * (sectors + 1) + j)%Z by ring.
    replace (i * (sectors + 1) + j + 1)%Z
      with (i * (sectors + 1) + (j + 1))%Z by ring.
    apply (outward_of_det r); auto.
    + apply sphere_vertex_normal; lia.
    + apply sphere_vertex_normal; lia.
    + apply sphere_vertex_normal; lia.
    + apply winding_upper; auto; lia.
  - destruct (Z.eqb_spec i (stacks - 1)) as [|Hi1]; [destruct Hin|].
    destruct Hin as [<- | []].
    unfold outward, face_normal.
    replace (i * (sectors + 1) + j + sectors + 1 + 1)%Z
      with ((i + 1) * (sectors + 1) + (j + 1))%Z by ring.
    replace (i * (sectors + 1) + j + sectors + 1)%Z
      with ((i + 1) * (sectors + 1) + j)%Z by ring.
    replace (i * (sectors + 1) + j + 1)%Z
      with (i * (sectors + 1) + (j + 1))%Z by ring.
    apply (outward_of_det r); auto.
    + apply sphere_vertex_normal; lia.
    + apply sphere_vertex_normal; lia.
    + apply sphere_vertex_normal; lia.
    + apply winding_lower; auto; lia.
Qed.

(** C5.  For r > 0, sectors >= 3, stacks >= 3, every triangle of the index
    buffer that [generateSphere] builds on empty vectors winds
    counter-clockwise seen from outside: the cross product of its two edges
    from the first corner has a positive dot product with the vertex normal
    at each of its three corners.  (Where an [int] operation overflows the
    call is undefined and emits no buffer; where the index of the last
    vertex fits an [int] it emits 2*sectors*(stacks-1) triangles.) *)
Theorem generateSphere_winding (r : R) (sectors stacks : Z) :
  0 < r -> (3 <= sectors)%Z -> (3 <= stacks)%Z ->
  (forall vertices indices,
     sphere r sectors stacks = Some (vertices, indices) ->
     Forall (outward vertices) (triangles indices)) /\
  (fits_int sectors stacks ->
   exists vertices indices,
     sphere r sectors stacks = Some (vertices, indices) /\
     Z.of_nat (length (triangles indices)) = (2 * sectors * (stacks - 1))%Z).
Proof.
  intros Hr Hs Ht. split.
  - intros vertices indices Hrun. unfold sphere in Hrun.
    apply generateSphere_some in Hrun; try lia.
    destruct Hrun as (_ & -> & ->). cbn [app].
    apply mesh_winding; assumption.
  - intros Hfit.
    exists (mesh_vertices r sectors stacks), (mesh_indices sectors stacks).
    split.
    + unfold sphere. rewrite generateSphere_defined by (auto; lia).
      reflexivity.
    + rewrite sphere_triangles, sphere_triangle_count by lia. lia.
Qed.

Lemma generateSphere_winding_witness :
  exists vertices indices,
    sphere 1 72 36 = Some (vertices, indices) /\
    Z.of_nat (length (triangles indices)) = 5040%Z /\
    Forall (outward vertices) (triangles indices).
Proof.
  destruct (generateSphere_winding 1 72 36) as (Hall & Hex);
    [lra | lia | lia |].
  destruct Hex as (vertices & indices & Hrun & Hlen);
    [unfold fits_int, INT_MAX; lia|].
  exists vertices, indices. split; [exact Hrun|]. split; [exact Hlen|].
  apply Hall. exact Hrun.
Defined.

(** ** Input processing and the parameter ranges *)

Lemma clamp_below_above lo hi x :
  lo <= hi -> lo <= clamp_above hi (clamp_below lo x) <= hi.
Proof.
  intros H. unfold clamp_above, clamp_below.
  destruct (Rlt_dec x lo); destruct (Rgt_dec _ hi); lra.
Qed.

Lemma clamp_above_below lo hi x :
  lo <= hi -> lo <= clamp_below lo (clamp_above hi x) <= hi.
Proof.
  intros H. unfold clamp_above, clamp_below.
  destruct (Rgt_dec x hi); destruct (Rlt_dec _ lo); lra.
Qed.

Lemma clamp_below_id lo x : lo <= x -> clamp_below lo x = x.
Proof. intros. unfold clamp_below. destruct (Rlt_dec x lo); lra. Qed.

Lemma clamp_above_id hi x : x <= hi -> clamp_above hi x = x.
Proof. intros. unfold clamp_above. destruct (Rgt_dec x hi); lra. Qed.

Lemma clamp_above_pin hi x : hi <= x -> clamp_above hi x = hi.
Proof. intros. unfold clamp_above. destruct (Rgt_dec x hi); lra. Qed.

Lemma clamp_below_pin lo x : x <= lo -> clamp_below lo x = lo.
Proof. intros. unfold clamp_below. destruct (Rlt_dec x lo); lra. Qed.

(** Case analysis on every boolean a state transformer branches on. *)
Ltac case_flags :=
  repeat match goal with
         | |- context [if ?b then _ else _] =>
             lazymatch b with
             | Rlt_dec _ _ => fail
             | Rgt_dec _ _ => fail
             | _ => destruct b eqn:?
             end
         end.

Lemma toggle_manual_params k c :
  planeSpeed (toggle_manual k c) = planeSpeed c /\
  planeAltitude (toggle_manual k c) = planeAltitude c /\
  planeAngle (toggle_manual k c) = planeAngle c /\
  cameraAngleY (toggle_manual k c) = cameraAngleY c /\
  cameraDistance (toggle_manual k c) = cameraDistance c.
Proof. unfold toggle_manual. case_flags; cbn; auto. Qed.

Lemma mode_controls_manual minAltitude k c :
  manualControl c = true ->
  planeSpeed (mode_controls minAltitude k c) = planeSpeed c /\
  planeAltitude (mode_controls minAltitude k c) = planeAltitude c /\
  manualControl (mode_controls minAltitude k c) = true.
Proof.
  intros Hm. unfold mode_controls. rewrite Hm. cbn [negb].
  case_flags; cbn; auto.
Qed.

Lemma mode_controls_other minAltitude k c :
  planeAngle (mode_controls minAltitude k c) = planeAngle c /\
  cameraAngleY (mode_controls minAltitude k c) = cameraAngleY c /\
  cameraDistance (mode_controls minAltitude k c) = cameraDistance c /\
  manualControl (mode_controls minAltitude k c) = manualControl c.
Proof. unfold mode_controls. case_flags; cbn; auto. Qed.

Lemma mode_controls_plane minAltitude k c :
  manualControl c = false ->
  planeSpeed (mode_controls minAltitude k c)
  = clamp_above 2 (clamp_below 0
      ((if key_up k then planeSpeed c + 0.01 else planeSpeed c)
       - (if key_down k then 0.01 else 0))) /\
  planeAltitude (mode_controls minAltitude k c)
  = clamp_above 2 (clamp_below minAltitude
      ((if key_left k then planeAltitude c - 0.01 else planeAltitude c)
       + (if key_right k then 0.01 else 0))).
Proof.
  intros Hm. unfold mode_controls. rewrite Hm. cbn [negb].
  destruct (key_up k), (key_down k), (key_left k), (key_right k); cbn;
    split; f_equal; f_equal; lra.
Qed.

Lemma mode_controls_in_range minAltitude k c :
  minAltitude <= 2 ->
  in_range minAltitude c -> in_range minAltitude (mode_controls minAltitude k c).
Proof.
  intros Hmin (Hs & Ha & Hp & Hd).
  destruct (mode_controls_other minAltitude k c) as (_ & Ep & Ed & _).
  unfold in_range. rewrite Ep, Ed.
  destruct (manualControl c) eqn:Hm.
  - destruct (mode_controls_manual minAltitude k c Hm) as (Es & Ea & _).
    rewrite Es, Ea. auto.
  - destruct (mode_controls_plane minAltitude k c Hm) as (Es & Ea).
    rewrite Es, Ea.
    repeat split; try apply clamp_below_above; lra.
Qed.

Lemma toggle_manual_in_range minAltitude k c :
  in_range minAltitude c -> in_range minAltitude (toggle_manual k c).
Proof.
  destruct (toggle_manual_params k c) as (Es & Ea & _ & Ep & Ed).
  unfold in_range. now rewrite Es, Ea, Ep, Ed.
Qed.

Lemma set_windowShouldClose_in_range minAltitude b c :
  in_range minAltitude c -> in_range minAltitude (set_windowShouldClose b c).
Proof. auto. Qed.

Lemma processInput_in_range k c :
  in_range 1.05 c -> in_range 1.05 (processInput k c).
Proof.
  intros H. unfold processInput.
  apply mode_controls_in_range; [lra|]. apply toggle_manual_in_range.
  destruct (key_escape k); auto.
Qed.

Lemma camera_processInput_in_range k c :
  in_range 1.08 c -> in_range 1.08 (camera_processInput k c).
Proof.
  intros H. unfold camera_processInput, processKeyboard.
  apply mode_controls_in_range; [lra|]. apply toggle_manual_in_range.
  destruct (key_escape k); auto.
Qed.

Lemma mouse_callback_params xpos ypos c :
  planeSpeed (mouse_callback xpos ypos c) = planeSpeed c /\
  planeAltitude (mouse_callback xpos ypos c) = planeAltitude c /\
  planeAngle (mouse_callback xpos ypos c) = planeAngle c /\
  cameraDistance (mouse_callback xpos ypos c) = cameraDistance c /\
  manualControl (mouse_callback xpos ypos c) = manualControl c.
Proof. unfold mouse_callback. case_flags; cbn; auto. Qed.

(** The pitch written by a drag that is not ignored. *)
Lemma mouse_callback_pitch xpos ypos c :
  mousePressed c = true -> manualControl c = true ->
  cameraAngleY (mouse_callback xpos ypos c)
  = clamp_below (-1.5) (clamp_above 1.5
      (cameraAngleY c
       + (if firstMouse c then ypos - ypos else lastY c - ypos) * 0.01)).
Proof.
  intros Hp Hm. unfold mouse_callback. rewrite Hp, Hm. cbn [negb orb].
  destruct (firstMouse c); cbn; reflexivity.
Qed.

Lemma mouse_callback_ignored xpos ypos c :
  mousePressed c = false \/ manualControl c = false ->
  mouse_callback xpos ypos c = c.
Proof.
  intros [H | H]; unfold mouse_callback; rewrite H; cbn;
    [reflexivity | now rewrite orb_true_r].
Qed.

Lemma mouse_callback_in_range minAltitude xpos ypos c :
  in_range minAltitude c -> in_range minAltitude (mouse_callback xpos ypos c).
Proof.
  intros (Hs & Ha & Hp & Hd).
  destruct (mousePressed c) eqn:Hmp;
    [destruct (manualControl c) eqn:Hm|];
    try (rewrite mouse_callback_ignored by auto; repeat split; tauto).
  destruct (mouse_callback_params xpos ypos c) as (Es & Ea & _ & Ed & _).
  unfold in_range. rewrite Es, Ea, Ed, mouse_callback_pitch by auto.
  repeat split; try tauto; apply clamp_above_below; lra.
Qed.

Lemma mouse_button_callback_params button action c :
  planeSpeed (mouse_button_callback button action c) = planeSpeed c /\
  planeAltitude (mouse_button_callback button action c) = planeAltitude c /\
  planeAngle (mouse_button_callback button action c) = planeAngle c /\
  cameraAngleY (mouse_button_callback button action c) = cameraAngleY c /\
  cameraDistance (mouse_button_callback button action c) = cameraDistance c /\
  manualControl (mouse_button_callback button action c) = manualControl c.
Proof. unfold mouse_button_callback. case_flags; cbn; auto 10. Qed.

Lemma scroll_callback_params yoffset c :
  planeSpeed (scroll_callback yoffset c) = planeSpeed c /\
  planeAltitude (scroll_callback yoffset c) = planeAltitude c /\
  planeAngle (scroll_callback yoffset c) = planeAngle c /\
  cameraAngleY (scroll_callback yoffset c) = cameraAngleY c /\
  manualControl (scroll_callback yoffset c) = manualControl c /\
  cameraDistance (scroll_callback yoffset c)
  = clamp_above 10 (clamp_below 1.5 (cameraDistance c - yoffset * 0.1)).
Proof. unfold scroll_callback. cbn. auto 10. Qed.

Lemma getViewMatrix_params deltaTime c :
  planeSpeed (fst (getViewMatrix deltaTime c)) = planeSpeed c /\
  planeAltitude (fst (getViewMatrix deltaTime c)) = planeAltitude c /\
  cameraAngleY (fst (getViewMatrix deltaTime c)) = cameraAngleY c /\
  cameraDistance (fst (getViewMatrix deltaTime c)) = cameraDistance c /\
  manualControl (fst (getViewMatrix deltaTime c)) = manualControl c.
Proof. unfold getViewMatrix. case_flags; cbn; auto 10. Qed.

Lemma render_frame_state input k deltaTime c :
  fst (render_frame input k deltaTime c)
  = fst (getViewMatrix deltaTime (input k c)).
Proof.
  unfold render_frame. destruct (getViewMatrix deltaTime (input k c)).
  reflexivity.
Qed.

Lemma step_in_range minAltitude input e c :
  (forall k c, in_range minAltitude c -> in_range minAltitude (input k c)) ->
  in_range minAltitude c -> in_range minAltitude (step input e c).
Proof.
  intros Hin H. destruct e as [k dt | x y | b a | xo yo]; cbn [step].
  - rewrite render_frame_state.
    destruct (getViewMatrix_params dt (input k c)) as (Es & Ea & Ep & Ed & _).
    unfold in_range. rewrite Es, Ea, Ep, Ed. now apply Hin.
  - now apply mouse_callback_in_range.
  - destruct (mouse_button_callback_params b a c) as (Es & Ea & _ & Ep & Ed & _).
    unfold in_range. now rewrite Es, Ea, Ep, Ed.
  - destruct H as (Hs & Ha & Hp & Hd).
    destruct (scroll_callback_params yo c) as (Es & Ea & _ & Ep & _ & Ed).
    unfold in_range. rewrite Es, Ea, Ep, Ed.
    repeat split; try tauto; apply clamp_below_above; lra.
Qed.

Lemma run_in_range minAltitude input evs :
  (forall k c, in_range minAltitude c -> in_range minAltitude (input k c)) ->
  forall c, in_range minAltitude c -> in_range minAltitude (run input evs c).
Proof.
  intros Hin. unfold run.
  induction evs as [|e evs IH]; intros c H; cbn [fold_left]; [assumption|].
  apply IH. now apply step_in_range.
Qed.

Lemma main_init_in_range : in_range 1.05 main_init.
Proof. unfold in_range, main_init. cbn. lra. Qed.

Lemma Camera_new_in_range w h : in_range 1.08 (Camera_new w h).
Proof. unfold in_range, Camera_new. cbn. lra. Qed.

Lemma processInput_plane k c :
  key_space k = false -> manualControl c = false ->
  manualControl (processInput k c) = false /\
  planeSpeed (processInput k c)
  = clamp_above 2 (clamp_below 0
      ((if key_up k then planeSpeed c + 0.01 else planeSpeed c)
       - (if key_down k then 0.01 else 0))) /\
  planeAltitude (processInput k c)
  = clamp_above 2 (clamp_below 1.05
      ((if key_left k then planeAltitude c - 0.01 else planeAltitude c)
       + (if key_right k then 0.01 else 0))).
Proof.
  intros Hsp Hm. unfold processInput.
  set (c0 := if key_escape k then set_windowShouldClose true c else c).
  assert (Hm0 : manualControl (toggle_manual k c0) = false).
  { unfold toggle_manual. rewrite Hsp. subst c0.
    destruct (key_escape k); exact Hm. }
  destruct (mode_controls_other 1.05 k (toggle_manual k c0))
    as (_ & _ & _ & ->).
  destruct (mode_controls_plane 1.05 k _ Hm0) as (-> & ->).
  destruct (toggle_manual_params k c0) as (-> & -> & _).
  subst c0. destruct (key_escape k); auto.
Qed.

(** Holding a key over [n] frames of plane view. *)
Lemma frames_held_pinned k deltaTime n :
  key_space k = false ->
  forall c, manualControl c = false ->
  let c' := Nat.iter n (step processInput (Frame k deltaTime)) c in
  manualControl c' = false /\
  (planeSpeed c = 2 -> key_up k = true -> key_down k = false ->
   planeSpeed c' = 2) /\
  (planeAltitude c = 2 -> key_right k = true -> key_left k = false ->
   planeAltitude c' = 2).
Proof.
  intros Hsp. induction n as [|n IH]; intros c Hm c'; subst c'.
  - cbn. auto.
  - rewrite Nat.iter_succ.
    pose proof (IH c Hm) as IH'. cbv zeta in IH'.
    destruct IH' as (IHm & IHs & IHa).
    set (cn := Nat.iter n (step processInput (Frame k deltaTime)) c) in *.
    cbn [step]. rewrite render_frame_state.
    destruct (getViewMatrix_params deltaTime (processInput k cn))
      as (-> & -> & _ & _ & ->).
    destruct (processInput_plane k cn Hsp IHm) as (-> & -> & ->).
    split; [reflexivity|].
    split; intros H0 H1 H2; rewrite H1, H2.
    + rewrite (IHs H0 H1 H2), clamp_below_id, clamp_above_pin by lra.
      reflexivity.
    + rewrite (IHa H0 H1 H2), clamp_below_id, clamp_above_pin by lra.
      reflexivity.
Qed.

(** C6.  Along every run from the initial state each adjustable parameter
    lies in its configured range (speed in [0, 2], altitude in [min, 2]
    with min = 1.05 in main.cpp and 1.08 in camera.h, pitch in [-1.5, 1.5],
    distance in [1.5, 10]), the pitch bound 1.5 is strictly below pi/2, and
    a parameter that sits at a bound stays there under a further event
    pushing in the same direction, also when the key is held for any
    number of frames.  Every event is accepted: [step] is a total function
    on states. *)
Theorem parameters_clamped :
  (forall evs, in_range 1.05 (main_run evs main_init)) /\
  (forall evs w h, in_range 1.08 (camera_run evs (Camera_new w h))) /\
  (forall minAltitude input e c,
     (input = processInput /\ minAltitude = 1.05) \/
     (input = camera_processInput /\ minAltitude = 1.08) ->
     in_range minAltitude c -> in_range minAltitude (step input e c)) /\
  1.5 < PI / 2 /\
  (forall k c, manualControl (toggle_manual k c) = false ->
     (planeSpeed c = 2 -> key_up k = true -> key_down k = false ->
      planeSpeed (processInput k c) = 2) /\
     (planeSpeed c = 0 -> key_down k = true -> key_up k = false ->
      planeSpeed (processInput k c) = 0) /\
     (planeAltitude c = 2 -> key_right k = true -> key_left k = false ->
      planeAltitude (processInput k c) = 2) /\
     (planeAltitude c = 1.05 -> key_left k = true -> key_right k = false ->
      planeAltitude (processInput k c) = 1.05)) /\
  (forall xpos ypos c, mousePressed c = true -> manualControl c = true ->
     (cameraAngleY c = 1.5 -> ypos <= lastY c ->
      cameraAngleY (mouse_callback xpos ypos c) = 1.5) /\
     (cameraAngleY c = -1.5 -> lastY c <= ypos ->
      cameraAngleY (mouse_callback xpos ypos c) = -1.5)) /\
  (forall yoffset c,
     (cameraDistance c = 10 -> yoffset <= 0 ->
      cameraDistance (scroll_callback yoffset c) = 10) /\
     (cameraDistance c = 1.5 -> 0 <= yoffset ->
      cameraDistance (scroll_callback yoffset c) = 1.5)) /\
  (forall k deltaTime n c,
     key_space k = false -> manualControl c = false ->
     let c' := Nat.iter n (step processInput (Frame k deltaTime)) c in
     (planeSpeed c = 2 -> key_up k = true -> key_down k = false ->
      planeSpeed c' = 2) /\
     (planeAltitude c = 2 -> key_right k = true -> key_left k = false ->
      planeAltitude c' = 2)).
Proof.
  split; [|split; [|split; [|split; [|split; [|split; [|split]]]]]].
  - intros evs. apply run_in_range;
      [intros; now apply processInput_in_range | apply main_init_in_range].
  - intros evs w h. apply run_in_range;
      [intros; now apply camera_processInput_in_range
      | apply Camera_new_in_range].
  - intros minAltitude input e c [[-> ->] | [-> ->]] H;
      apply step_in_range; auto; intros.
    + now apply processInput_in_range.
    + now apply camera_processInput_in_range.
  - generalize PI2_3_2. lra.
  - intros k c Hm. unfold processInput.
    destruct (mode_controls_plane 1.05 k
                (toggle_manual k
                   (if key_escape k then set_windowShouldClose true c else c)))
      as (Es & Ea).
    { rewrite <- Hm. unfold toggle_manual.
      destruct (key_escape k), (key_space k); cbn; try reflexivity;
        destruct (spacePressed c); reflexivity. }
    rewrite Es, Ea.
    destruct (toggle_manual_params k
                (if key_escape k then set_windowShouldClose true c else c))
      as (-> & -> & _).
    replace (planeSpeed (if key_escape k then set_windowShouldClose true c
                         else c)) with (planeSpeed c)
      by (destruct (key_escape k); reflexivity).
    replace (planeAltitude (if key_escape k then set_windowShouldClose true c
                            else c)) with (planeAltitude c)
      by (destruct (key_escape k); reflexivity).
    repeat split; intros -> -> ->.
    + rewrite clamp_below_id, clamp_above_pin by lra. reflexivity.
    + rewrite clamp_below_pin, clamp_above_id by lra. reflexivity.
    + rewrite clamp_below_id, clamp_above_pin by lra. reflexivity.
    + rewrite clamp_below_pin, clamp_above_id by lra. reflexivity.
  - intros xpos ypos c Hp Hm. rewrite mouse_callback_pitch by auto.
    split; intros -> Hy.
    + rewrite clamp_above_pin, clamp_below_id; try lra.
      destruct (firstMouse c); lra.
    + assert (-1.5 + (if firstMouse c then ypos - ypos else lastY c - ypos)
                     * 0.01 <= -1.5) by (destruct (firstMouse c); lra).
      rewrite clamp_above_id, clamp_below_pin by lra. reflexivity.
  - intros yoffset c.
    destruct (scroll_callback_params yoffset c) as (_ & _ & _ & _ & _ & ->).
    split; intros -> Hy.
    + rewrite clamp_below_id, clamp_above_pin by lra. reflexivity.
    + rewrite clamp_below_pin, clamp_above_id by lra. reflexivity.
  - intros k deltaTime n c Hsp Hm.
    destruct (frames_held_pinned k deltaTime n Hsp c Hm) as (_ & Hs & Ha).
    split; assumption.
Qed.

Lemma parameters_clamped_witness :
  in_range 1.05
    (main_run [Frame right_key 0.016; Scroll 0 (-100); MouseMove 3 4]
       main_init) /\
  planeAltitude (processInput right_key (set_planeAltitude 2 main_init)) = 2 /\
  cameraDistance (scroll_callback (-1) (set_cameraDistance 10 main_init)) = 10 /\
  planeAltitude
    (Nat.iter 100 (step processInput (Frame right_key 0.016))
       (set_planeAltitude 2 main_init)) = 2.
Proof.
  destruct parameters_clamped as (H1 & _ & _ & _ & H5 & _ & H7 & H8).
  split; [apply H1|]. split; [|split].
  - apply (H5 right_key (set_planeAltitude 2 main_init)); reflexivity.
  - apply (H7 (-1) (set_cameraDistance 10 main_init)); [reflexivity | lra].
  - apply (H8 right_key 0.016 100%nat (set_planeAltitude 2 main_init));
      reflexivity.
Defined.

(** ** The orbit angle *)

Lemma getViewMatrix_plane_angle deltaTime c :
  manualControl c = false ->
  planeAngle (fst (getViewMatrix deltaTime c))
  = planeAngle c + planeSpeed c * deltaTime.
Proof. intros Hm. unfold getViewMatrix. rewrite Hm. reflexivity. Qed.

Lemma getViewMatrix_manual deltaTime c :
  manualControl c = true -> fst (getViewMatrix deltaTime c) = c.
Proof. intros Hm. unfold getViewMatrix. rewrite Hm. reflexivity. Qed.

Lemma processInput_angle k c : planeAngle (processInput k c) = planeAngle c.
Proof.
  unfold processInput.
  destruct (mode_controls_other 1.05 k
              (toggle_manual k
                 (if key_escape k then set_windowShouldClose true c else c)))
    as (-> & _).
  destruct (toggle_manual_params k
              (if key_escape k then set_windowShouldClose true c else c))
    as (_ & _ & -> & _).
  destruct (key_escape k); reflexivity.
Qed.

Lemma camera_processInput_angle k c :
  planeAngle (camera_processInput k c) = planeAngle c.
Proof.
  unfold camera_processInput, processKeyboard.
  destruct (mode_controls_other 1.08 k
              (toggle_manual k
                 (if key_escape k then set_windowShouldClose true c else c)))
    as (-> & _).
  destruct (toggle_manual_params k
              (if key_escape k then set_windowShouldClose true c else c))
    as (_ & _ & -> & _).
  destruct (key_escape k); reflexivity.
Qed.

Lemma queries_plane dts :
  forall c, manualControl c = false ->
  planeAngle (queries dts c)
  = planeAngle c + planeSpeed c * fold_right Rplus 0 dts /\
  planeSpeed (queries dts c) = planeSpeed c /\
  planeAltitude (queries dts c) = planeAltitude c /\
  manualControl (queries dts c) = false.
Proof.
  induction dts as [|dt dts IH]; intros c Hm; cbn [queries fold_right].
  - repeat split; auto. ring.
  - destruct (getViewMatrix_params dt c) as (Es & Ea & _ & _ & Em).
    destruct (IH (fst (getViewMatrix dt c))) as (IA & IS & IAl & IM);
      [congruence|].
    rewrite IA, IS, IAl, IM, Es, Ea, getViewMatrix_plane_angle by auto.
    repeat split; auto. ring.
Qed.

(** C7.  In plane-view (automatic) mode a view query with elapsed time dt
    sets angle' = angle + speed * dt; within a frame the speed is the one
    left by that frame's input; no other operation writes the angle (input
    processing, the mouse, button and scroll callbacks, and the view query
    in manual mode all leave it unchanged); and the angle is neither
    wrapped nor clamped: after the queries dt_1 ... dt_n it is
    angle + speed * (dt_1 + ... + dt_n). *)
Theorem orbit_angle_transition :
  (forall deltaTime c, manualControl c = false ->
     planeAngle (fst (getViewMatrix deltaTime c))
     = planeAngle c + planeSpeed c * deltaTime) /\
  (forall k deltaTime c, manualControl (processInput k c) = false ->
     planeAngle (fst (main_frame k deltaTime c))
     = planeAngle c + planeSpeed (processInput k c) * deltaTime) /\
  (forall k deltaTime c, manualControl (camera_processInput k c) = false ->
     planeAngle (fst (camera_frame k deltaTime c))
     = planeAngle c + planeSpeed (camera_processInput k c) * deltaTime) /\
  (forall deltaTime c, manualControl c = true ->
     planeAngle (fst (getViewMatrix deltaTime c)) = planeAngle c) /\
  (forall k c, planeAngle (processInput k c) = planeAngle c) /\
  (forall k c, planeAngle (camera_processInput k c) = planeAngle c) /\
  (forall xpos ypos c, planeAngle (mouse_callback xpos ypos c) = planeAngle c) /\
  (forall button action c,
     planeAngle (mouse_button_callback button action c) = planeAngle c) /\
  (forall yoffset c, planeAngle (scroll_callback yoffset c) = planeAngle c) /\
  (forall dts c, manualControl c = false ->
     planeAngle (queries dts c)
     = planeAngle c + planeSpeed c * fold_right Rplus 0 dts).
Proof.
  repeat match goal with |- _ /\ _ => split end.
  - apply getViewMatrix_plane_angle.
  - intros k dt c Hm. unfold main_frame.
    now rewrite render_frame_state, getViewMatrix_plane_angle, processInput_angle.
  - intros k dt c Hm. unfold camera_frame.
    now rewrite render_frame_state, getViewMatrix_plane_angle,
      camera_processInput_angle.
  - intros dt c Hm. now rewrite getViewMatrix_manual.
  - apply processInput_angle.
  - apply camera_processInput_angle.
  - intros x y c. now destruct (mouse_callback_params x y c) as (_ & _ & -> & _).
  - intros b a c.
    now destruct (mouse_button_callback_params b a c) as (_ & _ & -> & _).
  - intros y c. now destruct (scroll_callback_params y c) as (_ & _ & -> & _).
  - intros dts c Hm. now destruct (queries_plane dts c Hm) as (-> & _).
Qed.

Lemma orbit_angle_transition_witness :
  planeAngle (fst (getViewMatrix 2 main_init)) = 0 + 0.3 * 2 /\
  planeAngle (queries [1; 2; 3] main_init) = 0 + 0.3 * (1 + (2 + (3 + 0))).
Proof.
  destruct orbit_angle_transition as (H1 & H).
  do 8 destruct H as (_ & H).
  split.
  - apply (H1 2 main_init). reflexivity.
  - apply (H [1; 2; 3] main_init). reflexivity.
Defined.

(** ** Manual mode leaves the orbit alone *)

Lemma queries_manual dts :
  forall c, manualControl c = true -> queries dts c = c.
Proof.
  induction dts as [|dt dts IH]; intros c Hm; cbn [queries]; [reflexivity|].
  rewrite getViewMatrix_manual by assumption. now apply IH.
Qed.

Lemma controls_manual_orbit minAltitude k c :
  manualControl (mode_controls minAltitude k (toggle_manual k c)) = true ->
  planeAngle (mode_controls minAltitude k (toggle_manual k c)) = planeAngle c /\
  planeSpeed (mode_controls minAltitude k (toggle_manual k c)) = planeSpeed c /\
  planeAltitude (mode_controls minAltitude k (toggle_manual k c))
  = planeAltitude c.
Proof.
  intros Hm.
  destruct (mode_controls_other minAltitude k (toggle_manual k c))
    as (Ea & _ & _ & Em).
  rewrite Em in Hm.
  destruct (mode_controls_manual minAltitude k (toggle_manual k c) Hm)
    as (Es & Eal & _).
  destruct (toggle_manual_params k c) as (Ts & Tal & Ta & _).
  rewrite Ea, Es, Eal, Ts, Tal, Ta. auto.
Qed.

Lemma input_manual_orbit input k c :
  is_input input ->
  manualControl (input k c) = true ->
  planeAngle (input k c) = planeAngle c /\
  planeSpeed (input k c) = planeSpeed c /\
  planeAltitude (input k c) = planeAltitude c.
Proof.
  intros [-> | ->] Hm.
  - unfold processInput in *.
    destruct (controls_manual_orbit 1.05 k _ Hm) as (-> & -> & ->).
    destruct (key_escape k); auto.
  - unfold camera_processInput, processKeyboard in *.
    destruct (controls_manual_orbit 1.08 k _ Hm) as (-> & -> & ->).
    destruct (key_escape k); auto.
Qed.

Lemma step_manual_orbit input e c :
  is_input input ->
  match e with
  | Frame k _ => manualControl (input k c) = true
  | _ => True
  end ->
  planeAngle (step input e c) = planeAngle c /\
  planeSpeed (step input e c) = planeSpeed c /\
  planeAltitude (step input e c) = planeAltitude c.
Proof.
  intros Hin He. destruct e as [k dt | x y | b a | xo yo]; cbn [step].
  - rewrite render_frame_state, getViewMatrix_manual by assumption.
    now apply input_manual_orbit.
  - destruct (mouse_callback_params x y c) as (-> & -> & -> & _). auto.
  - destruct (mouse_button_callback_params b a c) as (-> & -> & -> & _). auto.
  - destruct (scroll_callback_params yo c) as (-> & -> & -> & _). auto.
Qed.

Lemma run_manual_orbit input evs :
  is_input input ->
  forall c, frames_manual input evs c ->
  planeAngle (run input evs c) = planeAngle c /\
  planeSpeed (run input evs c) = planeSpeed c /\
  planeAltitude (run input evs c) = planeAltitude c.
Proof.
  intros Hin. unfold run.
  induction evs as [|e evs IH]; intros c Hf; cbn [fold_left]; [auto|].
  destruct Hf as [He Hf].
  destruct (step_manual_orbit input e c Hin He) as (Ea & Es & Eal).
  destruct (IH _ Hf) as (-> & -> & ->). auto.
Qed.

(** C9.  In manual mode the view query returns the state it was given;
    so any number of queries, and any run of events all of whose frames
    are spent in manual mode, leave the orbit angle, speed and altitude as
    they were, and the first plane-view query after such a run advances the
    angle from exactly the value at which it was left. *)
Theorem manual_mode_preserves_orbit :
  (forall deltaTime c, manualControl c = true ->
     fst (getViewMatrix deltaTime c) = c) /\
  (forall dts c, manualControl c = true -> queries dts c = c) /\
  (forall input evs c, is_input input -> frames_manual input evs c ->
     planeAngle (run input evs c) = planeAngle c /\
     planeSpeed (run input evs c) = planeSpeed c /\
     planeAltitude (run input evs c) = planeAltitude c) /\
  (forall input evs c k deltaTime,
     is_input input -> frames_manual input evs c ->
     manualControl (input k (run input evs c)) = false ->
     planeAngle (fst (render_frame input k deltaTime (run input evs c)))
     = planeAngle c + planeSpeed (input k (run input evs c)) * deltaTime).
Proof.
  split; [|split; [|split]].
  - apply getViewMatrix_manual.
  - intros dts c. apply queries_manual.
  - intros input evs c Hin. now apply run_manual_orbit.
  - intros input evs c k dt Hin Hf Hm.
    rewrite render_frame_state, getViewMatrix_plane_angle by assumption.
    destruct (run_manual_orbit input evs Hin c Hf) as (Ea & _).
    f_equal. rewrite <- Ea.
    destruct Hin as [-> | ->];
      [apply processInput_angle | apply camera_processInput_angle].
Qed.

Lemma manual_mode_preserves_orbit_witness :
  let c := set_manualControl true (set_planeAngle 5 main_init) in
  planeAngle
    (main_run [Frame no_keys 1; Scroll 0 1; Frame no_keys 2] c) = 5 /\
  planeAngle (fst (main_frame space_key 2 (main_run [Frame no_keys 1] c)))
  = 5 + planeSpeed (processInput space_key (main_run [Frame no_keys 1] c)) * 2.
Proof.
  destruct manual_mode_preserves_orbit as (_ & _ & H3 & H4).
  intros c. split.
  - apply (H3 processInput); [left; reflexivity|].
    cbn. repeat split; reflexivity.
  - apply (H4 processInput [Frame no_keys 1] c space_key 2);
      [left; reflexivity | cbn; repeat split; reflexivity | reflexivity].
Defined.

(** ** The view position and the eye *)

Lemma getViewPosition_eye deltaTime c :
  getViewPosition (fst (getViewMatrix deltaTime c))
  = view_eye (snd (getViewMatrix deltaTime c)).
Proof.
  unfold getViewMatrix, getViewPosition.
  destruct (manualControl c) eqn:Hm; cbn [negb fst snd view_eye].
  - rewrite Hm. reflexivity.
  - cbn [manualControl set_planeAngle]. rewrite Hm. reflexivity.
Qed.

Lemma render_frame_eye input k deltaTime c :
  fo_viewPosition (snd (render_frame input k deltaTime c))
  = view_eye (fo_view (snd (render_frame input k deltaTime c))).
Proof.
  unfold render_frame.
  pose proof (getViewPosition_eye deltaTime (input k c)) as H.
  destruct (getViewMatrix deltaTime (input k c)) as [c' view].
  exact H.
Qed.

(** C10.  In both modes the view position handed to the shaders equals the
    eye of the [lookAt] call that built the same frame's view matrix: for
    [Camera::getViewPosition] called after [Camera::getViewMatrix], and for
    the inline computations of the render loop, both evaluated on the state
    whose angle has already been advanced. *)
Theorem view_position_is_eye :
  (forall deltaTime c,
     getViewPosition (fst (getViewMatrix deltaTime c))
     = view_eye (snd (getViewMatrix deltaTime c))) /\
  (forall k deltaTime c,
     fo_viewPosition (snd (main_frame k deltaTime c))
     = view_eye (fo_view (snd (main_frame k deltaTime c)))) /\
  (forall k deltaTime c,
     fo_viewPosition (snd (camera_frame k deltaTime c))
     = view_eye (fo_view (snd (camera_frame k deltaTime c)))).
Proof.
  split; [|split].
  - apply getViewPosition_eye.
  - intros. apply render_frame_eye.
  - intros. apply render_frame_eye.
Qed.

(** ** Vectors *)

Lemma dot_vscale a k : dot (vscale a k) (vscale a k) = dot a a * (k * k).
Proof. unfold dot, vscale. cbn [vx vy vz]. ring. Qed.

Lemma dot_normalize a : 0 < dot a a -> dot (normalize a) (normalize a) = 1.
Proof.
  intros H. unfold normalize. rewrite dot_vscale.
  assert (Hs : 0 < sqrt (dot a a)) by now apply sqrt_lt_R0.
  rewrite <- (sqrt_sqrt (dot a a)) at 1 by lra.
  field. lra.
Qed.

Lemma vlength_normalize a : 0 < dot a a -> vlength (normalize a) = 1.
Proof. intros H. unfold vlength. rewrite dot_normalize, sqrt_1; auto. Qed.

Lemma dot_scaled_unit a k :
  0 < dot a a -> dot (vscale (normalize a) k) (vscale (normalize a) k) = k * k.
Proof. intros H. rewrite dot_vscale, dot_normalize by assumption. ring. Qed.

Lemma vlength_scaled_unit a k :
  0 < dot a a -> 0 <= k -> vlength (vscale (normalize a) k) = k.
Proof.
  intros H Hk. unfold vlength. rewrite dot_scaled_unit by assumption.
  now apply sqrt_square.
Qed.

(** The raw orbit vector (a cos t, 0.4 sin 2t, a sin t) is never zero. *)
Lemma raw_orbit_dot a t :
  dot (mkvec3 (a * cos t) (sin (t * 2) * 0.4) (a * sin t))
      (mkvec3 (a * cos t) (sin (t * 2) * 0.4) (a * sin t))
  = a * a + 0.16 * (sin (t * 2) * sin (t * 2)).
Proof.
  unfold dot. cbn [vx vy vz].
  transitivity (a * a * (sin t * sin t + cos t * cos t)
                + 0.16 * (sin (t * 2) * sin (t * 2))); [lra|].
  rewrite sin2_cos2'. ring.
Qed.

Lemma raw_orbit_dot_pos a t :
  0 < a ->
  0 < dot (mkvec3 (a * cos t) (sin (t * 2) * 0.4) (a * sin t))
          (mkvec3 (a * cos t) (sin (t * 2) * 0.4) (a * sin t)).
Proof.
  intros Ha. rewrite raw_orbit_dot.
  pose proof (Rle_0_sqr (sin (t * 2))) as Hs. unfold Rsqr in Hs. nra.
Qed.

Lemma plane_view_pos_length c :
  0 < planeAltitude c ->
  vlength (pv_planePos (plane_view c)) = planeAltitude c.
Proof.
  intros Ha. unfold plane_view. cbn [pv_planePos].
  apply vlength_scaled_unit; [now apply raw_orbit_dot_pos | lra].
Qed.

Lemma getViewMatrix_plane_eye deltaTime c :
  manualControl c = false ->
  view_eye (snd (getViewMatrix deltaTime c))
  = pv_planePos (plane_view (fst (getViewMatrix deltaTime c))).
Proof. intros Hm. unfold getViewMatrix. rewrite Hm. reflexivity. Qed.

Lemma eyes_length dts : forall c, length (eyes dts c) = length dts.
Proof. induction dts as [|dt dts IH]; intros c; cbn; auto. Qed.

Lemma eyes_plane_length dts :
  forall c, manualControl c = false -> 0 < planeAltitude c ->
  Forall (fun eye => vlength eye = planeAltitude c) (eyes dts c).
Proof.
  induction dts as [|dt dts IH]; intros c Hm Ha; cbn [eyes]; constructor.
  - rewrite getViewMatrix_plane_eye by assumption.
    rewrite plane_view_pos_length;
      destruct (getViewMatrix_params dt c) as (_ & -> & _); auto.
  - destruct (getViewMatrix_params dt c) as (_ & Ea & _ & _ & Em).
    rewrite <- Ea. apply IH; congruence.
Qed.

(** C4.  In plane-view mode, for every altitude a in [1.05, 2] and every
    angle the position (a cos t, 0.4 sin 2t, a sin t), normalised and scaled
    by a, has length a; hence for every sequence of elapsed times the eye of
    each successive view query has length a, and in every frame of every
    run from the initial state the view position has the length of the
    current altitude. *)
Theorem orbit_position_magnitude :
  (forall c, 1.05 <= planeAltitude c <= 2 ->
     vlength (pv_planePos (plane_view c)) = planeAltitude c) /\
  (forall dts c, manualControl c = false -> 1.05 <= planeAltitude c <= 2 ->
     length (eyes dts c) = length dts /\
     Forall (fun eye => vlength eye = planeAltitude c) (eyes dts c)) /\
  (forall evs k deltaTime,
     let c := main_run evs main_init in
     manualControl (processInput k c) = false ->
     vlength (fo_viewPosition (snd (main_frame k deltaTime c)))
     = planeAltitude (fst (main_frame k deltaTime c))).
Proof.
  split; [|split].
  - intros c Ha. apply plane_view_pos_length. lra.
  - intros dts c Hm Ha. split; [apply eyes_length|].
    apply eyes_plane_length; [assumption | lra].
  - intros evs k dt c Hm. unfold main_frame.
    rewrite render_frame_eye.
    assert (Hr : in_range 1.05 (processInput k c)).
    { apply processInput_in_range. unfold c, main_run.
      apply run_in_range;
        [intros; now apply processInput_in_range | apply main_init_in_range]. }
    destruct Hr as (_ & Ha & _).
    rewrite render_frame_state. unfold render_frame.
    pose proof (getViewMatrix_plane_eye dt (processInput k c) Hm) as He.
    destruct (getViewMatrix_params dt (processInput k c)) as (_ & Ea & _).
    destruct (getViewMatrix dt (processInput k c)) as [c' view].
    cbn [fst snd fo_view] in *. rewrite He.
    apply plane_view_pos_length. lra.
Qed.

Lemma orbit_position_magnitude_witness :
  vlength (pv_planePos (plane_view main_init)) = 1.05 /\
  Forall (fun eye => vlength eye = 1.05) (eyes [0.016; 0.016; 0.02] main_init).
Proof.
  destruct orbit_position_magnitude as (H1 & H2 & _).
  split.
  - apply (H1 main_init). cbn. lra.
  - apply (H2 [0.016; 0.016; 0.02] main_init); [reflexivity | cbn; lra].
Defined.

(** ** The plane-view frame (forward, up, right) *)

Lemma cross_orth_l a b : dot a (cross a b) = 0.
Proof. unfold dot, cross. cbn [vx vy vz]. ring. Qed.

Lemma cross_orth_r a b : dot b (cross a b) = 0.
Proof. unfold dot, cross. cbn [vx vy vz]. ring. Qed.

Lemma dot_comm a b : dot a b = dot b a.
Proof. unfold dot. ring. Qed.

(** Lagrange's identity. *)
Lemma cross_dot a b :
  dot (cross a b) (cross a b) = dot a a * dot b b - dot a b * dot a b.
Proof. unfold dot, cross. cbn [vx vy vz]. ring. Qed.

Lemma dot_vsub_self n p :
  dot (vsub n p) (vsub n p) = dot n n - 2 * dot n p + dot p p.
Proof. unfold dot, vsub. cbn [vx vy vz]. ring. Qed.

Lemma dot_vsub_l n p q : dot (vsub n p) q = dot n q - dot p q.
Proof. unfold dot, vsub. cbn [vx vy vz]. ring. Qed.

Lemma dot_vscale_both a b k l :
  dot (vscale a k) (vscale b l) = dot a b * (k * l).
Proof. unfold dot, vscale. cbn [vx vy vz]. ring. Qed.

Lemma cos_step_lt_1 : cos 0.01 < 1.
Proof.
  replace 0.01 with (2 * 0.005) by lra. rewrite cos_2a_sin.
  assert (0 < sin 0.005).
  { apply sin_gt_0; [lra|]. generalize PI2_3_2. lra. }
  nra.
Qed.

(** Two directions of the orbit path one angular step apart differ: the
    squared distance between the scaled points is positive already in the
    horizontal (x, z) components. *)
Lemma chord_horizontal a u v ct st ct' st' :
  st * st + ct * ct = 1 -> st' * st' + ct' * ct' = 1 ->
  (a * ct' * u * a - a * ct * v * a) * (a * ct' * u * a - a * ct * v * a)
  + (a * st' * u * a - a * st * v * a) * (a * st' * u * a - a * st * v * a)
  = a * a * a * a * ((u - v) * (u - v)
                     + 2 * (u * v) * (1 - (ct' * ct + st' * st))).
Proof.
  intros H H'.
  transitivity
    (a * a * a * a * (u * u * (st' * st' + ct' * ct')
                      + v * v * (st * st + ct * ct)
                      - 2 * (u * v) * (ct' * ct + st' * st))); [ring|].
  rewrite H, H'. ring.
Qed.

Lemma orbit_chord_pos a t :
  0 < a ->
  let raw := mkvec3 (a * cos t) (sin (t * 2) * 0.4) (a * sin t) in
  let raw' := mkvec3 (a * cos (t + 0.01)) (sin ((t + 0.01) * 2) * 0.4)
                     (a * sin (t + 0.01)) in
  let planePos := vscale (normalize raw) a in
  let nextPos := vscale (normalize raw') a in
  0 < dot (vsub nextPos planePos) (vsub nextPos planePos).
Proof.
  intros Ha raw raw' planePos nextPos.
  pose proof (raw_orbit_dot_pos a t Ha) as Hq. fold raw in Hq.
  pose proof (raw_orbit_dot_pos a (t + 0.01) Ha) as Hq'. fold raw' in Hq'.
  apply sqrt_lt_R0 in Hq, Hq'.
  assert (Hv : 0 < 1 / sqrt (dot raw raw)) by (apply div_pos_lt; lra).
  assert (Hu : 0 < 1 / sqrt (dot raw' raw')) by (apply div_pos_lt; lra).
  subst planePos nextPos. unfold normalize.
  set (v := 1 / sqrt (dot raw raw)) in *.
  set (u := 1 / sqrt (dot raw' raw')) in *.
  unfold dot at 1. unfold vsub, vscale, raw, raw'. cbn [vx vy vz].
  pose proof (chord_horizontal a u v (cos t) (sin t)
                (cos (t + 0.01)) (sin (t + 0.01))
                (sin2_cos2' t) (sin2_cos2' (t + 0.01))) as Hh.
  rewrite <- cos_minus in Hh.
  replace (t + 0.01 - t) with 0.01 in Hh by ring.
  pose proof cos_step_lt_1 as Hc.
  assert (0 < a * a * a * a) by (repeat apply Rmult_lt_0_compat; assumption).
  assert (0 < u * v) by (apply Rmult_lt_0_compat; assumption).
  assert (0 < (u - v) * (u - v) + 2 * (u * v) * (1 - cos 0.01)).
  { pose proof (Rle_0_sqr (u - v)) as Hsq. unfold Rsqr in Hsq.
    assert (0 < 2 * (u * v) * (1 - cos 0.01))
      by (apply Rmult_lt_0_compat; lra).
    lra. }
  assert (0 < a * a * a * a * ((u - v) * (u - v)
                               + 2 * (u * v) * (1 - cos 0.01)))
    by (apply Rmult_lt_0_compat; assumption).
  rewrite <- Hh in *.
  match goal with
  | |- 0 < ?x * ?x + ?y * ?y + ?z * ?z =>
      pose proof (Rle_0_sqr y) as Hy; unfold Rsqr in Hy
  end.
  lra.
Qed.

Lemma dot_self_nonneg a : 0 <= dot a a.
Proof.
  unfold dot.
  pose proof (Rle_0_sqr (vx a)); pose proof (Rle_0_sqr (vy a));
    pose proof (Rle_0_sqr (vz a)).
  unfold Rsqr in *. lra.
Qed.

Lemma inv_sqrt_sqr q : 0 < q -> (1 / sqrt q) * (1 / sqrt q) = 1 / q.
Proof.
  intros Hq. assert (0 < sqrt q) by now apply sqrt_lt_R0.
  rewrite <- (sqrt_sqrt q) at 3 by lra. field. lra.
Qed.

(** The frame built from two distinct points [P], [N] of the sphere of
    radius [a]: forward along the chord, up estimate along [P]. *)
Lemma chord_frame a P N :
  0 < a -> dot P P = a * a -> dot N N = a * a ->
  0 < dot (vsub N P) (vsub N P) ->
  let forward := normalize (vsub N P) in
  let right := cross forward (normalize P) in
  let up := cross right forward in
  dot forward up = 0 /\ dot forward right = 0 /\ dot up right = 0 /\
  dot forward forward = 1 /\
  dot right right = 1 - dot (vsub N P) (vsub N P) / (4 * (a * a)) /\
  dot up up = dot right right.
Proof.
  intros Ha HP HN Hd forward right up.
  assert (Hf : dot forward forward = 1) by now apply dot_normalize.
  assert (Hu : dot (normalize P) (normalize P) = 1)
    by (apply dot_normalize; nra).
  assert (Hfr : dot forward right = 0) by apply cross_orth_l.
  split; [apply cross_orth_r|]. split; [assumption|].
  split; [unfold up; rewrite dot_comm; apply cross_orth_l|].
  split; [assumption|].
  assert (Hr : dot right right
               = 1 - dot (vsub N P) (vsub N P) / (4 * (a * a))).
  { unfold right. rewrite cross_dot, Hf, Hu.
    unfold forward, normalize. rewrite dot_vscale_both, dot_vsub_l.
    pose proof (dot_vsub_self N P) as Hdd. rewrite HN, HP in Hdd.
    rewrite HP. set (dd := dot (vsub N P) (vsub N P)) in *.
    replace (dot N P) with (a * a - dd / 2) by lra.
    pose proof (inv_sqrt_sqr dd Hd) as Hk.
    pose proof (inv_sqrt_sqr (a * a) ltac:(nra)) as Hl.
    set (k := 1 / sqrt dd) in *. set (l := 1 / sqrt (a * a)) in *.
    transitivity (1 - dd * dd / 4 * (k * k) * (l * l)); [field|].
    rewrite Hk, Hl. field. split; lra. }
  split; [assumption|].
  unfold up. rewrite cross_dot, Hf, (dot_comm right forward), Hfr. ring.
Qed.

(** The local variables of the plane view, for any positive altitude. *)
Lemma plane_view_frame c :
  0 < planeAltitude c ->
  let pv := plane_view c in
  let chord := vsub (pv_nextPos pv) (pv_planePos pv) in
  0 < dot chord chord /\
  dot (pv_forward pv) (pv_up pv) = 0 /\
  dot (pv_forward pv) (pv_right pv) = 0 /\
  dot (pv_up pv) (pv_right pv) = 0 /\
  dot (pv_forward pv) (pv_forward pv) = 1 /\
  dot (pv_right pv) (pv_right pv)
  = 1 - dot chord chord / (4 * (planeAltitude c * planeAltitude c)) /\
  dot (pv_up pv) (pv_up pv) = dot (pv_right pv) (pv_right pv).
Proof.
  intros Ha pv chord.
  pose proof (orbit_chord_pos (planeAltitude c) (planeAngle c) Ha) as Hd.
  cbv zeta in Hd.
  split; [exact Hd|].
  apply (chord_frame (planeAltitude c)); auto.
  - apply dot_scaled_unit. now apply raw_orbit_dot_pos.
  - apply dot_scaled_unit. now apply raw_orbit_dot_pos.
Qed.

Lemma plane_view_right_short c :
  0 < planeAltitude c ->
  vlength (pv_right (plane_view c)) < 1 /\
  vlength (pv_up (plane_view c)) = vlength (pv_right (plane_view c)).
Proof.
  intros Ha.
  destruct (plane_view_frame c Ha) as (Hd & _ & _ & _ & _ & Hr & Hu).
  unfold vlength. rewrite Hu. split; [|reflexivity].
  rewrite <- sqrt_1. apply sqrt_lt_1; [apply dot_self_nonneg | lra |].
  rewrite Hr.
  assert (0 < dot (vsub (pv_nextPos (plane_view c)) (pv_planePos (plane_view c)))
                  (vsub (pv_nextPos (plane_view c)) (pv_planePos (plane_view c)))
              / (4 * (planeAltitude c * planeAltitude c)))
    by (apply div_pos_lt; nra).
  lra.
Qed.

(** *** How far from unit length *)

Lemma sin_small_lower : 0.0049 <= sin 0.005.
Proof.
  destruct (sin_bound 0.005 0) as [H _]; [lra | generalize PI2_3_2; lra |].
  unfold sin_approx, sin_term in H. simpl in H. lra.
Qed.

Lemma cos_step_upper : cos 0.01 <= 1 - 0.000048.
Proof.
  replace 0.01 with (2 * 0.005) by lra. rewrite cos_2a_sin.
  pose proof sin_small_lower. nra.
Qed.

Lemma inv_sqrt_lower q B : 0 < q -> q <= B -> 1 / sqrt B <= 1 / sqrt q.
Proof.
  intros Hq HB. unfold Rdiv. rewrite !Rmult_1_l.
  apply Rinv_le_contravar; [now apply sqrt_lt_R0|].
  apply sqrt_le_1; lra.
Qed.

Lemma raw_orbit_dot_upper a t :
  dot (mkvec3 (a * cos t) (sin (t * 2) * 0.4) (a * sin t))
      (mkvec3 (a * cos t) (sin (t * 2) * 0.4) (a * sin t))
  <= a * a + 0.16.
Proof.
  rewrite raw_orbit_dot. pose proof (SIN_bound (t * 2)). nra.
Qed.

(** One angular step of 0.01 moves the plane by a chord whose squared
    length is at least 0.00008 a^2. *)
Lemma orbit_chord_lower a t :
  1.05 <= a ->
  let raw := mkvec3 (a * cos t) (sin (t * 2) * 0.4) (a * sin t) in
  let raw' := mkvec3 (a * cos (t + 0.01)) (sin ((t + 0.01) * 2) * 0.4)
                     (a * sin (t + 0.01)) in
  let planePos := vscale (normalize raw) a in
  let nextPos := vscale (normalize raw') a in
  0.00008 * (a * a) <= dot (vsub nextPos planePos) (vsub nextPos planePos).
Proof.
  intros Ha raw raw' planePos nextPos.
  assert (Ha0 : 0 < a) by lra.
  pose proof (raw_orbit_dot_pos a t Ha0) as Hq. fold raw in Hq.
  pose proof (raw_orbit_dot_pos a (t + 0.01) Ha0) as Hq'. fold raw' in Hq'.
  pose proof (raw_orbit_dot_upper a t) as HB. fold raw in HB.
  pose proof (raw_orbit_dot_upper a (t + 0.01)) as HB'. fold raw' in HB'.
  pose proof (inv_sqrt_lower _ _ Hq HB) as Hv.
  pose proof (inv_sqrt_lower _ _ Hq' HB') as Hu.
  assert (HBpos : 0 < a * a + 0.16) by nra.
  pose proof (inv_sqrt_sqr _ HBpos) as Hw.
  assert (Hw0 : 0 < 1 / sqrt (a * a + 0.16))
    by (apply div_pos_lt; [lra | now apply sqrt_lt_R0]).
  subst planePos nextPos. unfold normalize.
  set (v := 1 / sqrt (dot raw raw)) in *.
  set (u := 1 / sqrt (dot raw' raw')) in *.
  set (w := 1 / sqrt (a * a + 0.16)) in *.
  unfold dot at 1. unfold vsub, vscale, raw, raw'. cbn [vx vy vz].
  pose proof (chord_horizontal a u v (cos t) (sin t)
                (cos (t + 0.01)) (sin (t + 0.01))
                (sin2_cos2' t) (sin2_cos2' (t + 0.01))) as Hh.
  rewrite <- cos_minus in Hh.
  replace (t + 0.01 - t) with 0.01 in Hh by ring.
  pose proof cos_step_upper as Hc.
  set (k := cos 0.01) in *.
  assert (Huv : w * w <= u * v) by (apply Rmult_le_compat; lra).
  rewrite Hw in Huv.
  assert (Hinv : (a * a + 0.16) * (1 / (a * a + 0.16)) = 1) by (field; lra).
  set (ib := 1 / (a * a + 0.16)) in *.
  assert (Hib : 0 < ib) by (apply div_pos_lt; lra).
  assert (H1 : 0.00004 <= a * a * ib * 0.000048).
  { replace 0.00004 with (0.00004 * ((a * a + 0.16) * ib)) by (rewrite Hinv; ring).
    assert (0.00004 * (a * a + 0.16) <= a * a * 0.000048) by nra.
    replace (a * a * ib * 0.000048) with (a * a * 0.000048 * ib) by ring.
    rewrite <- Rmult_assoc. apply Rmult_le_compat_r; lra. }
  assert (H2 : a * a * ib * 0.000048 <= a * a * (u * v) * (1 - k)).
  { assert (0 <= a * a) by nra.
    apply Rmult_le_compat;
      [apply Rmult_le_pos; lra | lra | apply Rmult_le_compat_l; lra | lra]. }
  assert (H3 : 0.00008 * (a * a)
               <= a * a * a * a * (2 * (u * v) * (1 - k))) by nra.
  pose proof (Rle_0_sqr (u - v)) as Hsq. unfold Rsqr in Hsq.
  assert (H4 : 0 <= a * a * a * a * ((u - v) * (u - v)))
    by (apply Rmult_le_pos; [nra | lra]).
  assert (H5 : 0.00008 * (a * a)
               <= a * a * a * a * ((u - v) * (u - v)
                                   + 2 * (u * v) * (1 - k))) by lra.
  rewrite <- Hh in H5.
  match goal with
  | |- _ <= ?x * ?x + ?y * ?y + ?z * ?z =>
      pose proof (Rle_0_sqr y) as Hy; unfold Rsqr in Hy
  end.
  lra.
Qed.

Lemma plane_view_right_bound c :
  1.05 <= planeAltitude c ->
  vlength (pv_right (plane_view c)) <= 1 - 0.00001.
Proof.
  intros Ha.
  destruct (plane_view_frame c ltac:(lra)) as (_ & _ & _ & _ & _ & Hr & _).
  assert (Hd : 0.00008 * (planeAltitude c * planeAltitude c)
               <= dot (vsub (pv_nextPos (plane_view c))
                            (pv_planePos (plane_view c)))
                      (vsub (pv_nextPos (plane_view c))
                            (pv_planePos (plane_view c))))
    by exact (orbit_chord_lower (planeAltitude c) (planeAngle c) Ha).
  unfold vlength.
  rewrite <- (sqrt_square (1 - 0.00001)) by lra.
  apply sqrt_le_1; [apply dot_self_nonneg | lra |].
  rewrite Hr.
  set (dd := dot (vsub _ _) _) in *.
  assert (0.00002 <= dd / (4 * (planeAltitude c * planeAltitude c))).
  { apply (Rmult_le_reg_r (4 * (planeAltitude c * planeAltitude c))); [nra|].
    unfold Rdiv. rewrite Rmult_assoc, Rinv_l, Rmult_1_r by nra. lra. }
  lra.
Qed.

Lemma sin_step_bounds : 0 <= sin 0.01 <= 0.01.
Proof.
  split.
  - apply sin_ge_0; [lra | generalize PI2_3_2; lra].
  - left. apply sin_lt_x. lra.
Qed.

Lemma cos_step_lower : 1 - 0.00005 <= cos 0.01.
Proof.
  replace 0.01 with (2 * 0.005) by lra. rewrite cos_2a_sin.
  assert (0 <= sin 0.005) by (apply sin_ge_0; [lra | generalize PI2_3_2; lra]).
  assert (sin 0.005 < 0.005) by (apply sin_lt_x; lra).
  nra.
Qed.

Lemma sin_double_step t :
  (sin ((t + 0.01) * 2) - sin (t * 2)) * (sin ((t + 0.01) * 2) - sin (t * 2))
  <= 0.0004.
Proof.
  rewrite form4.
  replace (((t + 0.01) * 2 - t * 2) / 2) with 0.01 by field.
  pose proof sin_step_bounds as Hs.
  pose proof (COS_bound (((t + 0.01) * 2 + t * 2) / 2)) as Hc.
  set (k := cos _) in *. set (s := sin 0.01) in *.
  assert (k * k <= 1) by nra.
  assert (s * s <= 0.0001) by nra.
  assert (0 <= k * k) by nra. assert (0 <= s * s) by nra.
  replace (2 * k * s * (2 * k * s)) with (4 * ((k * k) * (s * s))) by ring.
  assert ((k * k) * (s * s) <= 1 * 0.0001) by (apply Rmult_le_compat; lra).
  lra.
Qed.

(** The cross product of two consecutive raw orbit vectors. *)
Lemma raw_orbit_cross_upper a t :
  0 < a ->
  let raw := mkvec3 (a * cos t) (sin (t * 2) * 0.4) (a * sin t) in
  let raw' := mkvec3 (a * cos (t + 0.01)) (sin ((t + 0.01) * 2) * 0.4)
                     (a * sin (t + 0.01)) in
  dot raw raw * dot raw' raw' - dot raw raw' * dot raw raw'
  <= a * a * a * a * 0.0001 + a * a * 0.00008.
Proof.
  intros Ha raw raw'. rewrite <- cross_dot.
  unfold dot, cross, raw, raw'. cbn [vx vy vz].
  set (c := cos t). set (z := sin t).
  set (c' := cos (t + 0.01)). set (z' := sin (t + 0.01)).
  set (s := sin (t * 2)). set (s' := sin ((t + 0.01) * 2)).
  assert (Hmid : z * c' - z' * c = - sin 0.01).
  { unfold z, z', c, c'.
    transitivity (sin (t - (t + 0.01))); [rewrite sin_minus; ring|].
    rewrite <- sin_neg. f_equal. lra. }
  assert (Hcc : c' * c + z' * z = cos 0.01).
  { unfold z, z', c, c'.
    transitivity (cos (t + 0.01 - t)); [rewrite cos_minus; ring|].
    f_equal. lra. }
  pose proof (sin2_cos2' t) as Hp. fold z c in Hp.
  pose proof (sin2_cos2' (t + 0.01)) as Hp'. fold z' c' in Hp'.
  pose proof (sin_double_step t) as Hss. fold s s' in Hss.
  pose proof sin_step_bounds as Hs1.
  pose proof cos_step_lower as Hc1. pose proof cos_step_lt_1 as Hc2.
  pose proof (SIN_bound (t * 2)) as Hb. fold s in Hb.
  pose proof (SIN_bound ((t + 0.01) * 2)) as Hb'. fold s' in Hb'.
  assert (Hout : (s * z' - s' * z) * (s * z' - s' * z)
                 + (c * s' - c' * s) * (c * s' - c' * s)
                 = (s' - s) * (s' - s) + 2 * (s * s') * (1 - cos 0.01)).
  { rewrite <- Hcc.
    transitivity (s * s * (z' * z' + c' * c') + s' * s' * (z * z + c * c)
                  - 2 * (s * s') * (c' * c + z' * z)); [ring|].
    rewrite Hp, Hp'. ring. }
  assert (Hss1 : s * s' <= 1) by nra.
  assert (Hout2 : 2 * (s * s') * (1 - cos 0.01) <= 0.0001).
  { assert (0 <= 1 - cos 0.01 <= 0.00005) by lra.
    set (e := 1 - cos 0.01) in *. nra. }
  assert (Hmid2 : sin 0.01 * sin 0.01 <= 0.0001) by nra.
  transitivity
    (a * a * a * a * ((z * c' - z' * c) * (z * c' - z' * c))
     + 0.16 * (a * a) * ((s * z' - s' * z) * (s * z' - s' * z)
                         + (c * s' - c' * s) * (c * s' - c' * s)));
    [right; lra|].
  rewrite Hmid, Hout.
  replace (- sin 0.01 * - sin 0.01) with (sin 0.01 * sin 0.01) by ring.
  assert (0 < a * a) by nra.
  assert (0 < a * a * a * a) by nra.
  assert (a * a * a * a * (sin 0.01 * sin 0.01) <= a * a * a * a * 0.0001)
    by (apply Rmult_le_compat_l; lra).
  assert ((s' - s) * (s' - s) + 2 * (s * s') * (1 - cos 0.01) <= 0.0005)
    by lra.
  assert (0.16 * (a * a) * ((s' - s) * (s' - s) + 2 * (s * s') * (1 - cos 0.01))
          <= 0.16 * (a * a) * 0.0005)
    by (apply Rmult_le_compat_l; lra).
  lra.
Qed.

Lemma raw_orbit_dot_lower a t :
  a * a
  <= dot (mkvec3 (a * cos t) (sin (t * 2) * 0.4) (a * sin t))
         (mkvec3 (a * cos t) (sin (t * 2) * 0.4) (a * sin t)).
Proof.
  rewrite raw_orbit_dot.
  pose proof (Rle_0_sqr (sin (t * 2))) as H. unfold Rsqr in H. lra.
Qed.

Lemma raw_orbit_dot_next a t :
  dot (mkvec3 (a * cos t) (sin (t * 2) * 0.4) (a * sin t))
      (mkvec3 (a * cos (t + 0.01)) (sin ((t + 0.01) * 2) * 0.4)
              (a * sin (t + 0.01)))
  = a * a * cos 0.01 + 0.16 * (sin (t * 2) * sin ((t + 0.01) * 2)).
Proof.
  unfold dot. cbn [vx vy vz].
  replace (cos 0.01) with (cos (t + 0.01 - t)) by (f_equal; lra).
  rewrite cos_minus. lra.
Qed.

Lemma inv_le_inv x y : 0 < x -> x <= y -> 1 / y <= 1 / x.
Proof.
  intros Hx Hxy. unfold Rdiv. rewrite !Rmult_1_l.
  now apply Rinv_le_contravar.
Qed.

(** The same chord has squared length at most 0.00036 a^2. *)
Lemma orbit_chord_upper a t :
  1.05 <= a ->
  let raw := mkvec3 (a * cos t) (sin (t * 2) * 0.4) (a * sin t) in
  let raw' := mkvec3 (a * cos (t + 0.01)) (sin ((t + 0.01) * 2) * 0.4)
                     (a * sin (t + 0.01)) in
  let planePos := vscale (normalize raw) a in
  let nextPos := vscale (normalize raw') a in
  dot (vsub nextPos planePos) (vsub nextPos planePos) <= 0.00036 * (a * a).
Proof.
  intros Ha raw raw' planePos nextPos.
  assert (Ha0 : 0 < a) by lra.
  assert (Haa : 1 <= a * a) by nra.
  pose proof (raw_orbit_dot_pos a t Ha0) as Hq. fold raw in Hq.
  pose proof (raw_orbit_dot_pos a (t + 0.01) Ha0) as Hq'. fold raw' in Hq'.
  pose proof (raw_orbit_dot_lower a t) as Hql. fold raw in Hql.
  pose proof (raw_orbit_dot_lower a (t + 0.01)) as Hql'. fold raw' in Hql'.
  pose proof (raw_orbit_cross_upper a t Ha0) as Hx. cbv zeta in Hx.
  fold raw raw' in Hx.
  pose proof (raw_orbit_dot_next a t) as Hm. fold raw raw' in Hm.
  pose proof (orbit_chord_pos a t Ha0) as Hdd. cbv zeta in Hdd.
  fold raw raw' in Hdd. fold planePos nextPos in Hdd.
  assert (HP : dot planePos planePos = a * a)
    by (apply dot_scaled_unit; assumption).
  assert (HN : dot nextPos nextPos = a * a)
    by (apply dot_scaled_unit; assumption).
  assert (HNP : dot nextPos planePos
                = dot raw raw'
                  * (1 / sqrt (dot raw raw) * (1 / sqrt (dot raw' raw')))
                  * (a * a)).
  { unfold nextPos, planePos, normalize.
    rewrite !dot_vscale_both, (dot_comm raw' raw). ring. }
  pose proof (inv_sqrt_sqr _ Hq) as Hv2.
  pose proof (inv_sqrt_sqr _ Hq') as Hu2.
  assert (Hv : 0 < 1 / sqrt (dot raw raw))
    by (apply div_pos_lt; [lra | now apply sqrt_lt_R0]).
  assert (Hu : 0 < 1 / sqrt (dot raw' raw'))
    by (apply div_pos_lt; [lra | now apply sqrt_lt_R0]).
  assert (Haa0 : 0 < a * a) by lra.
  pose proof (inv_le_inv _ _ Haa0 Hql) as Hiq.
  pose proof (inv_le_inv _ _ Haa0 Hql') as Hiq'.
  assert (Hia : 1 / (a * a) <= 1).
  { replace 1 with (1 / 1) at 2 by field. apply inv_le_inv; lra. }
  assert (Hia0 : 0 < 1 / (a * a)) by (apply div_pos_lt; lra).
  assert (Hiq0 : 0 < 1 / dot raw raw) by (apply div_pos_lt; lra).
  assert (Hiq0' : 0 < 1 / dot raw' raw') by (apply div_pos_lt; lra).
  assert (Hqiq : dot raw raw * (1 / dot raw raw) = 1) by (field; lra).
  assert (Hqiq' : dot raw' raw' * (1 / dot raw' raw') = 1) by (field; lra).
  assert (Haia : a * a * (1 / (a * a)) = 1) by (field; lra).
  rewrite dot_vsub_self, HN, HP, HNP.
  set (q := dot raw raw) in *. set (q' := dot raw' raw') in *.
  set (m := dot raw raw') in *.
  set (v := 1 / sqrt q) in *. set (u := 1 / sqrt q') in *.
  set (iq := 1 / q) in *. set (iq' := 1 / q') in *. set (ia := 1 / (a * a)) in *.
  set (g := m * (v * u)).
  pose proof (SIN_bound (t * 2)) as Hb.
  pose proof (SIN_bound ((t + 0.01) * 2)) as Hb'.
  pose proof cos_step_lower as Hc.
  assert (Hm0 : 0 <= m).
  { rewrite Hm. set (s := sin (t * 2)) in *.
    set (s' := sin ((t + 0.01) * 2)) in *.
    assert (-1 <= s * s') by nra.
    assert (a * a * (1 - 0.00005) <= a * a * cos 0.01)
      by (apply Rmult_le_compat_l; lra).
    lra. }
  assert (Hg0 : 0 <= g)
    by (unfold g; apply Rmult_le_pos; [lra|]; apply Rmult_le_pos; lra).
  assert (Hg1 : g <= 1).
  { rewrite dot_vsub_self, HN, HP, HNP in Hdd. fold g in Hdd.
    assert (0 < a * a * (1 - g)) by lra. nra. }
  assert (Hgg : g * g = m * m * (iq * iq')).
  { unfold g. rewrite <- Hv2, <- Hu2. ring. }
  assert (Hx0 : 0 <= q * q' - m * m).
  { unfold q, q', m. rewrite <- cross_dot. apply dot_self_nonneg. }
  assert (Hone : 1 - g * g = (q * q' - m * m) * (iq * iq')).
  { rewrite Hgg.
    transitivity ((q * iq) * (q' * iq') - m * m * (iq * iq')); [|ring].
    rewrite Hqiq, Hqiq'. ring. }
  assert (Hii : iq * iq' <= ia * ia) by (apply Rmult_le_compat; lra).
  assert (Hsmall : 1 - g * g <= 0.00018).
  { rewrite Hone.
    transitivity ((a * a * a * a * 0.0001 + a * a * 0.00008) * (ia * ia)).
    - apply Rmult_le_compat; try lra. apply Rmult_le_pos; lra.
    - replace ((a * a * a * a * 0.0001 + a * a * 0.00008) * (ia * ia))
        with ((a * a * ia) * (a * a * ia) * 0.0001
              + (a * a * ia) * ia * 0.00008) by ring.
      rewrite Haia. lra. }
  assert (Hlin : 1 - g <= 0.00018) by nra.
  fold g.
  assert (a * a * (1 - g) <= a * a * 0.00018)
    by (apply Rmult_le_compat_l; lra).
  lra.
Qed.

Lemma plane_view_right_lower c :
  1.05 <= planeAltitude c ->
  1 - 0.0001 <= vlength (pv_right (plane_view c)).
Proof.
  intros Ha.
  destruct (plane_view_frame c ltac:(lra)) as (Hpos & _ & _ & _ & _ & Hr & _).
  assert (Hd : dot (vsub (pv_nextPos (plane_view c))
                         (pv_planePos (plane_view c)))
                   (vsub (pv_nextPos (plane_view c))
                         (pv_planePos (plane_view c)))
               <= 0.00036 * (planeAltitude c * planeAltitude c))
    by exact (orbit_chord_upper (planeAltitude c) (planeAngle c) Ha).
  unfold vlength.
  rewrite <- (sqrt_square (1 - 0.0001)) by lra.
  apply sqrt_le_1; [lra | apply dot_self_nonneg |].
  rewrite Hr.
  set (dd := dot (vsub _ _) _) in *.
  assert (dd / (4 * (planeAltitude c * planeAltitude c)) <= 0.00009).
  { apply (Rmult_le_reg_r (4 * (planeAltitude c * planeAltitude c))); [nra|].
    unfold Rdiv. rewrite Rmult_assoc, Rinv_l, Rmult_1_r by nra. lra. }
  lra.
Qed.

(** C3, as the code has it.  For every altitude in [1.05, 2] and every
    angle, the vectors (forward, up, right) of the plane view are pairwise
    orthogonal and forward has unit length; right = forward x up and the
    recomputed up = right x forward are not normalised: they share the
    length sqrt (1 - |nextPos - planePos|^2 / (4 a^2)), which lies between
    1 - 0.0001 and 1 - 0.00001. *)
Theorem orbit_frame_orthogonal (c : Camera) :
  1.05 <= planeAltitude c <= 2 ->
  let pv := plane_view c in
  let chord := vsub (pv_nextPos pv) (pv_planePos pv) in
  orthogonal (pv_forward pv) (pv_up pv) /\
  orthogonal (pv_forward pv) (pv_right pv) /\
  orthogonal (pv_up pv) (pv_right pv) /\
  vlength (pv_forward pv) = 1 /\
  vlength (pv_up pv) = vlength (pv_right pv) /\
  vlength (pv_right pv)
  = sqrt (1 - dot chord chord / (4 * (planeAltitude c * planeAltitude c))) /\
  1 - 0.0001 <= vlength (pv_right pv) <= 1 - 0.00001.
Proof.
  intros Ha pv chord.
  destruct (plane_view_frame c ltac:(lra))
    as (_ & Hfu & Hfr & Hur & Hf & Hr & Hu).
  fold pv in Hfu, Hfr, Hur, Hf, Hr, Hu. fold chord in Hr.
  unfold orthogonal, vlength.
  repeat split; auto.
  - rewrite Hf. apply sqrt_1.
  - now rewrite Hu.
  - now rewrite Hr.
  - apply plane_view_right_lower. lra.
  - apply plane_view_right_bound. lra.
Qed.

Lemma orbit_frame_orthogonal_witness :
  let pv := plane_view main_init in
  orthogonal (pv_forward pv) (pv_up pv) /\
  1 - 0.0001 <= vlength (pv_right pv) <= 1 - 0.00001.
Proof.
  destruct (orbit_frame_orthogonal main_init) as (H1 & _ & _ & _ & _ & _ & H7);
    [cbn; lra|].
  split; assumption.
Defined.

(** C3 as stated fails in the very first frame: with the initial state and
    an elapsed time of 16 ms the computed (forward, up, right) is not an
    orthonormal frame, because right is shorter than 1. *)
Lemma orbit_frame_not_orthonormal :
  let c := fst (getViewMatrix 0.016 main_init) in
  let pv := plane_view c in
  manualControl main_init = false /\
  1.05 <= planeAltitude c <= 2 /\
  ~ orthonormal (pv_forward pv) (pv_up pv) (pv_right pv).
Proof.
  intros c pv. split; [reflexivity|]. split; [cbn; lra|].
  intros (_ & _ & _ & _ & _ & Hr).
  pose proof (plane_view_right_bound c ltac:(cbn; lra)) as Hb.
  fold pv in Hb. lra.
Qed.

(** * Further properties *)

(** ** generateSphere on vectors that are not empty, the seam and the poles *)

(** X1.  On positive counts that fit, [generateSphere] keeps what the two
    vectors already hold and appends to each exactly what it produces on
    empty vectors; in particular the appended indices are not shifted by
    the number of vertices already present. *)
Theorem generateSphere_appends (r : R) (sectors stacks : Z)
    (vertices : list R) (indices : list Z) :
  (1 <= sectors)%Z -> (1 <= stacks)%Z -> fits_int sectors stacks ->
  exists new_vertices new_indices,
    sphere r sectors stacks = Some (new_vertices, new_indices) /\
    generateSphere r sectors stacks vertices indices
    = Some (vertices ++ new_vertices, indices ++ new_indices).
Proof.
  intros Hs Ht Hfit.
  exists (mesh_vertices r sectors stacks), (mesh_indices sectors stacks).
  split.
  - unfold sphere. now rewrite generateSphere_defined.
  - now apply generateSphere_defined.
Qed.

Lemma generateSphere_appends_witness :
  exists new_vertices new_indices,
    sphere 1 72 36 = Some (new_vertices, new_indices) /\
    generateSphere 1 72 36 [0; 0; 0; 0; 0; 1] [7%Z]
    = Some ([0; 0; 0; 0; 0; 1] ++ new_vertices, [7%Z] ++ new_indices).
Proof.
  apply (generateSphere_appends 1 72 36); [lia | lia |].
  unfold fits_int, INT_MAX. lia.
Defined.

Lemma seam_angle sectors :
  (1 <= sectors)%Z -> IZR sectors * (2 * PI / IZR sectors) = 2 * PI.
Proof.
  intros H. field. apply not_0_IZR. lia.
Qed.

(** X2.  The seam is duplicated: in every row the vertex of sector
    [sectors] has the position and the normal of the vertex of sector 0. *)
Theorem generateSphere_seam (r : R) (sectors stacks : Z) (i : Z) :
  (1 <= sectors)%Z -> (1 <= stacks)%Z -> fits_int sectors stacks ->
  (0 <= i <= stacks)%Z ->
  exists vertices indices,
    sphere r sectors stacks = Some (vertices, indices) /\
    vertex_pos vertices (Z.to_nat (i * (sectors + 1) + sectors))
    = vertex_pos vertices (Z.to_nat (i * (sectors + 1))) /\
    vertex_normal vertices (Z.to_nat (i * (sectors + 1) + sectors))
    = vertex_normal vertices (Z.to_nat (i * (sectors + 1))).
Proof.
  intros Hs Ht Hfit Hi.
  exists (mesh_vertices r sectors stacks), (mesh_indices sectors stacks).
  split; [unfold sphere; now rewrite generateSphere_defined|].
  assert (Hp : vertex_pos (mesh_vertices r sectors stacks)
                 (Z.to_nat (i * (sectors + 1) + sectors))
               = vertex_pos (mesh_vertices r sectors stacks)
                   (Z.to_nat (i * (sectors + 1)))).
  { rewrite <- (Z.add_0_r (i * (sectors + 1))) at 2.
    rewrite !sphere_vertex_pos by lia.
    rewrite seam_angle by lia. rewrite Rmult_0_l.
    rewrite cos_2PI, sin_2PI, cos_0, sin_0. reflexivity. }
  split; [exact Hp|].
  rewrite <- (Z.add_0_r (i * (sectors + 1))) at 2.
  rewrite !sphere_vertex_normal by lia.
  rewrite Z.add_0_r. now rewrite Hp.
Qed.

Lemma generateSphere_seam_witness :
  exists vertices indices,
    sphere 1 72 36 = Some (vertices, indices) /\
    vertex_pos vertices 802 = vertex_pos vertices 730.
Proof.
  destruct (generateSphere_seam 1 72 36 10)
    as (vertices & indices & Hrun & Hp & _);
    [lia | lia | unfold fits_int, INT_MAX; lia | lia |].
  exists vertices, indices. split; [exact Hrun | exact Hp].
Defined.

Lemma south_pole_angle stacks :
  (1 <= stacks)%Z -> PI / 2 - IZR stacks * (PI / IZR stacks) = - (PI / 2).
Proof.
  intros H. field. apply not_0_IZR. lia.
Qed.

(** X3.  The poles are duplicated: the [sectors + 1] vertices of row 0 all
    lie at the north pole (0, 0, r), and those of row [stacks] at the south
    pole (0, 0, -r). *)
Theorem generateSphere_poles (r : R) (sectors stacks : Z) (j : Z) :
  (1 <= sectors)%Z -> (1 <= stacks)%Z -> fits_int sectors stacks ->
  (0 <= j <= sectors)%Z ->
  exists vertices indices,
    sphere r sectors stacks = Some (vertices, indices) /\
    vertex_pos vertices (Z.to_nat j) = mkvec3 0 0 r /\
    vertex_pos vertices (Z.to_nat (stacks * (sectors + 1) + j))
    = mkvec3 0 0 (- r).
Proof.
  intros Hs Ht Hfit Hj.
  exists (mesh_vertices r sectors stacks), (mesh_indices sectors stacks).
  split; [unfold sphere; now rewrite generateSphere_defined|].
  split.
  - replace j with (0 * (sectors + 1) + j)%Z at 1 by ring.
    rewrite sphere_vertex_pos by lia.
    rewrite Rmult_0_l, Rminus_0_r, cos_PI2, sin_PI2.
    f_equal; ring.
  - rewrite sphere_vertex_pos by lia.
    rewrite south_pole_angle by lia.
    rewrite cos_neg, sin_neg, cos_PI2, sin_PI2.
    f_equal; ring.
Qed.

Lemma generateSphere_poles_witness :
  exists vertices indices,
    sphere 1 72 36 = Some (vertices, indices) /\
    vertex_pos vertices 5 = mkvec3 0 0 1 /\
    vertex_pos vertices 2633 = mkvec3 0 0 (- (1)).
Proof.
  apply (generateSphere_poles 1 72 36 5);
    [lia | lia | unfold fits_int, INT_MAX; lia | lia].
Defined.

(** ** Which vertices the triangles use *)

Lemma cell_indices_In sectors stacks i j x :
  In x (cell_indices sectors stacks i j) <->
  (i <> 0 /\ (x = i * (sectors + 1) + j \/
              x = i * (sectors + 1) + j + sectors + 1 \/
              x = i * (sectors + 1) + j + 1))%Z \/
  (i <> stacks - 1 /\ (x = i * (sectors + 1) + j + 1 \/
                       x = i * (sectors + 1) + j + sectors + 1 \/
                       x = i * (sectors + 1) + j + sectors + 1 + 1))%Z.
Proof.
  unfold cell_indices, cell_triangles. cbv zeta.
  destruct (Z.eqb_spec i 0), (Z.eqb_spec i (stacks - 1)); cbn; intuition lia.
Qed.

Lemma mesh_indices_used sectors stacks x :
  (1 <= sectors)%Z -> (2 <= stacks)%Z ->
  In x (mesh_indices sectors stacks) <->
  (1 <= x <= (stacks + 1) * (sectors + 1) - 2)%Z.
Proof.
  intros Hs Ht. unfold mesh_indices. rewrite grid_In. split.
  - intros (i & j & Hi & Hj & Hx).
    apply cell_indices_In in Hx.
    assert (A0 : (0 <= i * (sectors + 1))%Z)
      by (apply Z.mul_nonneg_nonneg; lia).
    assert (A1 : (i * (sectors + 1) <= (stacks - 1) * (sectors + 1))%Z)
      by (apply Z.mul_le_mono_nonneg_r; lia).
    assert (A2 : (i <> 0 -> 1 * (sectors + 1) <= i * (sectors + 1))%Z)
      by (intros; apply Z.mul_le_mono_nonneg_r; lia).
    assert (A3 : (i <> stacks - 1 ->
                  i * (sectors + 1) <= (stacks - 2) * (sectors + 1))%Z)
      by (intros; apply Z.mul_le_mono_nonneg_r; lia).
    remember (i * (sectors + 1))%Z as m.
    destruct Hx as [[Hi0 Hx] | [Hi1 Hx]].
    + specialize (A2 Hi0). destruct Hx as [-> | [-> | ->]]; lia.
    + specialize (A3 Hi1). destruct Hx as [-> | [-> | ->]]; lia.
  - intros Hx.
    assert (Hm := Z.mod_pos_bound x (sectors + 1) ltac:(lia)).
    assert (Hd := Z.div_mod x (sectors + 1) ltac:(lia)).
    assert (H0 : (0 <= x / (sectors + 1))%Z) by (apply Z.div_pos; lia).
    assert (H1 : (x / (sectors + 1) < stacks + 1)%Z)
      by (apply Z.div_lt_upper_bound; lia).
    remember (x / (sectors + 1))%Z as i0.
    remember (x mod (sectors + 1))%Z as j0.
    clear Heqi0 Heqj0.
    destruct (Z.eq_dec i0 0) as [E0 | N0];
      [|destruct (Z.eq_dec i0 stacks) as [ET | NT];
        [|destruct (Z.eq_dec j0 sectors) as [ES | NS]]].
    + subst i0. exists 0%Z, (j0 - 1)%Z. rewrite cell_indices_In.
      split; [lia | split; [lia | right; split; lia]].
    + subst i0. exists (stacks - 1)%Z, j0. rewrite cell_indices_In.
      split; [lia | split; [lia | left; split; lia]].
    + subst j0. exists i0, (sectors - 1)%Z. rewrite cell_indices_In.
      split; [lia | split; [lia | left; split; lia]].
    + exists i0, j0. rewrite cell_indices_In.
      split; [lia | split; [lia | left; split; lia]].
Qed.

(** X4.  With sectors >= 1 and stacks >= 2 the index buffer names every
    vertex except the first and the last: index 0 and index
    (stacks+1)*(sectors+1) - 1, one duplicate of each pole, belong to no
    triangle. *)
Theorem generateSphere_vertices_used (r : R) (sectors stacks : Z) :
  (1 <= sectors)%Z -> (2 <= stacks)%Z -> fits_int sectors stacks ->
  exists vertices indices,
    sphere r sectors stacks = Some (vertices, indices) /\
    forall x, In x indices <->
              (1 <= x <= (stacks + 1) * (sectors + 1) - 2)%Z.
Proof.
  intros Hs Ht Hfit.
  exists (mesh_vertices r sectors stacks), (mesh_indices sectors stacks).
  split.
  - unfold sphere. rewrite generateSphere_defined by (auto; lia).
    reflexivity.
  - intros x. now apply mesh_indices_used.
Qed.

Lemma generateSphere_vertices_used_witness :
  exists vertices indices,
    sphere 1 72 36 = Some (vertices, indices) /\
    ~ In 0%Z indices /\ In 1%Z indices /\ ~ In 2700%Z indices.
Proof.
  destruct (generateSphere_vertices_used 1 72 36)
    as (vertices & indices & Hrun & H);
    [lia | lia | unfold fits_int, INT_MAX; lia |].
  exists vertices, indices. split; [exact Hrun|].
  split; [|split].
  - intros H0. apply H in H0. lia.
  - apply H. lia.
  - intros H0. apply H in H0. lia.
Defined.

(** ** The mode toggle and the close flag *)

Lemma toggle_manual_flags k c :
  spacePressed (toggle_manual k c) = key_space k /\
  manualControl (toggle_manual k c)
  = (if key_space k && negb (spacePressed c)
     then negb (manualControl c) else manualControl c) /\
  windowShouldClose (toggle_manual k c) = windowShouldClose c.
Proof.
  unfold toggle_manual.
  destruct (key_space k), (spacePressed c); cbn; auto.
Qed.

Lemma mode_controls_flags minAltitude k c :
  spacePressed (mode_controls minAltitude k c) = spacePressed c /\
  manualControl (mode_controls minAltitude k c) = manualControl c /\
  windowShouldClose (mode_controls minAltitude k c) = windowShouldClose c.
Proof. unfold mode_controls. case_flags; cbn; auto. Qed.

Lemma getViewMatrix_flags deltaTime c :
  spacePressed (fst (getViewMatrix deltaTime c)) = spacePressed c /\
  manualControl (fst (getViewMatrix deltaTime c)) = manualControl c /\
  windowShouldClose (fst (getViewMatrix deltaTime c)) = windowShouldClose c.
Proof. unfold getViewMatrix. case_flags; cbn; auto. Qed.

Lemma input_flags input k c :
  is_input input ->
  spacePressed (input k c) = key_space k /\
  manualControl (input k c)
  = (if key_space k && negb (spacePressed c)
     then negb (manualControl c) else manualControl c) /\
  windowShouldClose (input k c) = windowShouldClose c || key_escape k.
Proof.
  intros [-> | ->];
    unfold camera_processInput, processKeyboard, processInput;
    match goal with
    | |- context [mode_controls ?m k (toggle_manual k ?c0)] =>
        destruct (mode_controls_flags m k (toggle_manual k c0))
          as (-> & -> & ->);
        destruct (toggle_manual_flags k c0) as (-> & -> & ->)
    end;
    destruct (key_escape k); cbn;
      rewrite ?orb_true_r, ?orb_false_r; auto.
Qed.

(** The three flags after one event. *)
Lemma step_flags input e c :
  is_input input ->
  spacePressed (step input e c)
  = match e with Frame k _ => key_space k | _ => spacePressed c end /\
  manualControl (step input e c)
  = match e with
    | Frame k _ => if key_space k && negb (spacePressed c)
                   then negb (manualControl c) else manualControl c
    | _ => manualControl c
    end /\
  windowShouldClose (step input e c)
  = match e with
    | Frame k _ => windowShouldClose c || key_escape k
    | _ => windowShouldClose c
    end.
Proof.
  intros Hin. destruct e as [k dt | x y | b a | xo yo]; cbn [step].
  - rewrite render_frame_state.
    destruct (getViewMatrix_flags dt (input k c)) as (-> & -> & ->).
    now apply input_flags.
  - unfold mouse_callback. case_flags; cbn; auto.
  - unfold mouse_button_callback. case_flags; cbn; auto.
  - unfold scroll_callback. cbn. auto.
Qed.

Lemma run_cons input e evs c :
  run input (e :: evs) c = run input evs (step input e c).
Proof. reflexivity. Qed.

(** While SPACE stays held after the frame that saw it pressed, the mode
    does not change. *)
Lemma space_held_keeps_mode input evs :
  is_input input ->
  (forall k dt, In (Frame k dt) evs -> key_space k = true) ->
  forall c, spacePressed c = true ->
  manualControl (run input evs c) = manualControl c.
Proof.
  intros Hin. induction evs as [|e evs IH]; intros Hk c Hsp; [reflexivity|].
  rewrite run_cons.
  destruct (step_flags input e c Hin) as (Es & Em & _).
  rewrite IH.
  - rewrite Em. destruct e; auto. now rewrite Hsp, andb_false_r.
  - intros k dt H. apply (Hk k dt). now right.
  - rewrite Es. destruct e as [k dt | | |]; auto.
    apply (Hk k dt). now left.
Qed.

Lemma In_tail_frame (e : event) (evs : list event) :
  (forall k dt, e <> Frame k dt) ->
  (exists k dt, In (Frame k dt) (e :: evs)) ->
  exists k dt, In (Frame k dt) evs.
Proof.
  intros He (k & dt & [H | H]); [now apply He in H | eauto].
Qed.

(** X5.  Holding SPACE toggles the mode exactly once, however many frames
    the key stays down and whatever the mouse does meanwhile: after any
    run in which every frame sees SPACE pressed, and at least one frame
    occurs, the mode is the opposite of the initial one. *)
Theorem space_held_toggles_once (input : Keys -> Camera -> Camera)
    (evs : list event) (c : Camera) :
  is_input input ->
  spacePressed c = false ->
  (forall k dt, In (Frame k dt) evs -> key_space k = true) ->
  (exists k dt, In (Frame k dt) evs) ->
  manualControl (run input evs c) = negb (manualControl c).
Proof.
  intros Hin. revert c.
  induction evs as [|e evs IH]; intros c Hsp Hk (k0 & dt0 & H0);
    [destruct H0|].
  rewrite run_cons.
  destruct (step_flags input e c Hin) as (Es & Em & _).
  assert (Hk' : forall k dt, In (Frame k dt) evs -> key_space k = true)
    by (intros k dt H; apply (Hk k dt); now right).
  assert (Hc : (forall k dt, e <> Frame k dt) ->
               manualControl (run input evs (step input e c))
               = negb (manualControl (step input e c))).
  { intros He. apply IH; auto.
    - rewrite Es. destruct e as [k dt | | |]; auto. now destruct (He k dt).
    - apply (In_tail_frame e); eauto. }
  destruct e as [k dt | x y | b a | xo yo];
    try (rewrite Hc, Em by discriminate; reflexivity).
  - assert (Hs : key_space k = true) by (apply (Hk k dt); now left).
    rewrite space_held_keeps_mode; auto.
    + rewrite Em, Hs, Hsp. reflexivity.
    + now rewrite Es.
Qed.

Lemma space_held_toggles_once_witness :
  manualControl
    (run processInput
       [Frame space_key 0.016; Scroll 0 1; Frame space_key 0.016;
        Frame space_key 0.016] main_init)
  = true.
Proof.
  apply (space_held_toggles_once processInput
           [Frame space_key 0.016; Scroll 0 1; Frame space_key 0.016;
            Frame space_key 0.016] main_init).
  - now left.
  - reflexivity.
  - intros k dt [H | [H | [H | [H | []]]]]; inversion H; reflexivity.
  - exists space_key, 0.016. now left.
Defined.



(** ** The render loop clock *)

Lemma last_cons_default {A : Type} (l : list A) :
  forall (a d : A), last (a :: l) d = last l a.
Proof.
  induction l as [|b l IH]; intros a d; [reflexivity|].
  change (last (a :: b :: l) d) with (last (b :: l) d).
  now rewrite !IH.
Qed.

Lemma deliver_orbit c cb :
  planeSpeed (deliver c cb) = planeSpeed c /\
  planeAngle (deliver c cb) = planeAngle c /\
  manualControl (deliver c cb) = manualControl c.
Proof.
  destruct cb as [x y | b a | xo yo]; cbn [deliver].
  - destruct (mouse_callback_params x y c) as (-> & _ & -> & _ & ->). auto.
  - destruct (mouse_button_callback_params b a c)
      as (-> & _ & -> & _ & _ & ->). auto.
  - destruct (scroll_callback_params yo c) as (-> & _ & -> & _ & -> & _). auto.
Qed.

Lemma polled_orbit polled :
  forall c,
  planeSpeed (fold_left deliver polled c) = planeSpeed c /\
  planeAngle (fold_left deliver polled c) = planeAngle c /\
  manualControl (fold_left deliver polled c) = manualControl c.
Proof.
  induction polled as [|cb polled IH]; intros c; cbn [fold_left]; auto.
  destruct (IH (deliver c cb)) as (-> & -> & ->). apply deliver_orbit.
Qed.

(** Input that touches neither SPACE nor the speed keys, in plane view. *)
Lemma input_plane_cruise input k c :
  is_input input ->
  key_space k = false -> key_up k = false -> key_down k = false ->
  manualControl c = false -> 0 <= planeSpeed c <= 2 ->
  manualControl (input k c) = false /\
  planeSpeed (input k c) = planeSpeed c /\
  planeAngle (input k c) = planeAngle c.
Proof.
  intros Hin Hsp Hup Hdn Hm Hs.
  assert (Hmode : manualControl (input k c) = false).
  { destruct (input_flags input k c Hin) as (_ & -> & _).
    now rewrite Hsp. }
  split; [exact Hmode|].
  destruct Hin as [-> | ->];
    unfold camera_processInput, processKeyboard, processInput in *;
    match goal with
    | |- context [mode_controls ?m k (toggle_manual k ?c0)] =>
        assert (Hm0 : manualControl (toggle_manual k c0) = false)
          by (destruct (mode_controls_flags m k (toggle_manual k c0))
                as (_ & E & _); now rewrite <- E);
        destruct (mode_controls_plane m k _ Hm0) as (-> & _);
        destruct (mode_controls_other m k (toggle_manual k c0)) as (-> & _);
        destruct (toggle_manual_params k c0) as (-> & _ & -> & _)
    end;
    rewrite Hup, Hdn; destruct (key_escape k); cbn;
    rewrite Rminus_0_r, clamp_below_id, clamp_above_id by lra; auto.
Qed.

Lemma loop_run_cons input it its st :
  loop_run input (it :: its) st
  = loop_run input its
      (loop_iteration input (fst (fst it)) (snd (fst it)) (snd it) st).
Proof. reflexivity. Qed.

(** X7.  The orbit does not depend on the frame rate.  In plane view, as
    long as no frame sees SPACE, UP or DOWN pressed, the angle after any
    number of loop iterations stamped with the times [glfwGetTime]
    returned is the initial angle plus speed times the time elapsed since
    the initial [lastFrame], however that time is cut into frames and
    whatever the mouse callbacks do between them. *)
Theorem orbit_frame_rate_independent (input : Keys -> Camera -> Camera)
    (its : list (R * Keys * list callback)) (lastFrame : R) (c : Camera) :
  is_input input ->
  manualControl c = false -> 0 <= planeSpeed c <= 2 ->
  (forall t k polled, In (t, k, polled) its ->
     key_space k = false /\ key_up k = false /\ key_down k = false) ->
  let st := loop_run input its (lastFrame, c) in
  fst st = last (map (fun it => fst (fst it)) its) lastFrame /\
  planeAngle (snd st)
  = planeAngle c + planeSpeed c * (fst st - lastFrame).
Proof.
  intros Hin. revert lastFrame c.
  induction its as [|[[t k] polled] its IH]; intros t0 c Hm Hs Hk st.
  - subst st. cbn. split; [reflexivity | ring].
  - subst st. rewrite loop_run_cons. cbn [fst snd loop_iteration].
    destruct (Hk t k polled ltac:(now left)) as (Hsp & Hup & Hdn).
    destruct (input_plane_cruise input k c Hin Hsp Hup Hdn Hm Hs)
      as (Hm1 & Hs1 & Ha1).
    set (c1 := fst (render_frame input k (t - t0) c)).
    assert (Hc1 : manualControl c1 = false /\ planeSpeed c1 = planeSpeed c /\
                  planeAngle c1 = planeAngle c + planeSpeed c * (t - t0)).
    { subst c1. rewrite render_frame_state.
      destruct (getViewMatrix_params (t - t0) (input k c))
        as (-> & _ & _ & _ & ->).
      rewrite getViewMatrix_plane_angle by assumption.
      rewrite Hs1, Ha1. auto. }
    destruct Hc1 as (Hm2 & Hs2 & Ha2).
    destruct (polled_orbit polled c1) as (Hs3 & Ha3 & Hm3).
    set (c2 := fold_left deliver polled c1) in *.
    destruct (IH t c2) as (Ht & Ha).
    + congruence.
    + rewrite Hs3, Hs2. exact Hs.
    + intros t' k' p' H. apply (Hk t' k' p'). now right.
    + cbn [map]. rewrite last_cons_default.
      split; [exact Ht|].
      rewrite Ha, Ha3, Ha2, Hs3, Hs2. ring.
Qed.

Lemma orbit_frame_rate_independent_witness :
  planeAngle
    (snd (loop_run processInput
            [(0.5, no_keys, []); (0.75, right_key, [OnScroll 0 1]);
             (2, no_keys, [])] (0, main_init)))
  = planeAngle main_init + planeSpeed main_init * (2 - 0).
Proof.
  destruct (orbit_frame_rate_independent processInput
              [(0.5, no_keys, []); (0.75, right_key, [OnScroll 0 1]);
               (2, no_keys, [])] 0 main_init) as (Ht & Ha).
  - now left.
  - reflexivity.
  - cbn. lra.
  - intros t k polled [H | [H | [H | []]]]; inversion H; subst; auto.
  - rewrite Ha, Ht. reflexivity.
Defined.

(** ** Dragging and zooming *)

(** A drag in progress: the yaw follows the cursor. *)
Lemma drag_yaw moves :
  forall c,
  mousePressed c = true -> manualControl c = true -> firstMouse c = false ->
  cameraAngleX (drag moves c)
  = cameraAngleX c + (fst (last moves (lastX c, lastY c)) - lastX c) * 0.01.
Proof.
  induction moves as [|[x y] moves IH]; intros c Hp Hm Hf.
  - cbn. ring.
  - rewrite last_cons_default.
    change (drag ((x, y) :: moves) c)
      with (drag moves (mouse_callback x y c)).
    assert (Hc : mousePressed (mouse_callback x y c) = true /\
                 manualControl (mouse_callback x y c) = true /\
                 firstMouse (mouse_callback x y c) = false /\
                 lastX (mouse_callback x y c) = x /\
                 lastY (mouse_callback x y c) = y /\
                 cameraAngleX (mouse_callback x y c)
                 = cameraAngleX c + (x - lastX c) * 0.01).
    { unfold mouse_callback. rewrite Hp, Hm, Hf. cbn. auto 10. }
    destruct Hc as (Hp1 & Hm1 & Hf1 & Hx1 & Hy1 & Ha1).
    rewrite IH by assumption. rewrite Ha1, Hx1, Hy1.
    destruct moves as [|m moves]; cbn [last fst]; [ring|].
    ring.
Qed.

(** X8.  A drag turns the camera by 0.01 radians per pixel of horizontal
    cursor travel, measured from where the cursor is first reported after
    the button press: the first report itself turns nothing (no jump from
    a stale cursor position), and the yaw after the drag depends only on
    its first and last cursor positions. *)
Theorem drag_yaw_follows_cursor (c : Camera) (x0 y0 : R)
    (moves : list (R * R)) :
  manualControl c = true ->
  let pressed := mouse_button_callback GLFW_MOUSE_BUTTON_LEFT GLFW_PRESS c in
  cameraAngleX (drag [(x0, y0)] pressed) = cameraAngleX c /\
  cameraAngleX (drag ((x0, y0) :: moves) pressed)
  = cameraAngleX c + (fst (last moves (x0, y0)) - x0) * 0.01.
Proof.
  intros Hm pressed.
  assert (H1 : mousePressed (mouse_callback x0 y0 pressed) = true /\
               manualControl (mouse_callback x0 y0 pressed) = true /\
               firstMouse (mouse_callback x0 y0 pressed) = false /\
               lastX (mouse_callback x0 y0 pressed) = x0 /\
               lastY (mouse_callback x0 y0 pressed) = y0 /\
               cameraAngleX (mouse_callback x0 y0 pressed) = cameraAngleX c).
  { subst pressed. unfold mouse_callback, mouse_button_callback. cbn.
    rewrite Hm. cbn. repeat split; auto. ring. }
  destruct H1 as (Hp1 & Hm1 & Hf1 & Hx1 & Hy1 & Ha1).
  split; [exact Ha1|].
  change (drag ((x0, y0) :: moves) pressed)
    with (drag moves (mouse_callback x0 y0 pressed)).
  rewrite drag_yaw by assumption.
  now rewrite Ha1, Hx1, Hy1.
Qed.

Lemma drag_yaw_follows_cursor_witness :
  let c := run processInput [Frame space_key 0.016] main_init in
  cameraAngleX
    (drag [(100, 50); (130, 70); (90, 10); (160, 40)]
       (mouse_button_callback GLFW_MOUSE_BUTTON_LEFT GLFW_PRESS c))
  = cameraAngleX c + (160 - 100) * 0.01.
Proof.
  intros c.
  apply (drag_yaw_follows_cursor c 100 50 [(130, 70); (90, 10); (160, 40)]).
  reflexivity.
Defined.

(** X9.  Scrolling up never moves the camera away and scrolling down never
    brings it closer; a scroll of [yoffset] changes the distance by at most
    0.1 * |yoffset|, and by exactly that much when the result stays within
    [1.5, 10]. *)
Theorem scroll_zoom (yoffset : R) (c : Camera) :
  1.5 <= cameraDistance c <= 10 ->
  let d := cameraDistance c in
  let d' := cameraDistance (scroll_callback yoffset c) in
  (0 <= yoffset -> d' <= d) /\
  (yoffset <= 0 -> d <= d') /\
  Rabs (d' - d) <= 0.1 * Rabs yoffset /\
  (1.5 <= d - yoffset * 0.1 <= 10 -> d' = d - yoffset * 0.1).
Proof.
  intros Hd d d'. subst d d'.
  destruct (scroll_callback_params yoffset c) as (_ & _ & _ & _ & _ & ->).
  unfold clamp_above, clamp_below.
  destruct (Rlt_dec (cameraDistance c - yoffset * 0.1) 1.5);
    destruct (Rgt_dec _ 10);
    repeat split; intros; try lra;
    unfold Rabs; repeat destruct (Rcase_abs _); lra.
Qed.

Lemma scroll_zoom_witness :
  cameraDistance (scroll_callback 3 main_init) = 3 - 3 * 0.1.
Proof.
  destruct (scroll_zoom 3 main_init) as (_ & _ & _ & H); [cbn; lra|].
  apply H. cbn. lra.
Defined.

(** ** Where the camera is and where it looks *)

Lemma manual_eye_dot yaw pitch d :
  dot (mkvec3 (sin yaw * cos pitch * d) (sin pitch * d)
              (cos yaw * cos pitch * d))
      (mkvec3 (sin yaw * cos pitch * d) (sin pitch * d)
              (cos yaw * cos pitch * d))
  = d * d.
Proof.
  unfold dot. cbn [vx vy vz].
  transitivity
    (d * d * (cos pitch * cos pitch * (sin yaw * sin yaw + cos yaw * cos yaw)
              + sin pitch * sin pitch)); [ring|].
  rewrite sin2_cos2', Rmult_1_r, Rplus_comm, sin2_cos2'. ring.
Qed.

Lemma cos_pitch_pos pitch : -1.5 <= pitch <= 1.5 -> 0 < cos pitch.
Proof.
  intros H. pose proof PI2_3_2. apply cos_gt_0; lra.
Qed.

(** X10.  The orbit camera of manual mode: the eye is at distance
    [cameraDistance] from the centre of the globe, which it looks at, and
    the view is never degenerate: because the pitch is kept within
    [-1.5, 1.5], short of a right angle, the view direction is never
    parallel to the up vector (0, 1, 0). *)
Theorem manual_view_well_formed (deltaTime : R) (c : Camera) :
  manualControl c = true ->
  -1.5 <= cameraAngleY c <= 1.5 -> 0 < cameraDistance c ->
  let m := snd (getViewMatrix deltaTime c) in
  vlength (view_eye m) = cameraDistance c /\
  view_center m = mkvec3 0 0 0 /\
  view_up m = mkvec3 0 1 0 /\
  cross (vsub (view_center m) (view_eye m)) (view_up m) <> mkvec3 0 0 0.
Proof.
  intros Hm Hp Hd m. subst m. unfold getViewMatrix. rewrite Hm.
  cbn [negb snd view_eye view_center view_up].
  split; [|split; [reflexivity | split; [reflexivity|]]].
  - unfold vlength. rewrite manual_eye_dot. apply sqrt_square. lra.
  - intros H. unfold cross, vsub in H. cbn [vx vy vz] in H.
    assert (Hx := f_equal vx H). assert (Hz := f_equal vz H).
    cbn [vx vz] in Hx, Hz.
    pose proof (cos_pitch_pos _ Hp) as Hc.
    pose proof (sin2_cos2' (cameraAngleX c)) as Hsc.
    assert (E1 : cos (cameraAngleX c) * (cos (cameraAngleY c) * cameraDistance c)
                 = 0) by lra.
    assert (E2 : sin (cameraAngleX c) * (cos (cameraAngleY c) * cameraDistance c)
                 = 0) by lra.
    assert (Hq : 0 < cos (cameraAngleY c) * cameraDistance c)
      by now apply Rmult_lt_0_compat.
    apply Rmult_integral in E1. apply Rmult_integral in E2.
    destruct E1 as [E1 | E1]; [|lra]. destruct E2 as [E2 | E2]; [|lra].
    rewrite E1, E2 in Hsc. lra.
Qed.

Lemma manual_view_well_formed_witness :
  let c := run processInput [Frame space_key 0.016] main_init in
  vlength (view_eye (snd (getViewMatrix 0.016 c))) = 3.
Proof.
  intros c.
  destruct (manual_view_well_formed 0.016 c) as (H & _).
  - reflexivity.
  - cbn. lra.
  - cbn. lra.
  - exact H.
Defined.

Lemma getViewPosition_length c :
  0 < planeAltitude c -> 0 <= cameraDistance c ->
  vlength (getViewPosition c)
  = if manualControl c then cameraDistance c else planeAltitude c.
Proof.
  intros Ha Hd. unfold getViewPosition.
  destruct (manualControl c); cbn [negb].
  - unfold vlength. rewrite manual_eye_dot. now apply sqrt_square.
  - apply vlength_scaled_unit; [now apply raw_orbit_dot_pos | lra].
Qed.

Lemma render_frame_viewPosition input k deltaTime c :
  fo_viewPosition (snd (render_frame input k deltaTime c))
  = getViewPosition (fst (getViewMatrix deltaTime (input k c))).
Proof.
  unfold render_frame.
  destruct (getViewMatrix deltaTime (input k c)) as [c' view].
  reflexivity.
Qed.

(** X11.  The camera never enters the globe, which [main] builds with
    radius 1: in every frame of every run from the initial state the view
    position is at distance altitude (plane view) or [cameraDistance]
    (manual mode) from the centre, hence at least 1.05. *)
Theorem camera_outside_globe (evs : list event) (k : Keys) (deltaTime : R) :
  let c := main_run evs main_init in
  let c' := fst (main_frame k deltaTime c) in
  let viewPosition := fo_viewPosition (snd (main_frame k deltaTime c)) in
  vlength viewPosition
  = (if manualControl c' then cameraDistance c' else planeAltitude c') /\
  1.05 <= vlength viewPosition.
Proof.
  intros c c' viewPosition.
  assert (Hr : in_range 1.05 c').
  { subst c' c. unfold main_frame, main_run.
    change (fst (render_frame processInput k deltaTime
                   (run processInput evs main_init)))
      with (step processInput (Frame k deltaTime)
              (run processInput evs main_init)).
    apply step_in_range; [apply processInput_in_range|].
    apply run_in_range; [apply processInput_in_range|].
    apply main_init_in_range. }
  assert (Hv : viewPosition = getViewPosition c').
  { subst viewPosition c'. unfold main_frame.
    now rewrite render_frame_viewPosition, render_frame_state. }
  destruct Hr as (_ & Ha & _ & Hd).
  rewrite Hv, getViewPosition_length by lra.
  split; [reflexivity|].
  destruct (manualControl c'); lra.
Qed.

(** The view direction of the plane view, for two distinct points [P],
    [N] of the sphere of radius [a]. *)
Lemma chord_look a P N tilt :
  0 < a -> dot P P = a * a -> dot N N = a * a ->
  0 < dot (vsub N P) (vsub N P) -> 0 <= tilt ->
  let forward := normalize (vsub N P) in
  let right := cross forward (normalize P) in
  let up := cross right forward in
  let dir := vsub (vadd (vadd P forward) (vscale up (- tilt))) P in
  dot dir forward = 1 /\
  dot (cross dir up) (cross dir up) = dot right right /\
  dot dir P < 0.
Proof.
  intros Ha HP HN Hd Ht forward right up dir.
  destruct (chord_frame a P N Ha HP HN Hd)
    as (Hfu & Hfr & Hur & Hf & Hr & Hu).
  fold forward in Hfu, Hfr, Hur, Hf, Hr, Hu.
  fold right in Hfu, Hfr, Hur, Hr, Hu. fold up in Hfu, Hur, Hu.
  assert (Edir : dir = vadd forward (vscale up (- tilt))).
  { subst dir. unfold vsub, vadd, vscale. cbn [vx vy vz]. f_equal; ring. }
  assert (E1 : dot dir forward = dot forward forward - tilt * dot forward up).
  { rewrite Edir. unfold dot, vadd, vscale. cbn [vx vy vz]. ring. }
  split; [rewrite E1, Hf, Hfu; ring|].
  split.
  - rewrite cross_dot, <- Hu.
    assert (E2 : dot dir dir
                 = dot forward forward - 2 * tilt * dot forward up
                   + tilt * tilt * dot up up).
    { rewrite Edir. unfold dot, vadd, vscale. cbn [vx vy vz]. ring. }
    assert (E3 : dot dir up = dot forward up - tilt * dot up up).
    { rewrite Edir. unfold dot, vadd, vscale. cbn [vx vy vz]. ring. }
    rewrite E2, E3, Hf, Hfu. ring.
  - assert (E4 : dot dir P
                 = dot forward P
                   - tilt * (1 / sqrt (dot P P)
                             * dot (cross forward P) (cross forward P))).
    { rewrite Edir. subst up right. unfold normalize.
      unfold dot, vadd, vscale, cross. cbn [vx vy vz]. ring. }
    assert (HsP : 0 < sqrt (dot P P)) by (apply sqrt_lt_R0; nra).
    assert (Hk : 0 < 1 / sqrt (dot P P)) by (apply Rdiv_lt_0_compat; lra).
    pose proof (dot_self_nonneg (cross forward P)) as Hc.
    assert (E5 : dot forward P
                 = 1 / sqrt (dot (vsub N P) (vsub N P))
                   * (dot N P - dot P P)).
    { subst forward. unfold normalize, dot, vscale, vsub. cbn [vx vy vz].
      ring. }
    pose proof (dot_vsub_self N P) as Hdd. rewrite HN, HP in Hdd.
    assert (Hsd : 0 < sqrt (dot (vsub N P) (vsub N P)))
      by now apply sqrt_lt_R0.
    assert (Hk' : 0 < 1 / sqrt (dot (vsub N P) (vsub N P)))
      by (apply Rdiv_lt_0_compat; lra).
    assert (Hneg : dot N P - dot P P < 0) by lra.
    assert (Hfp : dot forward P < 0).
    { rewrite E5. rewrite <- (Rmult_0_r (1 / sqrt (dot (vsub N P) (vsub N P)))).
      now apply Rmult_lt_compat_l. }
    assert (0 <= tilt * (1 / sqrt (dot P P)
                         * dot (cross forward P) (cross forward P))).
    { apply Rmult_le_pos; [assumption|].
      apply Rmult_le_pos; [lra | assumption]. }
    lra.
Qed.

(** X12.  In plane view the camera looks ahead and down: the look target
    is one unit ahead of the plane along its direction of flight, with
    [planeTilt >= 0] the view direction points to the globe's side of the
    local horizon (negative component along the outward radial direction),
    and the view is never degenerate: the view direction is not parallel to
    the up vector handed to [glm::lookAt]. *)
Theorem plane_view_looks_ahead (c : Camera) :
  1.05 <= planeAltitude c -> 0 <= planeTilt c ->
  let pv := plane_view c in
  let dir := vsub (pv_lookTarget pv) (pv_planePos pv) in
  dot dir (pv_forward pv) = 1 /\
  dot dir (pv_planePos pv) < 0 /\
  cross dir (pv_up pv) <> mkvec3 0 0 0.
Proof.
  intros Ha Ht pv dir.
  pose proof (orbit_chord_pos (planeAltitude c) (planeAngle c) ltac:(lra))
    as Hd. cbv zeta in Hd.
  destruct (chord_look (planeAltitude c) (pv_planePos pv) (pv_nextPos pv)
              (planeTilt c)) as (H1 & H2 & H3); try lra.
  - apply dot_scaled_unit. apply raw_orbit_dot_pos. lra.
  - apply dot_scaled_unit. apply raw_orbit_dot_pos. lra.
  - exact Hd.
  - split; [exact H1|]. split; [exact H3|].
    intros H.
    pose proof (plane_view_right_lower c Ha) as Hl.
    assert (Hz : dot (pv_right pv) (pv_right pv) = 0).
    { change (pv_right pv) with
        (cross (normalize (vsub (pv_nextPos pv) (pv_planePos pv)))
               (normalize (pv_planePos pv))).
      rewrite <- H2.
      change (dot (cross dir (pv_up pv)) (cross dir (pv_up pv)) = 0).
      rewrite H. unfold dot. cbn [vx vy vz]. ring. }
    unfold vlength in Hl. fold pv in Hl. rewrite Hz, sqrt_0 in Hl. lra.
Qed.

Lemma plane_view_looks_ahead_witness :
  let pv := plane_view main_init in
  dot (vsub (pv_lookTarget pv) (pv_planePos pv)) (pv_forward pv) = 1.
Proof.
  destruct (plane_view_looks_ahead main_init) as (H & _);
    [cbn; lra | cbn; lra | exact H].
Defined.

(** ** The fragment shader *)

Lemma fract_range x : 0 <= fract x < 1.
Proof.
  unfold fract, glsl_floor. destruct (base_Int_part x). lra.
Qed.

Lemma hash_range p : 0 <= hash p < 1.
Proof. apply fract_range. Qed.

(** The Hermite fade [t * t * (3 - 2 t)] keeps [0, 1]. *)
Lemma fade_range t : 0 <= t <= 1 -> 0 <= t * t * (3 - 2 * t) <= 1.
Proof.
  intros Ht. split.
  - apply Rmult_le_pos; [apply Rmult_le_pos|]; lra.
  - assert (0 <= (1 - t) * (1 - t) * (1 + 2 * t))
      by (apply Rmult_le_pos; [apply Rmult_le_pos|]; lra).
    lra.
Qed.

Lemma mix_range x y a lo hi :
  lo <= x <= hi -> lo <= y <= hi -> 0 <= a <= 1 -> lo <= mix x y a <= hi.
Proof.
  intros Hx Hy Ha. unfold mix.
  assert (0 <= (x - lo) * (1 - a)) by (apply Rmult_le_pos; lra).
  assert (0 <= (y - lo) * a) by (apply Rmult_le_pos; lra).
  assert (0 <= (hi - x) * (1 - a)) by (apply Rmult_le_pos; lra).
  assert (0 <= (hi - y) * a) by (apply Rmult_le_pos; lra).
  lra.
Qed.

Lemma mix_lt_1 x y a :
  0 <= x < 1 -> 0 <= y < 1 -> 0 <= a <= 1 -> 0 <= mix x y a < 1.
Proof.
  intros Hx Hy Ha.
  destruct (mix_range x y a 0 (Rmax x y)) as (Hl & Hu);
    try (pose proof (Rmax_l x y); pose proof (Rmax_r x y); lra).
  split; [exact Hl|].
  apply Rle_lt_trans with (Rmax x y); [exact Hu|].
  apply Rmax_lub_lt; lra.
Qed.

(** X13.  The value noise stays in [0, 1): it is a bilinear interpolation
    of four hash values, each in [0, 1), with faded weights in [0, 1]. *)
Theorem noise_range (p : vec2) : 0 <= noise p < 1.
Proof.
  unfold noise. cbv zeta. cbn [v2x v2y].
  set (fx := fract (v2x p) * fract (v2x p) * (3 - 2 * fract (v2x p))).
  set (fy := fract (v2y p) * fract (v2y p) * (3 - 2 * fract (v2y p))).
  assert (Hfx : 0 <= fx <= 1)
    by (apply fade_range; pose proof (fract_range (v2x p)); lra).
  assert (Hfy : 0 <= fy <= 1)
    by (apply fade_range; pose proof (fract_range (v2y p)); lra).
  set (i := mkvec2 (glsl_floor (v2x p)) (glsl_floor (v2y p))).
  pose proof (hash_range i) as Ha.
  pose proof (hash_range (v2add i (mkvec2 1 0))) as Hb.
  pose proof (hash_range (v2add i (mkvec2 0 1))) as Hc.
  pose proof (hash_range (v2add i (mkvec2 1 1))) as Hd.
  set (a := hash i) in *. set (b := hash (v2add i (mkvec2 1 0))) in *.
  set (c := hash (v2add i (mkvec2 0 1))) in *.
  set (d := hash (v2add i (mkvec2 1 1))) in *.
  replace (mix a b fx + (c - a) * fy * (1 - fx) + (d - b) * fx * fy)
    with (mix (mix a b fx) (mix c d fx) fy) by (unfold mix; ring).
  apply mix_lt_1; [apply mix_lt_1 | apply mix_lt_1 |]; assumption.
Qed.

Lemma clamp01_range x : 0 <= glsl_clamp x 0 1 <= 1.
Proof.
  unfold glsl_clamp. split.
  - apply Rmin_glb; [apply Rmax_r | lra].
  - apply Rmin_r.
Qed.

Lemma smoothstep_range edge0 edge1 x : 0 <= smoothstep edge0 edge1 x <= 1.
Proof. unfold smoothstep. cbv zeta. apply fade_range, clamp01_range. Qed.

Lemma vmix_range a b t :
  (0 <= vx a <= 1 /\ 0 <= vy a <= 1 /\ 0 <= vz a <= 1) ->
  (0 <= vx b <= 1 /\ 0 <= vy b <= 1 /\ 0 <= vz b <= 1) ->
  0 <= t <= 1 ->
  0 <= vx (vmix a b t) <= 1 /\ 0 <= vy (vmix a b t) <= 1 /\
  0 <= vz (vmix a b t) <= 1.
Proof.
  intros (Hax & Hay & Haz) (Hbx & Hby & Hbz) Ht. unfold vmix. cbn [vx vy vz].
  split; [|split]; apply mix_range; lra.
Qed.

(** X14.  For every fragment the land mask lies in [0, 1], every channel
    of the surface colour it selects (ocean, land, savanna and desert
    mixed) lies in [0, 1], and the fragment is written opaque. *)
Theorem fragment_surface_colour (u : Uniforms) (FragPos Normal : vec3) :
  let f := fragment_main u FragPos Normal in
  0 <= fr_landMask f <= 1 /\
  (0 <= vx (fr_baseColor f) <= 1 /\ 0 <= vy (fr_baseColor f) <= 1 /\
   0 <= vz (fr_baseColor f) <= 1) /\
  v4w (fr_FragColor f) = 1.
Proof.
  intros f. subst f. unfold fragment_main. cbv zeta.
  cbn [fr_landMask fr_baseColor fr_FragColor v4w].
  set (landMask := continentNoise (normalize FragPos)).
  assert (Hl : 0 <= landMask <= 1) by apply smoothstep_range.
  split; [exact Hl|]. split; [|reflexivity].
  assert (Hb : let b := vmix (mkvec3 0.05 0.2 0.5) (mkvec3 0.15 0.4 0.15)
                          landMask in
               0 <= vx b <= 1 /\ 0 <= vy b <= 1 /\ 0 <= vz b <= 1).
  { apply vmix_range; cbn [vx vy vz]; try lra. }
  cbv zeta in Hb.
  destruct (Rgt_dec landMask 0.5); [|exact Hb].
  repeat match goal with
         | |- context [if Rgt_dec ?a ?b then _ else _] =>
             destruct (Rgt_dec a b)
         end;
    repeat (apply vmix_range; try apply smoothstep_range);
    cbn [vx vy vz]; try lra; exact Hb.
Qed.

(** ** The first sphere generator and its orbit *)





(** X16.  The orbit of the first program: at every time the plane is at
    height 0.2 and at horizontal distance 1.5 from the axis of the planet,
    the camera that follows it stays outside the unit ball around the
    centre it looks at, and the view is never degenerate: the view
    direction is never parallel to the up vector (0, 1, 0). *)
Theorem Grok_orbit (time : R) :
  let p := Grok.planePos time in
  let m := Grok.view time in
  vy p = 0.2 /\
  vx p * vx p + vz p * vz p = 1.5 * 1.5 /\
  1 < vlength (view_eye m) /\
  view_center m = mkvec3 0 0 0 /\
  cross (vsub (view_center m) (view_eye m)) (view_up m) <> mkvec3 0 0 0.
Proof.
  intros p m. subst p m. unfold Grok.view, Grok.planePos. cbv zeta.
  cbn [view_eye view_center view_up vadd vx vy vz].
  pose proof (sin2_cos2' time) as Hsc.
  pose proof (COS_bound time) as Hc.
  split; [reflexivity|]. split; [nra|]. split; [|split; [reflexivity|]].
  - unfold vlength, dot, vadd. cbn [vx vy vz].
    set (q := _ + _ + _).
    assert (E : q = 2.25 * (sin time * sin time + cos time * cos time)
                    + 0.41 + 1.5 * cos time) by (subst q; lra).
    rewrite Hsc in E.
    rewrite <- sqrt_1. apply sqrt_lt_1; lra.
  - intros H.
    assert (Hx := f_equal vx H). assert (Hz := f_equal vz H).
    unfold cross, vsub, vadd in Hx, Hz. cbn [vx vy vz] in Hx, Hz.
    assert (Es : sin time = 0) by lra.
    assert (Ec : cos time * 1.5 = - 0.5) by lra.
    rewrite Es in Hsc.
    assert (E : cos time * 1.5 * (cos time * 1.5) = 2.25) by lra.
    rewrite Ec in E. lra.
Qed.

(** ** Holding an arrow key in plane view *)

Lemma frame_altitude k deltaTime c :
  key_space k = false -> manualControl c = false ->
  1.05 <= planeAltitude c <= 2 ->
  let c' := step processInput (Frame k deltaTime) c in
  manualControl c' = false /\
  1.05 <= planeAltitude c' <= 2 /\
  planeAltitude c'
  = clamp_above 2 (clamp_below 1.05
      ((if key_left k then planeAltitude c - 0.01 else planeAltitude c)
       + (if key_right k then 0.01 else 0))).
Proof.
  intros Hsp Hm Ha c'. subst c'. cbn [step]. rewrite render_frame_state.
  destruct (getViewMatrix_params deltaTime (processInput k c))
    as (_ & -> & _ & _ & ->).
  destruct (processInput_plane k c Hsp Hm) as (-> & _ & ->).
  split; [reflexivity|]. split; [|reflexivity].
  apply clamp_below_above. lra.
Qed.

(** X17.  Holding RIGHT in plane view raises the altitude by 0.01 per
    frame until it reaches 2, holding LEFT lowers it by 0.01 per frame
    until it reaches 1.05, and holding both or neither leaves it where it
    is: after [n] frames the altitude is min(2, a + 0.01 n), respectively
    max(1.05, a - 0.01 n), whatever the frame times. *)
Theorem altitude_ramp (k : Keys) (deltaTime : R) (n : nat) (c : Camera) :
  key_space k = false -> manualControl c = false ->
  1.05 <= planeAltitude c <= 2 ->
  let c' := Nat.iter n (step processInput (Frame k deltaTime)) c in
  (key_left k = false -> key_right k = true ->
   planeAltitude c' = Rmin 2 (planeAltitude c + 0.01 * INR n)) /\
  (key_left k = true -> key_right k = false ->
   planeAltitude c' = Rmax 1.05 (planeAltitude c - 0.01 * INR n)) /\
  (key_left k = key_right k -> planeAltitude c' = planeAltitude c).
Proof.
  intros Hsp Hm Ha c'. subst c'.
  induction n as [|n IH].
  - change (Nat.iter 0 (step processInput (Frame k deltaTime)) c) with c.
    cbn [INR]. rewrite Rmult_0_r, Rplus_0_r, Rminus_0_r.
    split; [|split]; intros.
    + unfold Rmin. destruct (Rle_dec _ _); lra.
    + unfold Rmax. destruct (Rle_dec _ _); lra.
    + reflexivity.
  - assert (Hn : manualControl
                   (Nat.iter n (step processInput (Frame k deltaTime)) c)
                 = false /\
                 1.05 <= planeAltitude
                   (Nat.iter n (step processInput (Frame k deltaTime)) c)
                 <= 2).
    { clear IH. induction n as [|n IH]; [auto|].
      rewrite Nat.iter_succ. destruct IH as (IHm & IHa).
      destruct (frame_altitude k deltaTime _ Hsp IHm IHa) as (H1 & H2 & _).
      auto. }
    destruct Hn as (Hnm & Hna).
    rewrite Nat.iter_succ, S_INR.
    destruct (frame_altitude k deltaTime _ Hsp Hnm Hna) as (_ & _ & ->).
    destruct IH as (IH1 & IH2 & IH3).
    set (a := planeAltitude
                (Nat.iter n (step processInput (Frame k deltaTime)) c)) in *.
    pose proof (pos_INR n) as Hpos.
    split; [|split].
    + intros Hl Hr. rewrite Hl, Hr. specialize (IH1 Hl Hr).
      rewrite clamp_below_id by lra.
      revert IH1. unfold clamp_above, Rmin.
      repeat destruct (Rle_dec _ _); destruct (Rgt_dec _ _); lra.
    + intros Hl Hr. rewrite Hl, Hr. specialize (IH2 Hl Hr).
      revert IH2. unfold clamp_above, clamp_below, Rmax.
      repeat destruct (Rle_dec _ _); destruct (Rlt_dec _ _);
        destruct (Rgt_dec _ _); lra.
    + intros Hlr. specialize (IH3 Hlr). rewrite Hlr.
      destruct (key_right k);
        rewrite clamp_below_id, clamp_above_id by lra; lra.
Qed.

Lemma altitude_ramp_witness :
  planeAltitude
    (Nat.iter 200 (step processInput (Frame right_key 0.016)) main_init)
  = 2.
Proof.
  destruct (altitude_ramp right_key 0.016 200 main_init) as (H & _);
    [reflexivity | reflexivity | cbn; lra |].
  rewrite H by reflexivity.
  change (planeAltitude main_init) with 1.05.
  replace (INR 200) with 200 by (rewrite INR_IZR_INZ; reflexivity).
  rewrite Rmin_left; lra.
Defined.
